(** * PostGraphile: schema builder, pool adapter and WebSocket bridge

    A shallow embedding of
    - [src/postgraphile/postgraphile.ts]
      ([toPgPool], [quacksLikePgPool], [postgraphile],
       [getPostgraphileSchemaBuilder], [createGqlSchema], [releaseOnce],
       [release]),
    - [src/postgraphile/http/subscriptions.ts]
      ([lowerCaseKeys], [onConnect], [onOperation], [onSubscribe],
       [addContextForSocketAndOpId], [releaseContextForSocketAndOpId],
       [enhanceHttpServerWithWebSockets], [applyMiddleware],
       [reqResFromSocket], the [upgrade] listener), with
    - [src/postgraphql/postgraphql.ts], the earlier entry point
      ([_postgraphql], its [createGqlSchema]).

    JavaScript values are a small inductive type, objects used as
    dictionaries are [gmap string Value], asynchronous functions are
    transition systems whose steps are the synchronous segments between two
    [await]s. What the code only calls and passes on is a parameter of
    the handlers: the plugin hooks, [parse] and [validate] of the GraphQL
    library, and of the language [toLowerCase] and [String] on what a
    client sends. *)

From stdpp Require Import gmap strings list fin_maps pretty.
From Stdlib Require Import ZArith Lia Ascii.

Open Scope string_scope.
Open Scope list_scope.

(** ** JavaScript values *)

Module Js.

(** A function value: its identity and its [name] property. *)
Record FunctionRef := { fn_id : positive; fn_name : string }.

(** [Object.getPrototypeOf(obj)], as far as [isPlainObject] looks at it. *)
Inductive Proto := ProtoNull | ProtoObjectPrototype | ProtoOther.

(** What the code observes of an object: [obj instanceof Pool],
    [Array.isArray(obj)], [obj.constructor], its prototype, [String(obj)]
    and the values its property reads return. The name [__proto__] is
    listed in [obj_props] where it is an own property of the object (as
    [JSON.parse] makes it); a read of [__proto__] that goes through the
    accessor of [Object.prototype] is [obj_proto]. [obj_String] is the
    string [String(obj)] returns: an object whose conversion throws is
    no value of this type. *)
Record ObjectShape (V : Type) := {
  obj_instanceof_Pool : bool;
  obj_isArray : bool;
  obj_constructor : V;
  obj_proto : Proto;
  obj_String : string;
  obj_props : list (string * V);
}.
Arguments obj_instanceof_Pool {V} _.
Arguments obj_isArray {V} _.
Arguments obj_constructor {V} _.
Arguments obj_proto {V} _.
Arguments obj_String {V} _.
Arguments obj_props {V} _.

(** Numbers are the integers and [NaN]; that is enough to have falsy and
    truthy numbers. *)
#[warnings="-register-all"]
Inductive Value :=
  | VUndefined
  | VNull
  | VBool (b : bool)
  | VNaN
  | VNumber (n : Z)
  | VString (s : string)
  | VFunction (f : FunctionRef)
  | VObject (o : ObjectShape Value).

Inductive TypeOf :=
  TyUndefined | TyObject | TyBoolean | TyNumber | TyString | TyFunction.

#[global] Instance TypeOf_eq_dec : EqDecision TypeOf.
Proof. solve_decision. Defined.

Definition typeof (v : Value) : TypeOf :=
  match v with
  | VUndefined => TyUndefined
  | VNull => TyObject
  | VBool _ => TyBoolean
  | VNaN | VNumber _ => TyNumber
  | VString _ => TyString
  | VFunction _ => TyFunction
  | VObject _ => TyObject
  end.

Definition is_function (v : Value) : bool :=
  match v with VFunction _ => true | _ => false end.

Definition is_string (v : Value) : bool :=
  match v with VString _ => true | _ => false end.

(** [ToBoolean]: the falsy values are [undefined], [null], [false], [0],
    [NaN] and the empty string. *)
Definition truthy (v : Value) : bool :=
  match v with
  | VUndefined | VNull | VNaN => false
  | VBool b => b
  | VNumber n => negb (n =? 0)%Z
  | VString s => negb (String.eqb s "")
  | VFunction _ | VObject _ => true
  end.

(** [v == null]. *)
Definition loosely_null (v : Value) : bool :=
  match v with VUndefined | VNull => true | _ => false end.

(** [a || b] on values. *)
Definition or_else (a b : Value) : Value := if truthy a then a else b.

(** [String(v)], and [v] in a concatenation, for the values the code
    outside [onConnect] puts there: the number of a socket, the name of a
    constructor, an option that should be a string, an object with its
    [obj_String]. Integers are written with all their digits, as
    JavaScript writes them below [10^21]. The call [String(...)] of
    [onConnect], on a value the client sends, is not this function but
    [ToString] of the [Builtins]. *)
Definition String_ (v : Value) : string :=
  match v with
  | VUndefined => "undefined"
  | VNull => "null"
  | VBool true => "true"
  | VBool false => "false"
  | VNaN => "NaN"
  | VNumber n => pretty n
  | VString s => s
  | VFunction f => "function " +:+ fn_name f +:+ "() { [native code] }"
  | VObject o => obj_String o
  end.

(** The built-in constructors the primitives answer [v.constructor] with. *)
Definition Object_fn : FunctionRef := {| fn_id := 1; fn_name := "Object" |}.
Definition String_fn : FunctionRef := {| fn_id := 2; fn_name := "String" |}.
Definition Number_fn : FunctionRef := {| fn_id := 3; fn_name := "Number" |}.
Definition Boolean_fn : FunctionRef := {| fn_id := 4; fn_name := "Boolean" |}.
Definition Function_fn : FunctionRef := {| fn_id := 5; fn_name := "Function" |}.

(** [obj.constructor], read on a value that is neither [undefined] nor
    [null]. *)
Definition constructor_of (v : Value) : Value :=
  match v with
  | VUndefined | VNull => VUndefined
  | VBool _ => VFunction Boolean_fn
  | VNaN | VNumber _ => VFunction Number_fn
  | VString _ => VFunction String_fn
  | VFunction _ => VFunction Function_fn
  | VObject o => obj_constructor o
  end.

Fixpoint assoc (k : string) (l : list (string * Value)) : Value :=
  match l with
  | [] => VUndefined
  | (k', v) :: l' => if String.eqb k k' then v else assoc k l'
  end.

(** The property read [v[k]] for the names the code reads ([Client],
    [options], [connect], [live], [watchPg], ...): none of them is a
    property of a primitive. *)
Definition get_prop (v : Value) (k : string) : Value :=
  match v with
  | VObject o => assoc k (obj_props o)
  | _ => VUndefined
  end.

(** The assignment [v[k] = x] on an object. *)
Definition set_prop (v : Value) (k : string) (x : Value) : Value :=
  match v with
  | VObject o =>
      VObject {| obj_instanceof_Pool := obj_instanceof_Pool o;
                 obj_isArray := obj_isArray o;
                 obj_constructor := obj_constructor o;
                 obj_proto := obj_proto o;
                 obj_String := obj_String o;
                 obj_props := (k, x) :: obj_props o |}
  | _ => v
  end.

Definition instanceof_Pool (v : Value) : bool :=
  match v with VObject o => obj_instanceof_Pool o | _ => false end.

Definition isArray (v : Value) : bool :=
  match v with VObject o => obj_isArray o | _ => false end.

(** [f === g] for two function values. *)
Definition same_function (f g : FunctionRef) : bool :=
  bool_decide (fn_id f = fn_id g).

(** The object literal [{ k1: v1, ... }]. *)
Definition literal (props : list (string * Value)) : Value :=
  VObject {| obj_instanceof_Pool := false;
             obj_isArray := false;
             obj_constructor := VFunction Object_fn;
             obj_proto := ProtoObjectPrototype;
             obj_String := "[object Object]";
             obj_props := props |}.

(** Errors: [new Error(message)], and the [GraphQLError] with status 503
    that wraps the error of a failed initialisation. *)
Inductive Error :=
  | JsError (message : string)
  | TypeError (message : string)
  | External (id : nat)
  | GraphQLError503 (message : string) (originalError : Error).

Inductive Result (A : Type) :=
  | Return (a : A)
  | Throw (e : Error).
Arguments Return {A} a.
Arguments Throw {A} e.

End Js.

Import Js.

(** ** The connection pool adapter ([postgraphile.ts], [toPgPool]) *)

Module PoolAdapter.

(** The pool [toPgPool] hands back: the caller's own handle, or
    [new Pool(config)]. *)
Inductive PgPool :=
  | Supplied (handle : Value)
  | NewPool (config : Value).

(** The closure [() => pgPool.end()]. *)
Inductive Callback :=
  | EndPool (pgPool : PgPool).

Definition isPlainObject (obj : Value) : bool :=
  if negb (truthy obj)
     || negb (bool_decide (typeof obj = TyObject))
     || negb (String.eqb (String_ obj) "[object Object]")
  then false
  else
    match obj with
    | VObject o =>
        match obj_proto o with
        | ProtoNull | ProtoObjectPrototype => true
        | ProtoOther => false
        end
    | _ => false
    end.

Section Adapter.

(** [(Pool as any).super_]: [undefined] when [Pool] is a class, the
    inherited constructor when it was set up with [util.inherits]. *)
Variable Pool_super_ : Value.

Definition hasPoolConstructor (obj : Value) : bool :=
  truthy obj
  && match constructor_of obj, Pool_super_ with
     | VFunction f, VFunction g => same_function f g
     | _, _ => false
     end.

Definition constructorName (obj : Value) : option string :=
  if truthy obj then
    match constructor_of obj with
    | VFunction f =>
        if truthy (VString (fn_name f))
        then Some (String_ (VString (fn_name f)))
        else None
    | _ => None
    end
  else None.

Definition quacksLikePgPool (pgConfig : Value) : bool :=
  if instanceof_Pool pgConfig then true
  else if hasPoolConstructor pgConfig then true
  else if negb (truthy pgConfig) || negb (bool_decide (typeof pgConfig = TyObject))
  then false
  else if negb (bool_decide (constructorName pgConfig = Some "Pool"))
          && negb (bool_decide (constructorName pgConfig = Some "BoundPool"))
  then false
  else if negb (truthy (get_prop pgConfig "Client")) then false
  else if negb (truthy (get_prop pgConfig "options")) then false
  else if negb (is_function (get_prop pgConfig "connect")) then false
  else if negb (is_function (get_prop pgConfig "end")) then false
  else if negb (is_function (get_prop pgConfig "query")) then false
  else true.

Definition toPgPool (poolOrConfig : Value)
  : Result (PgPool * option Callback) :=
  if quacksLikePgPool poolOrConfig then
    Return (Supplied poolOrConfig, None)
  else if is_string poolOrConfig then
    let pgPool := NewPool (literal [("connectionString", poolOrConfig)]) in
    Return (pgPool, Some (EndPool pgPool))
  else if negb (truthy poolOrConfig) then
    let pgPool := NewPool (literal []) in
    Return (pgPool, Some (EndPool pgPool))
  else if isPlainObject poolOrConfig then
    let pgPool := NewPool poolOrConfig in
    Return (pgPool, Some (EndPool pgPool))
  else Throw (JsError "Invalid connection string / Pool ").

End Adapter.

(** The structural description of a pool handle: an object whose
    constructor is named [Pool] or [BoundPool], with a [Client], an
    [options] field and the three functions. *)
Definition structural_pool (v : Value) : Prop :=
  truthy v = true ∧ typeof v = TyObject
  ∧ (∃ f, constructor_of v = VFunction f
          ∧ (fn_name f = "Pool" ∨ fn_name f = "BoundPool"))
  ∧ truthy (get_prop v "Client") = true
  ∧ truthy (get_prop v "options") = true
  ∧ is_function (get_prop v "connect") = true
  ∧ is_function (get_prop v "end") = true
  ∧ is_function (get_prop v "query") = true.


End PoolAdapter.

(** ** The schema builder ([postgraphile.ts], [getPostgraphileSchemaBuilder]) *)

Module SchemaBuilder.

Import PoolAdapter.

(** A schema snapshot, by identity. *)
Definition Schema := nat.

(** The pool behind [pgPool], by what the code and its test observe: the
    [ended] property, and what the library answers when [end()] is called
    on a pool that has ended already. *)
Record Pool := {
  ended : bool;
  on_second_end : Result unit;
}.

(** The function [watchPostGraphileSchema] resolves to, by what awaiting
    a call of it gives. *)
Record ReleaseFn := {
  release_id : nat;
  release_outcome : Result unit;
}.

(** [options.retryOnInitFail]: a function, another truthy value, or a
    falsy one. *)
Inductive RetryOnInitFail := RetryHook | RetryTruthy | RetryFalsy.

Definition retryOnInitFail_of (v : Value) : RetryOnInitFail :=
  if is_function v then RetryHook
  else if truthy v then RetryTruthy
  else RetryFalsy.

(** What [createGqlSchema] and the release functions read of their
    closure: [options.watchPg], [options.retryOnInitFail], and the
    [releasePgPool] argument. *)
Record Config := {
  watchPg : bool;
  retryOnInitFail : RetryOnInitFail;
  releasePgPool : option Callback;
}.

(** The effects, in the order they happen. *)
Inductive Event :=
  | CallCreatePostGraphileSchema
  | CallWatchPostGraphileSchema
  | EmitSchemasChanged
  | CallExportGqlSchema (s : Schema)
  | ConsoleError (text : string)
  | ConsoleWarn (text : string)
  | LogSeriousError (error : Error) (when_ : string) (nextSteps : string)
  | CallRetryOnInitFail (error : Error) (attempts : Z)
  | Sleep (ms : Z)
  | ProcessExit (code : Z)
  | CallReleaseWatchFn (id : nat)
  | CallPoolEnd.

(** Where the promise of [createGqlSchema] stands: suspended at one of its
    [await]s, or settled, or cut short by [process.exit]. *)
Inductive Phase :=
  | AwaitCreate
  | AwaitWatch
  | AwaitRetryOnInitFail (error : Error) (delay : Z)
  | AwaitSleep
  | Resolved (s : Schema)
  | Rejected (e : Error)
  | Exited (code : Z).

(** The variables of the closure ([gqlSchema], [releaseWatchFn],
    [released], [attempts]), the pool, the phase and the effects so far. *)
Record Builder := {
  gqlSchema : option Schema;
  releaseWatchFn : option ReleaseFn;
  released : bool;
  attempts : Z;
  pool : Pool;
  phase : Phase;
  log : list Event;
}.

Definition set_gqlSchema (s : Schema) (b : Builder) : Builder :=
  {| gqlSchema := Some s; releaseWatchFn := releaseWatchFn b;
     released := released b; attempts := attempts b; pool := pool b;
     phase := phase b; log := log b |}.

Definition set_releaseWatchFn (f : option ReleaseFn) (b : Builder) : Builder :=
  {| gqlSchema := gqlSchema b; releaseWatchFn := f;
     released := released b; attempts := attempts b; pool := pool b;
     phase := phase b; log := log b |}.

Definition set_released (r : bool) (b : Builder) : Builder :=
  {| gqlSchema := gqlSchema b; releaseWatchFn := releaseWatchFn b;
     released := r; attempts := attempts b; pool := pool b;
     phase := phase b; log := log b |}.

Definition set_attempts (n : Z) (b : Builder) : Builder :=
  {| gqlSchema := gqlSchema b; releaseWatchFn := releaseWatchFn b;
     released := released b; attempts := n; pool := pool b;
     phase := phase b; log := log b |}.

Definition set_pool (p : Pool) (b : Builder) : Builder :=
  {| gqlSchema := gqlSchema b; releaseWatchFn := releaseWatchFn b;
     released := released b; attempts := attempts b; pool := p;
     phase := phase b; log := log b |}.

Definition set_phase (p : Phase) (b : Builder) : Builder :=
  {| gqlSchema := gqlSchema b; releaseWatchFn := releaseWatchFn b;
     released := released b; attempts := attempts b; pool := pool b;
     phase := p; log := log b |}.

Definition emit (e : Event) (b : Builder) : Builder :=
  {| gqlSchema := gqlSchema b; releaseWatchFn := releaseWatchFn b;
     released := released b; attempts := attempts b; pool := pool b;
     phase := phase b; log := log b ++ [e] |}.

(** *** The release functions

    A computation on the closure that returns or throws. *)
Definition M (A : Type) : Type := Builder → Result A * Builder.

Definition ret {A} (a : A) : M A := λ b, (Return a, b).
Definition throw {A} (e : Error) : M A := λ b, (Throw e, b).
Definition bind {A B} (c : M A) (k : A → M B) : M B :=
  λ b, match c b with
       | (Return a, b') => k a b'
       | (Throw e, b') => (Throw e, b')
       end.
Definition modify (f : Builder → Builder) : M unit := λ b, (Return tt, f b).
Definition read {A} (f : Builder → A) : M A := λ b, (Return (f b), b).

Notation "'do' x <- c ; k" := (bind c (λ x, k))
  (at level 10, x name, c at level 100, k at level 200).
Notation "c ;; k" := (bind c (λ _, k))
  (at level 100, k at level 200, right associativity).

(** [pgPool.end()]. *)
Definition Pool_end : M unit :=
  modify (emit CallPoolEnd) ;;
  do p <- read pool;
  if ended p then (λ b, (on_second_end p, b))
  else modify (set_pool {| ended := true; on_second_end := on_second_end p |}).

(** Calling a [releasePgPool] callback. *)
Definition call (cb : Callback) : M unit :=
  match cb with EndPool _ => Pool_end end.

Definition releaseWatch : M unit :=
  do fn <- read releaseWatchFn;
  match fn with
  | Some f =>
      modify (emit (CallReleaseWatchFn (release_id f))) ;;
      (λ b, (release_outcome f, b)) ;;
      modify (set_releaseWatchFn None)
  | None => ret tt
  end.

Definition releaseOnce (cfg : Config) : M unit :=
  do r <- read released;
  if r then
    throw (JsError "Already released this PostGraphile schema builder; should not have attempted a second release")
  else
    modify (set_released true) ;;
    releaseWatch ;;
    match releasePgPool cfg with
    | Some cb => call cb
    | None => ret tt
    end.

(** The [release] of the handler that [postgraphile] returns; its
    [releaseWatch] is the builder's function, which is never null. *)
Definition release (cfg : Config) : M unit :=
  releaseWatch ;;
  match releasePgPool cfg with
  | Some cb => call cb
  | None => ret tt
  end.

(** *** [createGqlSchema]

    The asynchronous function is a transition system: a step is the
    synchronous code that runs when the awaited call settles, up to the
    next [await]. Other code (a caller of [getGraphQLSchema], the watch
    callback) runs between two steps only. *)

(** [Math.min(100 * Math.pow(attempts, 2), 30000)]. *)
Definition delay (attempts : Z) : Z := Z.min (100 * attempts ^ 2) 30000.

(** [diff[0] * 1e3 + diff[1] * 1e-6 < 50] for [diff = process.hrtime(start)],
    seconds and nanoseconds, compared exactly. *)
Definition dur_lt_50 (diff : Z * Z) : bool :=
  (fst diff * 1000000000 + snd diff <? 50000000)%Z.

Definition generated_text (attempts : Z) : string :=
  "Schema "
  +:+ (if (15 <? attempts)%Z then "eventually"
       else if (5 <? attempts)%Z then "finally" else "now")
  +:+ " generated successfully".

Definition too_fast_text (delay attempts : Z) : string :=
  "Your retryOnInitFail function should include a delay before resolving; falling back to a "
  +:+ pretty delay +:+ "ms wait (attempts = " +:+ pretty attempts
  +:+ ") to avoid overwhelming the database.".

(** The two errors [createGqlSchema] throws itself. *)
Definition releaseWatchFn_set_error : Error :=
  JsError "releaseWatchFn should not have been set at this point.".

Definition consistency_error : Error :=
  JsError "Consistency error: watchPostGraphileSchema promises to call the callback before the promise resolves; but this hasn't happened".

(** The [catch (error)] block, up to its first [await] (or to
    [process.exit]). *)
Definition catch_error (cfg : Config) (error : Error) (b : Builder) : Builder :=
  let b := set_attempts (attempts b + 1) b in
  let delay := delay (attempts b) in
  match retryOnInitFail cfg with
  | RetryHook =>
      set_phase (AwaitRetryOnInitFail error delay)
        (emit (CallRetryOnInitFail error (attempts b)) b)
  | other =>
      let exitOnFail := match other with RetryFalsy => true | _ => false end in
      let b :=
        emit (LogSeriousError error
                ("building the initial schema"
                 +:+ (if (1 <? attempts b)%Z
                      then " (attempt " +:+ pretty (attempts b) +:+ ")"
                      else ""))
                (if exitOnFail
                 then "Exiting because `retryOnInitFail` is not set."
                 else "We'll try again in " +:+ pretty delay +:+ "ms.")) b in
      if exitOnFail then set_phase (Exited 34) (emit (ProcessExit 34) b)
      else set_phase AwaitSleep (emit (Sleep delay) b)
  end.

(** The top of the loop body: the [try] block up to its first [await]. *)
Definition try_build (cfg : Config) (b : Builder) : Builder :=
  if watchPg cfg then
    match releaseWatchFn b with
    | Some _ =>
        catch_error cfg releaseWatchFn_set_error b
    | None => set_phase AwaitWatch (emit CallWatchPostGraphileSchema b)
    end
  else set_phase AwaitCreate (emit CallCreatePostGraphileSchema b).

(** The end of the [try] block: the message after earlier failures, and
    [return gqlSchema]. *)
Definition return_gqlSchema (s : Schema) (b : Builder) : Builder :=
  let b :=
    if (0 <? attempts b)%Z
    then emit (ConsoleError (generated_text (attempts b))) b
    else b in
  set_phase (Resolved s) b.

(** The callback handed to [watchPostGraphileSchema]. Of
    [exportGqlSchema], which catches its own errors, only the call is
    recorded. *)
Definition watch_callback (newSchema : Schema) (b : Builder) : Builder :=
  emit (CallExportGqlSchema newSchema)
    (emit EmitSchemasChanged (set_gqlSchema newSchema b)).

(** What the outside does: it settles the awaited call, or (in watch
    mode) calls the callback. *)
Inductive Input :=
  | CreateSettled (r : Result Schema)
  | WatchCallback (newSchema : Schema)
  | WatchSettled (r : Result ReleaseFn)
  | RetryOnInitFailSettled (r : Result Value) (diff : Z * Z)
  | SleepElapsed.

(** The [GraphQLError] of the inner [catch (e)]. *)
Definition wrap (e : Error) : Error :=
  GraphQLError503 "Failed to initialize GraphQL schema." e.

(** One step. An input that the phase does not wait for gives [None].
    When the hook vetoes, [await releaseOnce()] is taken in the same
    step: nothing here looks at the builder between its [await]s. *)

Definition step (cfg : Config) (b : Builder) (i : Input) : option Builder :=
  match i, phase b with
  | WatchCallback newSchema, Exited _ => None
  | WatchCallback newSchema, _ =>
      if watchPg cfg then Some (watch_callback newSchema b) else None
  | CreateSettled (Return s), AwaitCreate =>
      Some (return_gqlSchema s (emit (CallExportGqlSchema s) (set_gqlSchema s b)))
  | CreateSettled (Throw error), AwaitCreate => Some (catch_error cfg error b)
  | WatchSettled (Return fn), AwaitWatch =>
      let b := set_releaseWatchFn (Some fn) b in
      match gqlSchema b with
      | None => Some (catch_error cfg consistency_error b)
      | Some s => Some (return_gqlSchema s b)
      end
  | WatchSettled (Throw error), AwaitWatch => Some (catch_error cfg error b)
  | RetryOnInitFailSettled (Return retry) diff, AwaitRetryOnInitFail error delay =>
      if negb (truthy retry) then
        match releaseOnce cfg b with
        | (Return _, b') => Some (set_phase (Rejected (wrap error)) b')
        | (Throw e, b') => Some (set_phase (Rejected (wrap e)) b')
        end
      else if dur_lt_50 diff then
        Some (set_phase AwaitSleep
                (emit (Sleep delay)
                   (emit (ConsoleError (too_fast_text delay (attempts b))) b)))
      else Some (try_build cfg b)
  | RetryOnInitFailSettled (Throw e) _, AwaitRetryOnInitFail _ _ =>
      Some (set_phase (Rejected (wrap e)) b)
  | SleepElapsed, AwaitSleep => Some (try_build cfg b)
  | _, _ => None
  end.

Fixpoint run (cfg : Config) (b : Builder) (inputs : list Input) : option Builder :=
  match inputs with
  | [] => Some b
  | i :: inputs' =>
      match step cfg b i with
      | Some b' => run cfg b' inputs'
      | None => None
      end
  end.

(** The closure at the end of [getPostgraphileSchemaBuilder]:
    [createGqlSchema()] has run to its first [await]. *)
Definition new_builder (cfg : Config) (p : Pool) (log0 : list Event) : Builder :=
  try_build cfg
    {| gqlSchema := None; releaseWatchFn := None; released := false;
       attempts := 0; pool := p; phase := AwaitCreate; log := log0 |}.

(** *** [getGraphQLSchema] *)

(** The promise a caller gets: [gqlSchemaPromise] itself, or a new
    promise made by [Promise.resolve(gqlSchema)]. *)
Inductive PromiseRef :=
  | gqlSchemaPromise
  | PromiseResolve (s : Schema).

Definition getGraphQLSchema (b : Builder) : PromiseRef :=
  match gqlSchema b with
  | Some s => PromiseResolve s
  | None => gqlSchemaPromise
  end.

(** The build is in flight while [createGqlSchema] is suspended. *)
Definition in_flight (b : Builder) : bool :=
  match phase b with
  | AwaitCreate | AwaitWatch | AwaitRetryOnInitFail _ _ | AwaitSleep => true
  | Resolved _ | Rejected _ | Exited _ => false
  end.

(** Projections of the log. *)
Definition sleeps (l : list Event) : list Z :=
  omap (λ e, match e with Sleep ms => Some ms | _ => None end) l.

Definition hook_calls (l : list Event) : list (Error * Z) :=
  omap (λ e, match e with
             | CallRetryOnInitFail error n => Some (error, n)
             | _ => None
             end) l.

Definition build_calls (l : list Event) : list Event :=
  omap (λ e, match e with
             | CallCreatePostGraphileSchema
             | CallWatchPostGraphileSchema => Some e
             | _ => None
             end) l.

End SchemaBuilder.

(** ** The entry point ([postgraphile.ts], [postgraphile]) *)

Module Postgraphile.

Import PoolAdapter SchemaBuilder.

(** The collaborators: [Pool.super_], the [postgraphile:options] plugin
    hook, the state of a pool the caller supplies and the answer of a
    created pool to a second [end()]. *)
Record Env := {
  Pool_super_ : Value;
  options_hook : Value → PgPool → Value → Value;
  supplied_pool : Value → Pool;
  second_end : Result unit;
}.

(** The arguments [createPostGraphileHttpRequestHandler] gets, with the
    closure of the builder. *)
Record HttpRequestHandler := {
  ownerConnectionString : option string;
  options : Value;
  pgPool : PgPool;
  pgSchemas : list Value;
  config : Config;
  builder : Builder;
}.

Section Entry.

Variable env : Env.

Definition pool_of (p : PgPool) : Pool :=
  match p with
  | Supplied handle => supplied_pool env handle
  | NewPool _ => {| ended := false; on_second_end := second_end env |}
  end.

(** The elements of an array value are not modelled: a schema array is
    kept as one value. *)
Definition pgSchemas_of (schema : Value) : list Value := [schema].

Definition getPostgraphileSchemaBuilder
    (pgPool : PgPool) (schema incomingOptions : Value)
    (releasePgPool : option Callback)
  : Result (Value * Config * Builder) :=
  let incomingOptions :=
    if truthy (get_prop incomingOptions "live")
       && loosely_null (get_prop incomingOptions "subscriptions")
    then set_prop incomingOptions "subscriptions" (VBool true)
    else incomingOptions in
  let options := options_hook env incomingOptions pgPool schema in
  if loosely_null options then
    Throw (TypeError "Cannot read properties of undefined (reading 'jwtSecret')")
  else
    let log0 :=
      if truthy (get_prop options "jwtSecret")
         && negb (truthy (get_prop options "jwtPgTypeIdentifier"))
      then [ConsoleWarn "WARNING: jwtSecret provided, however jwtPgTypeIdentifier (token identifier) not provided."]
      else [] in
    if truthy (get_prop options "handleErrors")
       && (truthy (get_prop options "extendedErrors")
           || truthy (get_prop options "showErrorStack"))
    then Throw (JsError "You cannot combine 'handleErrors' with the other error options")
    else
      let cfg := {| watchPg := truthy (get_prop options "watchPg");
                    retryOnInitFail :=
                      retryOnInitFail_of (get_prop options "retryOnInitFail");
                    releasePgPool := releasePgPool |} in
      Return (options, cfg, new_builder cfg (pool_of pgPool) log0).

(** [postgraphile(...args)]: [arguments.length] is the length of the
    list, a missing argument reads as [undefined]. *)
Definition postgraphile (arguments : list Value) : Result HttpRequestHandler :=
  let poolOrConfig := default VUndefined (arguments !! 0%nat) in
  let schemaOrOptions := default VUndefined (arguments !! 1%nat) in
  let maybeOptions := default VUndefined (arguments !! 2%nat) in
  let parsed : Result (Value * Value) :=
    if is_string schemaOrOptions || isArray schemaOrOptions then
      Return (schemaOrOptions, or_else maybeOptions (literal []))
    else if bool_decide (typeof schemaOrOptions = TyObject) then
      Return (VString "public",
              or_else (or_else schemaOrOptions maybeOptions) (literal []))
    else if (1 <? length arguments)%nat then
      Throw (JsError "The second argument to postgraphile was invalid... did you mean to set a schema?")
    else Return (VString "public", literal []) in
  match parsed with
  | Throw e => Throw e
  | Return (schema, incomingOptions) =>
      if bool_decide (typeof poolOrConfig = TyUndefined)
         && (1 <=? length arguments)%nat
      then Throw (JsError "The first argument to postgraphile was `undefined`... did you mean to set pool options?")
      else
        match toPgPool (Pool_super_ env) poolOrConfig with
        | Throw e => Throw e
        | Return (pgPool, releasePgPool) =>
            let listening :=
              match pgPool with
              | Supplied handle => is_function (get_prop handle "on")
              | NewPool _ => true
              end in
            if negb listening then Throw (TypeError "pgPool.on is not a function")
            else
              match getPostgraphileSchemaBuilder
                      pgPool schema incomingOptions releasePgPool with
              | Throw e => Throw e
              | Return (options, cfg, b) =>
                  Return {| ownerConnectionString :=
                              match poolOrConfig with
                              | VString s => Some s
                              | _ => None
                              end;
                            options := options;
                            pgPool := pgPool;
                            pgSchemas := pgSchemas_of schema;
                            config := cfg;
                            builder := b |}
              end
        end
  end.

End Entry.

End Postgraphile.

(** ** The WebSocket bridge ([http/subscriptions.ts]) *)

Module Subscriptions.

(** *** Connection parameters and headers *)

(** A string is a JavaScript string, in an encoding that keeps
    different strings apart and writes an ASCII string as it is. Two
    functions of the language are taken as they are, whatever they
    answer: [key.toLowerCase()], which follows the Unicode case mapping,
    and the call [String(value)], which returns a string (['1e+21'] for
    a large number) or throws (a [toString] that is no function). *)
Class Builtins := {
  toLowerCase : string → string;
  ToString : Value → Result string;
}.

(** An object built by assignments on [{}]: its own properties, and its
    prototype where an assignment to [__proto__] replaced
    [Object.prototype] ([None]). The values are values as [JSON.parse]
    makes them: their properties are own data properties that can be
    written. *)
Record Dict := {
  own : gmap string Value;
  proto : option Value;
}.

Definition empty_dict : Dict := {| own := ∅; proto := None |}.

(** Whether [v] has an own property [k]. *)
Definition has_own (v : Value) (k : string) : bool :=
  match v with
  | VObject o => bool_decide (k ∈ (obj_props o).*1)
  | _ => false
  end.

(** Whether [memo.__proto__ = value] ends in the setter of
    [Object.prototype]: [memo] has no own property of that name, and
    none is found on the way up from its prototype before
    [Object.prototype] is reached. A prototype that was set to [null],
    or to an object without prototype, or to an object that has
    [__proto__] as an own property, makes the assignment an ordinary
    one. *)
Definition inherits_accessor (memo : Dict) : bool :=
  match own memo !! "__proto__" with
  | Some _ => false
  | None =>
      match proto memo with
      | Some VNull => false
      | Some (VObject o) =>
          negb (has_own (VObject o) "__proto__")
          && match obj_proto o with ProtoNull => false | _ => true end
      | _ => true
      end
  end.

(** [memo[key] = value]: the name [__proto__] is the accessor of
    [Object.prototype], whose setter takes objects and [null] and ignores
    the rest. *)
Definition assign (memo : Dict) (key : string) (value : Value) : Dict :=
  if String.eqb key "__proto__" && inherits_accessor memo then
    match value with
    | VNull | VObject _ | VFunction _ => {| own := own memo; proto := Some value |}
    | _ => memo
    end
  else {| own := <[key := value]> (own memo); proto := proto memo |}.

(** [memo[key]] for a [key] that [Object.prototype] does not have. *)
Definition read_dict (memo : Dict) (key : string) : Value :=
  match own memo !! key with
  | Some v => v
  | None =>
      match proto memo with
      | Some inherited => get_prop inherited key
      | None => VUndefined
      end
  end.

(** A header map: [request.headers], [socket.postgraphileHeaders]. *)
Abbreviation Headers := (gmap string Value).

Record Request := {
  headers : Headers;
  connectionParams : option (list (string * Value));
  normalizedConnectionParams : option Dict;
}.

Record Socket := {
  postgraphileId : Value;
  postgraphileReq : option Request;
  postgraphileHeaders : option Headers;
}.

(** [request.headers.authorization]. *)
Definition authorization (h : Headers) : Value :=
  default VUndefined (h !! "authorization").

(** [{ ...normalizedConnectionParams, ...request.headers }]. *)
Definition spread (normalized : Dict) (h : Headers) : Headers :=
  h ∪ own normalized.

Definition keys_of_nothing : Error :=
  TypeError "Cannot convert undefined or null to object".

Section Connect.

Context `{Builtins}.

(** [Object.keys(obj).reduce(...)] over the own enumerable properties of
    [obj], in the order of [Object.keys]. *)
Definition lowerCaseKeys (obj : list (string * Value)) : Dict :=
  foldl (λ memo kv, assign memo (toLowerCase kv.1) kv.2) empty_dict obj.

(** The part both [onConnect] share from [normalizedConnectionParams] on:
    the conditional copy into [request.headers], where [String(...)] may
    throw. *)
Definition copy_authorization (normalized : Dict) (h : Headers) : Result Headers :=
  if negb (truthy (authorization h))
     && truthy (read_dict normalized "authorization")
  then
    match ToString (read_dict normalized "authorization") with
    | Return s => Return (<["authorization" := VString s]> h)
    | Throw e => Throw e
    end
  else Return h.

(** [onConnect] of the [v0] server. The state is the counter [socketId]
    and the socket; [request] is [connectionContext.request];
    [connectionParams] is [None] for [undefined] and [null], of which
    [Object.keys] throws. *)
Definition onConnect_v0
    (socketId : Z) (connectionParams : option (list (string * Value)))
    (socket : Socket) (request : option Request)
  : Result unit * (Z * Socket) :=
  let socketId := (socketId + 1)%Z in
  let socket := {| postgraphileId := VNumber socketId;
                   postgraphileReq := postgraphileReq socket;
                   postgraphileHeaders := postgraphileHeaders socket |} in
  match request, connectionParams with
  | None, _ => (Throw (JsError "No request!"), (socketId, socket))
  | Some _, None => (Throw keys_of_nothing, (socketId, socket))
  | Some request, Some connectionParams =>
      let normalized := lowerCaseKeys connectionParams in
      let kept h := {| headers := h;
                       connectionParams := Some connectionParams;
                       normalizedConnectionParams := Some normalized |} in
      match copy_authorization normalized (headers request) with
      | Throw e =>
          (Throw e,
           (socketId,
            {| postgraphileId := VNumber socketId;
               postgraphileReq := Some (kept (headers request));
               postgraphileHeaders := postgraphileHeaders socket |}))
      | Return h =>
          (Return tt,
           (socketId,
            {| postgraphileId := VNumber socketId;
               postgraphileReq := Some (kept h);
               postgraphileHeaders := Some (spread normalized h) |}))
      end
  end.

(** [onConnect] of the [v1] server; [ctx.connectionParams] is [None]
    when it is falsy ([connectionParams || {}]). *)
Definition onConnect_v1
    (socketId : Z) (connectionParams : option (list (string * Value)))
    (socket : Socket) (request : Request)
  : Result unit * (Z * Socket) :=
  let socketId := (socketId + 1)%Z in
  let normalized := lowerCaseKeys (default [] connectionParams) in
  let kept h := {| headers := h;
                   connectionParams := Some (default [] connectionParams);
                   normalizedConnectionParams := Some normalized |} in
  match copy_authorization normalized (headers request) with
  | Throw e =>
      (Throw e,
       (socketId,
        {| postgraphileId := VNumber socketId;
           postgraphileReq := Some (kept (headers request));
           postgraphileHeaders := postgraphileHeaders socket |}))
  | Return h =>
      (Return tt,
       (socketId,
        {| postgraphileId := VNumber socketId;
           postgraphileReq := Some (kept h);
           postgraphileHeaders := Some (spread normalized h) |}))
  end.

End Connect.


(** The two functions on the values of the examples: strings of ASCII
    characters, of which [toLowerCase] changes the letters [A] to [Z],
    and string values, which [String] hands back. *)
Definition lower_ascii (c : ascii) : ascii :=
  let n := nat_of_ascii c in
  if (65 <=? n)%nat && (n <=? 90)%nat then ascii_of_nat (n + 32) else c.

Fixpoint toLowerCase_ascii (s : string) : string :=
  match s with
  | EmptyString => EmptyString
  | String c s' => String (lower_ascii c) (toLowerCase_ascii s')
  end.

Definition ascii_builtins : Builtins :=
  {| toLowerCase := toLowerCase_ascii;
     ToString := λ v, Return (String_ v) |}.

(** *** The deferred context slots *)

(** A [Deferred]: whether [resolve] was called, and the [context] put on
    it. [slot] is not a field of the source: it remembers the key the
    deferred was made for. *)
Record Deferred := {
  resolved : bool;
  context : Value;
  slot : string;
}.

(** The deferreds made so far, by identity, and
    [keepalivePromisesByContextKey]; [Some None] is an entry set to
    [null]. *)
Record Keepalive := {
  deferreds : list Deferred;
  keepalivePromisesByContextKey : gmap string (option nat);
}.

Definition no_contexts : Keepalive :=
  {| deferreds := []; keepalivePromisesByContextKey := ∅ |}.

(** [ws['postgraphileId'] + '|' + opId]. *)
Definition contextKey (ws : Socket) (opId : string) : string :=
  String_ (postgraphileId ws) +:+ "|" +:+ opId.

(** [promise.resolve()]. *)
Definition resolve (d : Deferred) : Deferred :=
  {| resolved := true; context := context d; slot := slot d |}.

Definition releaseContextForSocketAndOpId
    (ws : Socket) (opId : string) (st : Keepalive) : Keepalive :=
  match keepalivePromisesByContextKey st !! contextKey ws opId with
  | Some (Some promise) =>
      {| deferreds := alter resolve promise (deferreds st);
         keepalivePromisesByContextKey :=
           <[contextKey ws opId := None]> (keepalivePromisesByContextKey st) |}
  | _ => st
  end.

(** The three statements after the release: make the deferred, put the
    context on it, store it. *)
Definition install
    (ctx : Value) (ws : Socket) (opId : string) (st : Keepalive)
  : nat * Keepalive :=
  let promise := length (deferreds st) in
  (promise,
   {| deferreds :=
        deferreds st
        ++ [{| resolved := false; context := ctx; slot := contextKey ws opId |}];
      keepalivePromisesByContextKey :=
        <[contextKey ws opId := Some promise]> (keepalivePromisesByContextKey st) |}).

Definition addContextForSocketAndOpId
    (ctx : Value) (ws : Socket) (opId : string) (st : Keepalive)
  : nat * Keepalive :=
  install ctx ws opId (releaseContextForSocketAndOpId ws opId st).

(** A live slot: an entry whose deferred has not been resolved. *)
Definition live (st : Keepalive) (promise : nat) : Prop :=
  ∃ d, deferreds st !! promise = Some d ∧ resolved d = false.

(** The calls the bridge makes on the slots. *)
Inductive SlotOp :=
  | Add (ctx : Value) (ws : Socket) (opId : string)
  | Release (ws : Socket) (opId : string).

Definition apply_op (st : Keepalive) (op : SlotOp) : Keepalive :=
  match op with
  | Add ctx ws opId => (addContextForSocketAndOpId ctx ws opId st).2
  | Release ws opId => releaseContextForSocketAndOpId ws opId st
  end.

(** *** Operations: [onOperation] ([v0]) and [onSubscribe] ([v1]) *)

Record GraphQLError := {
  message : string;
  error_id : nat;
}.

(** A call of [validate], with the rules it ran and the errors it found. *)
Inductive RuleSet := Static | PerRequest.

Inductive Outcome (A : Type) :=
  | Proceed (a : A)
  | ReturnedErrors (errors : list GraphQLError)
  | Rejected (message : string) (errors : list GraphQLError)
  | Failed (e : Error).
Arguments Proceed {A} a.
Arguments ReturnedErrors {A} errors.
Arguments Rejected {A} message errors.
Arguments Failed {A} e.



Definition newline : string := String (ascii_of_nat 10) EmptyString.

(** ['Query validation failed: \n' + validationErrors.map(e => e.message).join('\n')]. *)
Definition validation_failed_text (errors : list GraphQLError) : string :=
  "Query validation failed: " +:+ newline
  +:+ String.concat newline (map message errors).

Section Operations.

Variables Schema Document Rule Context ReqRes : Type.

Inductive Query :=
  | QueryString (text : string)
  | QueryDocument (d : Document).

(** [ExecutionParams] of the [v0] transport, after the handler's
    assignments; [formatResponse] is installed on every path that gets
    that far and is not represented. *)
Record ExecutionParams := {
  params_schema : option Schema;
  params_query : Query;
  params_variables : Value;
  params_operationName : Value;
  params_context : list Context;
}.

(** [finalParams]: the hooked params with the parsed query. *)
Record FinalParams := {
  hooked : ExecutionParams;
  final_query : Document;
}.

(** [ExecutionArgs] of the [v1] transport. *)
Record ExecutionArgs := {
  args_schema : Schema;
  args_contextValue : Context;
  args_operationName : Value;
  args_document : Document;
  args_variableValues : Value;
}.

Record Payload := {
  payload_query : string;
  payload_variables : Value;
  payload_operationName : Value;
}.

(** What the handlers call: [getContext], [getGraphQLSchema],
    [reqResFromSocket], the plugin hooks, and [parse] and [validate] of
    the GraphQL library. *)
Record Collaborators := {
  getContext : Socket → string → Result Context;
  getGraphQLSchema : Result Schema;
  reqResFromSocket : Socket → Result ReqRes;
  onOperation_hook : ExecutionParams → ExecutionParams;
  onSubscribe_hook : ExecutionArgs → ExecutionArgs;
  validationRules_hook : ReqRes → Value → Value → list Rule;
  parse : string → Result Document;
  validate : Schema → Document → list Rule → list GraphQLError;
  staticValidationRules : list Rule;
}.

Inductive Validated :=
  | Validate (which : RuleSet) (rules : list Rule) (errors : list GraphQLError).

Variable c : Collaborators.

Definition onOperation
    (opId : string) (params : ExecutionParams) (socket : Socket)
  : Outcome FinalParams * list Validated :=
  match getContext c socket opId with
  | Throw e => (Failed e, [])
  | Return context =>
  match getGraphQLSchema c with
  | Throw e => (Failed e, [])
  | Return schema =>
  let params := {| params_schema := Some schema;
                   params_query := params_query params;
                   params_variables := params_variables params;
                   params_operationName := params_operationName params;
                   params_context := params_context params ++ [context] |} in
  match reqResFromSocket c socket with
  | Throw e => (Failed e, [])
  | Return reqres =>
  let hookedParams := onOperation_hook c params in
  let parsed :=
    match params_query hookedParams with
    | QueryDocument d => Return d
    | QueryString text => parse c text
    end in
  match parsed with
  | Throw e => (Failed e, [])
  | Return query =>
  let finalParams := {| hooked := hookedParams; final_query := query |} in
  let moreValidationRules :=
    validationRules_hook c reqres
      (params_variables params) (params_operationName params) in
  match moreValidationRules with
  | [] => (Proceed finalParams, [])
  | _ :: _ =>
      let validationErrors := validate c schema query moreValidationRules in
      let calls := [Validate PerRequest moreValidationRules validationErrors] in
      match validationErrors with
      | [] => (Proceed finalParams, calls)
      | _ :: _ =>
          (Rejected (validation_failed_text validationErrors) validationErrors,
           calls)
      end
  end end end end end.

Definition onSubscribe
    (socket : Socket) (msg_id : string) (payload : Payload)
  : Outcome ExecutionArgs * list Validated :=
  match getContext c socket msg_id with
  | Throw e => (Failed e, [])
  | Return context =>
  match getGraphQLSchema c with
  | Throw e => (Failed e, [])
  | Return schema =>
  match parse c (payload_query payload) with
  | Throw e => (Failed e, [])
  | Return document =>
  let args := {| args_schema := schema;
                 args_contextValue := context;
                 args_operationName := payload_operationName payload;
                 args_document := document;
                 args_variableValues := payload_variables payload |} in
  let hookedArgs := onSubscribe_hook c args in
  let validationErrors :=
    validate c (args_schema hookedArgs) (args_document hookedArgs)
      (staticValidationRules c) in
  let calls := [Validate Static (staticValidationRules c) validationErrors] in
  match validationErrors with
  | _ :: _ => (ReturnedErrors validationErrors, calls)
  | [] =>
  match reqResFromSocket c socket with
  | Throw e => (Failed e, calls)
  | Return reqres =>
  let moreValidationRules :=
    validationRules_hook c reqres
      (args_variableValues hookedArgs) (args_operationName hookedArgs) in
  match moreValidationRules with
  | [] => (Proceed hookedArgs, calls)
  | _ :: _ =>
      let moreValidationErrors :=
        validate c (args_schema hookedArgs) (args_document hookedArgs)
          moreValidationRules in
      let calls :=
        (calls ++ [Validate PerRequest moreValidationRules moreValidationErrors])%list in
      match moreValidationErrors with
      | [] => (Proceed hookedArgs, calls)
      | _ :: _ => (ReturnedErrors moreValidationErrors, calls)
      end
  end end end end end end.

End Operations.

Arguments QueryString {Document} text.
Arguments QueryDocument {Document} d.
Arguments Validate {Rule} which rules errors.
Arguments onOperation {Schema Document Rule Context ReqRes} c opId params socket.
Arguments onSubscribe {Schema Document Rule Context ReqRes} c socket msg_id payload.
Arguments getContext {Schema Document Rule Context ReqRes} c.
Arguments getGraphQLSchema {Schema Document Rule Context ReqRes} c.
Arguments reqResFromSocket {Schema Document Rule Context ReqRes} c.
Arguments onOperation_hook {Schema Document Rule Context ReqRes} c.
Arguments onSubscribe_hook {Schema Document Rule Context ReqRes} c.
Arguments validationRules_hook {Schema Document Rule Context ReqRes} c.
Arguments parse {Schema Document Rule Context ReqRes} c.
Arguments validate {Schema Document Rule Context ReqRes} c.
Arguments staticValidationRules {Schema Document Rule Context ReqRes} c.
Arguments params_schema {Schema Document Context} e.
Arguments params_query {Schema Document Context} e.
Arguments params_variables {Schema Document Context} e.
Arguments params_operationName {Schema Document Context} e.
Arguments params_context {Schema Document Context} e.
Arguments hooked {Schema Document Context} f.
Arguments final_query {Schema Document Context} f.
Arguments args_schema {Schema Document Context} e.
Arguments args_contextValue {Schema Document Context} e.
Arguments args_operationName {Schema Document Context} e.
Arguments args_document {Schema Document Context} e.
Arguments args_variableValues {Schema Document Context} e.

(** *** [enhanceHttpServerWithWebSockets] *)

Inductive Protocol := V0 | V1.

(** The http server: the flag the function puts on it, its [upgrade]
    listeners and the subscription servers created on it. *)
Record HttpServer := {
  postgraphileSubscriptionsEnabled : Value;
  upgradeListeners : nat;
  subscriptionServers : list Protocol;
}.

Inductive Started := ReturnedAtOnce | AwaitingSchema.

(** The function up to [await getGraphQLSchema()]. *)
Definition enhance_start (server : HttpServer) : Started * HttpServer :=
  if truthy (postgraphileSubscriptionsEnabled server) then (ReturnedAtOnce, server)
  else
    (AwaitingSchema,
     {| postgraphileSubscriptionsEnabled := VBool true;
        upgradeListeners := upgradeListeners server;
        subscriptionServers := subscriptionServers server |}).

(** The function from the settled [getGraphQLSchema()] on; [websockets]
    is [subscriptionServerOptions?.websockets]. *)
Definition enhance_resume
    (schema : Result nat) (websockets : Value) (server : HttpServer)
  : Result unit * HttpServer :=
  match schema with
  | Throw e => (Throw e, server)
  | Return _ =>
      let server :=
        {| postgraphileSubscriptionsEnabled := postgraphileSubscriptionsEnabled server;
           upgradeListeners := S (upgradeListeners server);
           subscriptionServers := subscriptionServers server |} in
      let create protocol :=
        (Return tt,
         {| postgraphileSubscriptionsEnabled := postgraphileSubscriptionsEnabled server;
            upgradeListeners := upgradeListeners server;
            subscriptionServers := subscriptionServers server ++ [protocol] |}) in
      match websockets with
      | VString "v0" => create V0
      | VString "v1" => create V1
      | _ => (Throw (JsError ("Invalid websockets argument " +:+ String_ websockets)),
              server)
      end
  end.

Definition enhanceHttpServerWithWebSockets
    (schema : Result nat) (websockets : Value) (server : HttpServer)
  : Result unit * HttpServer :=
  match enhance_start server with
  | (ReturnedAtOnce, server) => (Return tt, server)
  | (AwaitingSchema, server) => enhance_resume schema websockets server
  end.

End Subscriptions.

(** ** The WebSocket bridge: connections, routing and the request of a socket

    More of [src/postgraphile/http/subscriptions.ts]: the counter
    [socketId] over the connections of one server, [graphqlRoute] and the
    [upgrade] listener, and [applyMiddleware] with [reqResFromSocket]. *)

Module Connections.

Import Subscriptions.

(** A connect event as the protocol server hands it to [onConnect]. *)
Inductive Connect :=
  | ConnectV0 (connectionParams : option (list (string * Value)))
              (socket : Socket) (request : option Request)
  | ConnectV1 (connectionParams : option (list (string * Value)))
              (socket : Socket) (request : Request).

Section Server.

Context `{Builtins}.

Definition onConnect (socketId : Z) (c : Connect) : Result unit * (Z * Socket) :=
  match c with
  | ConnectV0 connectionParams socket request =>
      onConnect_v0 socketId connectionParams socket request
  | ConnectV1 connectionParams socket request =>
      onConnect_v1 socketId connectionParams socket request
  end.

(** The connect events of one server in the order they arrive, each on
    its own socket: [socketId] is the one counter of the closure. The
    result keeps what [onConnect] answered and the socket as it left it. *)
Fixpoint connections (socketId : Z) (cs : list Connect)
  : list (Result unit * Socket) :=
  match cs with
  | [] => []
  | c :: cs =>
      let '(r, (socketId, socket)) := onConnect socketId c in
      (r, socket) :: connections socketId cs
  end.

(** [let socketId = 0]. *)
Definition server_connections (cs : list Connect) : list (Result unit * Socket) :=
  connections 0 cs.

End Server.

End Connections.

Module Routing.

(** [a || b] on an optional string: [undefined] and the empty string are
    falsy. The options are read at their declared type,
    [string | undefined]. *)
Definition or_string (a : option string) (b : string) : string :=
  match a with
  | Some s => if String.eqb s "" then b else s
  | None => b
  end.

(** [(subscriptionServerOptions && subscriptionServerOptions.graphqlRoute) ||
     (options.externalUrlBase || '') + (options.graphqlRoute || '/graphql')];
    [serverRoute] is [None] also when [subscriptionServerOptions] is
    [undefined]. *)
Definition graphqlRoute
    (serverRoute externalUrlBase optionsRoute : option string) : string :=
  or_string serverRoute
    (or_string externalUrlBase "" +:+ or_string optionsRoute "/graphql").

(** The [upgrade] listener: [parsed] is [parseUrl(req)], [None] for
    [undefined], with the [pathname] of the parsed URL as a value.
    The answer is whether [wss.handleUpgrade] is called; otherwise the
    listener does nothing. *)
Definition upgrade (route : string) (parsed : option Value) : bool :=
  let pathname :=
    match parsed with
    | Some VUndefined | None => VString ""
    | Some pathname => pathname
    end in
  match pathname with
  | VString p => String.eqb p route
  | _ => false
  end.

End Routing.

Module SocketRequest.

(** What a call of [reqResFromSocket] waits for: the promise made for
    middleware [i] in [applyMiddleware], or the promise of
    [applyMiddleware] itself. *)
Inductive Waiting :=
  | AwaitMiddleware (i : nat)
  | AwaitApplied.

(** The reason of a rejection: an error [reqResFromSocket] throws, the
    value a middleware passed to [next], or what a middleware threw. *)
Inductive Reason :=
  | Thrown (e : Error)
  | Passed (err : Value)
  | Raised (reason : Value).

(** A call of [reqResFromSocket]: suspended, with the [dummyRes] it has
    made, or settled. Responses are known by the order they were made
    in. *)
Inductive CallState :=
  | Pending (dummyRes : nat) (waiting : Waiting)
  | Fulfilled (res : nat)
  | Rejected (reason : Reason).

(** The socket and what happened on it: [socket['__postgraphileReq']]
    (whether it is there, and whether it has a [res]),
    [socket['__postgraphileRes']], the [ServerResponse] objects made, the
    calls of [reqResFromSocket], and the calls of the middlewares as
    (call, index in [options.websocketMiddlewares]). *)
Record State := {
  has_req : bool;
  req_res : bool;
  postgraphileRes : option nat;
  responses : nat;
  calls : list CallState;
  invoked : list (nat * nat);
}.

Inductive Event :=
  | CallReqResFromSocket
  | Next (call i : nat) (err : Value)
  | Threw (call i : nat) (reason : Value)
  | Applied (call : nat).

Definition req_missing : Error := JsError "req could not be extracted".

Definition req_res_present : Error :=
  JsError "Please get in touch with Benjie; we weren't expecting req.res to be present but we want to reserve it for future usage.".

Definition set_call (call : nat) (c : CallState) (st : State) : State :=
  {| has_req := has_req st; req_res := req_res st;
     postgraphileRes := postgraphileRes st; responses := responses st;
     calls := <[call := c]> (calls st); invoked := invoked st |}.

Definition set_invoked (l : list (nat * nat)) (st : State) : State :=
  {| has_req := has_req st; req_res := req_res st;
     postgraphileRes := postgraphileRes st; responses := responses st;
     calls := calls st; invoked := l |}.

Definition set_postgraphileRes (res : nat) (st : State) : State :=
  {| has_req := has_req st; req_res := req_res st;
     postgraphileRes := Some res; responses := responses st;
     calls := calls st; invoked := invoked st |}.

Section Middlewares.

(** [options.websocketMiddlewares.length], [0] when the option is
    [undefined]. *)
Variable middlewares : nat.

(** [applyMiddleware] from middleware [i] on, for the call [call], up to
    its next [await]: the middleware is called, or the loop is over. *)
Definition applyMiddleware (call i : nat) (invoked : list (nat * nat))
  : Waiting * list (nat * nat) :=
  if (i <? middlewares)%nat then (AwaitMiddleware i, invoked ++ [(call, i)])
  else (AwaitApplied, invoked).

(** [reqResFromSocket(socket)] up to its first [await]. *)
Definition reqResFromSocket (st : State) : State :=
  let call := length (calls st) in
  let settle outcome :=
    {| has_req := has_req st; req_res := req_res st;
       postgraphileRes := postgraphileRes st; responses := responses st;
       calls := calls st ++ [outcome]; invoked := invoked st |} in
  if negb (has_req st) then settle (Rejected (Thrown req_missing))
  else if req_res st then settle (Rejected (Thrown req_res_present))
  else
    match postgraphileRes st with
    | Some dummyRes => settle (Fulfilled dummyRes)
    | None =>
        let dummyRes := responses st in
        let applied := applyMiddleware call 0 (invoked st) in
        {| has_req := has_req st; req_res := req_res st;
           postgraphileRes := None; responses := S (responses st);
           calls := calls st ++ [Pending dummyRes applied.1];
           invoked := applied.2 |}
    end.

(** One step: a call of [reqResFromSocket]; middleware [i] of a call
    calls [next(err)], or throws; a call goes on after
    [await applyMiddleware(...)]. A promise settles once: a [next] or a
    throw that comes again, or for a call that is not waiting for it,
    changes nothing. *)
Definition step (st : State) (e : Event) : State :=
  match e with
  | CallReqResFromSocket => reqResFromSocket st
  | Next call i err =>
      match calls st !! call with
      | Some (Pending dummyRes (AwaitMiddleware j)) =>
          if negb (i =? j)%nat then st
          else if truthy err then set_call call (Rejected (Passed err)) st
          else
            let applied := applyMiddleware call (S i) (invoked st) in
            set_call call (Pending dummyRes applied.1) (set_invoked applied.2 st)
      | _ => st
      end
  | Threw call i reason =>
      match calls st !! call with
      | Some (Pending dummyRes (AwaitMiddleware j)) =>
          if negb (i =? j)%nat then st
          else set_call call (Rejected (Raised reason)) st
      | _ => st
      end
  | Applied call =>
      match calls st !! call with
      | Some (Pending dummyRes AwaitApplied) =>
          set_call call (Fulfilled dummyRes) (set_postgraphileRes dummyRes st)
      | _ => st
      end
  end.

Definition run (st : State) (events : list Event) : State :=
  foldl step st events.

End Middlewares.

(** A socket after [onConnect]: the request is there, nothing else. *)
Definition connected : State :=
  {| has_req := true; req_res := false; postgraphileRes := None;
     responses := 0; calls := []; invoked := [] |}.

End SocketRequest.

(** ** The earlier entry point ([src/postgraphql/postgraphql.ts])

    [_postgraphql]: the arguments, the pool, and [createGqlSchema], which
    has no retry: a failure ends the process. In watch mode every change
    starts a new build, and [getGqlSchema] hands out the promise of the
    build started last. *)

Module Legacy.

Import PoolAdapter.

Definition Schema := nat.

Inductive Event :=
  | CallConnect (build : nat)
  | CallCreatePostGraphQLSchema (build : nat) (pgClient : Value)
  | CallClientRelease (build : nat)
  | CallWatchPgSchemas
  | ConsoleLogRestarting
  | ConsoleError (error : Error)
  | ProcessExit (code : Z).

(** The promise of one call of [createGqlSchema]: suspended at one of its
    two [await]s, resolved, or left pending by [process.exit]. *)
Inductive Build :=
  | AwaitConnect
  | AwaitSchema (pgClient : Value)
  | Resolved (s : Schema)
  | Abandoned.

(** The closure of [_postgraphql]: the promises made by
    [createGqlSchema] (the variable [gqlSchema] holds the last), whether
    [watchPgSchemas] was called, whether the process has exited, and the
    effects. *)
Record State := {
  builds : list Build;
  watching : bool;
  exited : bool;
  log : list Event;
}.

Definition emit (e : Event) (st : State) : State :=
  {| builds := builds st; watching := watching st; exited := exited st;
     log := log st ++ [e] |}.

Definition set_build (build : nat) (b : Build) (st : State) : State :=
  {| builds := <[build := b]> (builds st); watching := watching st;
     exited := exited st; log := log st |}.

(** The [catch] block of [createGqlSchema]. *)
Definition catch_error (build : nat) (error : Error) (st : State) : State :=
  let st := emit (ProcessExit 1) (emit (ConsoleError error) st) in
  {| builds := <[build := Abandoned]> (builds st); watching := watching st;
     exited := true; log := log st |}.

(** [createGqlSchema()] up to its first [await]. *)
Definition createGqlSchema (st : State) : State :=
  let build := length (builds st) in
  let st := emit (CallConnect build) st in
  {| builds := builds st ++ [AwaitConnect]; watching := watching st;
     exited := exited st; log := log st |}.

(** [getGqlSchema: () => gqlSchema]: the promise of the build started
    last. *)
Definition getGqlSchema (st : State) : nat := pred (length (builds st)).

Definition release_not_a_function : Error :=
  TypeError "pgClient.release is not a function".

Inductive Input :=
  | ConnectSettled (build : nat) (r : Result Value)
  | SchemaSettled (build : nat) (r : Result Schema)
  | Change
  | WatchRejected (error : Error).

(** One step: an awaited call of a build settles, the watcher reports a
    change, or the promise of [watchPgSchemas] is rejected. After
    [process.exit] nothing runs. *)
Definition step (st : State) (i : Input) : option State :=
  if exited st then None
  else
    match i with
    | ConnectSettled build r =>
        match builds st !! build, r with
        | Some AwaitConnect, Return pgClient =>
            Some (set_build build (AwaitSchema pgClient)
                    (emit (CallCreatePostGraphQLSchema build pgClient) st))
        | Some AwaitConnect, Throw error => Some (catch_error build error st)
        | _, _ => None
        end
    | SchemaSettled build r =>
        match builds st !! build, r with
        | Some (AwaitSchema pgClient), Return newGqlSchema =>
            if truthy pgClient && truthy (get_prop pgClient "release") then
              if is_function (get_prop pgClient "release") then
                Some (set_build build (Resolved newGqlSchema)
                        (emit (CallClientRelease build) st))
              else Some (catch_error build release_not_a_function st)
            else Some (set_build build (Resolved newGqlSchema) st)
        | Some (AwaitSchema _), Throw error => Some (catch_error build error st)
        | _, _ => None
        end
    | Change =>
        if watching st then Some (createGqlSchema (emit ConsoleLogRestarting st))
        else None
    | WatchRejected error =>
        if watching st then
          Some {| builds := builds st; watching := false; exited := true;
                  log := log st ++ [ConsoleError error; ProcessExit 1] |}
        else None
    end.

Fixpoint run (st : State) (inputs : list Input) : option State :=
  match inputs with
  | [] => Some st
  | i :: inputs =>
      match step st i with
      | Some st => run st inputs
      | None => None
      end
  end.

Section Entry.

(** [parse] of [pg-connection-string], and the constructor of the
    library's [Pool] by whether [new Pool(config)] returns: either can
    throw on what it is given. *)
Variable parsePgConnectionString : string → Result Value.
Variable new_Pool : Value → Result unit.

(** The schema and the options [_postgraphql] reads off its second and
    third argument. *)
Definition schema_and_options (schemaOrOptions maybeOptions : Value) : Value * Value :=
  if bool_decide (typeof schemaOrOptions = TyUndefined) then
    (VString "public", literal [])
  else if is_string schemaOrOptions || isArray schemaOrOptions then
    (schemaOrOptions, or_else maybeOptions (literal []))
  else (VString "public", schemaOrOptions).

(** The pool: the argument itself when it is an instance of [Pool], a
    new pool otherwise, made from the parsed string or from the argument
    (from [{}] when it is falsy). *)
Definition pgPool_of (poolOrConfig : Value) : Result PgPool :=
  if instanceof_Pool poolOrConfig then Return (Supplied poolOrConfig)
  else
    let config :=
      match poolOrConfig with
      | VString s => parsePgConnectionString s
      | _ => Return (or_else poolOrConfig (literal []))
      end in
    match config with
    | Throw e => Throw e
    | Return config =>
        match new_Pool config with
        | Throw e => Throw e
        | Return _ => Return (NewPool config)
        end
    end.

Record Started := {
  started_schema : Value;
  started_options : Value;
  started_pgPool : PgPool;
  started_state : State;
}.

Definition options_null : Error :=
  TypeError "Cannot read properties of null (reading 'watchPg')".

(** [_postgraphql]: the pool is made first; the first build is started
    before [options.watchPg] is read; what has happened by then is
    returned with the error. *)
Definition _postgraphql (poolOrConfig schemaOrOptions maybeOptions : Value)
  : Result Started * list Event :=
  let '(schema, options) := schema_and_options schemaOrOptions maybeOptions in
  match pgPool_of poolOrConfig with
  | Throw e => (Throw e, [])
  | Return pgPool =>
      let st := createGqlSchema
                  {| builds := []; watching := false; exited := false;
                     log := [] |} in
      if loosely_null options then (Throw options_null, log st)
      else
        let st :=
          if truthy (get_prop options "watchPg") then
            {| builds := builds st; watching := true; exited := exited st;
               log := log st ++ [CallWatchPgSchemas] |}
          else st in
        (Return {| started_schema := schema; started_options := options;
                   started_pgPool := pgPool; started_state := st |},
         log st)
  end.

End Entry.

End Legacy.

(** * The vocabulary of the properties *)

Import PoolAdapter SchemaBuilder Postgraphile Subscriptions.

Section Vocabulary.

Implicit Types (cfg : Config) (b : Builder) (st : Keepalive).

(** ** Values and collaborators of the examples *)

(** A duck-typed handle: an object of another copy of the library. *)
Definition duck_pool : Value :=
  VObject {| obj_instanceof_Pool := false;
             obj_isArray := false;
             obj_constructor := VFunction {| fn_id := 40; fn_name := "BoundPool" |};
             obj_proto := ProtoOther;
             obj_String := "[object Object]";
             obj_props :=
               [("Client", VFunction {| fn_id := 41; fn_name := "Client" |});
                ("options", literal [("max", VNumber 10)]);
                ("connect", VFunction {| fn_id := 42; fn_name := "connect" |});
                ("end", VFunction {| fn_id := 43; fn_name := "end" |});
                ("query", VFunction {| fn_id := 44; fn_name := "query" |});
                ("on", VFunction {| fn_id := 45; fn_name := "on" |})] |}.

(** The collaborators of a server without plugins. *)
Definition plain_env : Env :=
  {| Pool_super_ := VUndefined;
     options_hook := λ incomingOptions _ _, incomingOptions;
     supplied_pool := λ _, {| ended := false; on_second_end := Return tt |};
     second_end := Throw (JsError "Called end on pool more than once") |}.

Definition closed_socket : Socket :=
  {| postgraphileId := VUndefined;
     postgraphileReq := None;
     postgraphileHeaders := None |}.

Definition upgrade_request (h : Headers) : Request :=
  {| headers := h; connectionParams := None; normalizedConnectionParams := None |}.

Definition socket_1 : Socket :=
  {| postgraphileId := VNumber 1;
     postgraphileReq := None;
     postgraphileHeaders := None |}.





(** ** The entry point *)

(** The options the builder goes on with: not [undefined] or [null], and
    [handleErrors] not combined with the other error options. *)
Definition options_accepted (options : Value) : bool :=
  negb (loosely_null options)
  && negb (truthy (get_prop options "handleErrors")
           && (truthy (get_prop options "extendedErrors")
               || truthy (get_prop options "showErrorStack"))).

(** ** The context slots *)

(** The string has no bar. *)
Fixpoint no_bar (s : string) : bool :=
  match s with
  | EmptyString => true
  | String c s' => negb (Ascii.eqb c "|") && no_bar s'
  end.

(** Every deferred that has not been resolved is the entry of the key it
    was made for. *)
Definition slots_consistent st : Prop :=
  ∀ promise d,
    deferreds st !! promise = Some d → resolved d = false →
    keepalivePromisesByContextKey st !! slot d = Some (Some promise).

(** ** Validation *)


(** ** Releasing *)

(** The function [watchPostGraphileSchema] gave, if any, resolves. *)
Definition watch_release_resolves b : Prop :=
  ∀ f, releaseWatchFn b = Some f → release_outcome f = Return tt.

(** The handler owns a pool that has not ended. *)
Definition owned_pool_live cfg b : Prop :=
  is_Some (releasePgPool cfg) → ended (pool b) = false.

(** ** Builds that fail and succeed *)

(** The awaited build of the mode. *)
Definition awaiting_build cfg : Phase :=
  if watchPg cfg then AwaitWatch else AwaitCreate.

(** The builder is suspended in a build and no watch is set up. *)
Definition building cfg b : Prop :=
  phase b = awaiting_build cfg ∧ releaseWatchFn b = None.

(** How a build fails, and how it succeeds, in the mode of [cfg]: in
    watch mode the callback delivers the snapshot before the call
    resolves. *)
Definition build_fails cfg (e : Error) : Input :=
  if watchPg cfg then WatchSettled (Throw e) else CreateSettled (Throw e).

Definition build_succeeds cfg (s : Schema) (fn : ReleaseFn) : list Input :=
  if watchPg cfg then [WatchCallback s; WatchSettled (Return fn)]
  else [CreateSettled (Return s)].

(** A failed attempt and what follows it up to the next attempt: the
    sleep when [retryOnInitFail] is not a function; the hook's answer
    [(retry, diff)], and the sleep if the hook was faster than 50ms, when
    it is. *)
Definition failed_attempt cfg (failure : Error * (Value * (Z * Z))) : list Input :=
  let '(e, (retry, diff)) := failure in
  match retryOnInitFail cfg with
  | RetryHook =>
      build_fails cfg e :: RetryOnInitFailSettled (Return retry) diff
      :: (if dur_lt_50 diff then [SleepElapsed] else [])
  | _ => [build_fails cfg e; SleepElapsed]
  end.

(** The waits and the hook calls to expect from attempt [k] on. *)
Fixpoint expected_sleeps cfg (k : Z) (failures : list (Error * (Value * (Z * Z))))
  : list Z :=
  match failures with
  | [] => []
  | (_, (_, diff)) :: rest =>
      match retryOnInitFail cfg with
      | RetryHook => if dur_lt_50 diff then [delay k] else []
      | _ => [delay k]
      end ++ expected_sleeps cfg (k + 1) rest
  end.

Fixpoint expected_hook_calls cfg (k : Z) (failures : list (Error * (Value * (Z * Z))))
  : list (Error * Z) :=
  match failures with
  | [] => []
  | (e, _) :: rest =>
      match retryOnInitFail cfg with
      | RetryHook => [(e, k)]
      | _ => []
      end ++ expected_hook_calls cfg (k + 1) rest
  end.

(** The delays [min(100 * k^2, 30000)] for [k = from + 1 .. from + n]. *)
Fixpoint delays (from : Z) (n : nat) : list Z :=
  match n with
  | O => []
  | S n' => delay (from + 1) :: delays (from + 1) n'
  end.

(** The hook approves the retry, after a second. *)
Definition approve : Input :=
  RetryOnInitFailSettled (Return (VBool true)) (1, 0)%Z.

Definition watch_with_hook : Config :=
  {| watchPg := true; retryOnInitFail := RetryHook; releasePgPool := None |}.

(** ** The build in flight *)

(** [1] while [createGqlSchema] awaits a build call, [0] otherwise. *)
Definition outstanding b : nat :=
  match phase b with
  | AwaitCreate | AwaitWatch => 1
  | _ => 0
  end.

(** The build calls that have settled. *)
Fixpoint settled_builds (inputs : list Input) : nat :=
  match inputs with
  | [] => 0
  | i :: inputs' =>
      match i with
      | CreateSettled _ | WatchSettled _ => 1
      | _ => 0
      end + settled_builds inputs'
  end.

(** Without watch mode the snapshot is set exactly when the promise is
    resolved, with the same snapshot; in watch mode a resolved promise
    implies a snapshot. *)
Definition snapshot_inv cfg b : Prop :=
  match phase b with
  | Resolved s =>
      ∃ current, gqlSchema b = Some current ∧ (watchPg cfg = false → current = s)
  | _ => watchPg cfg = false → gqlSchema b = None
  end.

End Vocabulary.

(** * Further vocabulary *)

Import Connections Routing.

Section BuilderVocabulary.

Implicit Types (cfg : Config) (b : Builder).

(** How often the log has [pgPool.end()] and calls of the watch's release
    function. *)
Definition pool_ends (l : list Event) : nat :=
  length (omap (λ e, match e with CallPoolEnd => Some e | _ => None end) l).

Definition watch_releases (l : list Event) : nat :=
  length (omap (λ e, match e with CallReleaseWatchFn _ => Some e | _ => None end) l).

Definition schemas_changed (l : list Event) : nat :=
  length (omap (λ e, match e with EmitSchemasChanged => Some e | _ => None end) l).

(** [lo < k1 < k2 < ... < kn <= hi]. *)
Fixpoint ascending (lo hi : Z) (ks : list Z) : Prop :=
  match ks with
  | [] => (lo ≤ hi)%Z
  | k :: ks' => (lo < k)%Z ∧ ascending k hi ks'
  end.

(** The attempts whose wait can have happened: all but the current one
    while the hook is being asked. *)
Definition slept_bound b : Z :=
  match phase b with
  | AwaitRetryOnInitFail _ _ => (attempts b - 1)%Z
  | _ => attempts b
  end.

(** What holds of the attempt counter, the waits and the hook calls
    whenever [createGqlSchema] is suspended or settled. *)
Definition attempts_inv cfg b : Prop :=
  (0 ≤ attempts b)%Z
  ∧ (∀ e d, phase b = AwaitRetryOnInitFail e d →
            d = delay (attempts b) ∧ retryOnInitFail cfg = RetryHook
            ∧ (1 ≤ attempts b)%Z)
  ∧ (∃ ks, sleeps (log b) = map delay ks ∧ ascending 0 (slept_bound b) ks)
  ∧ (retryOnInitFail cfg = RetryHook →
     map snd (hook_calls (log b))
     = map Z.of_nat (seq 1 (Z.to_nat (attempts b))))
  ∧ (retryOnInitFail cfg ≠ RetryHook → hook_calls (log b) = [])
  ∧ (retryOnInitFail cfg = RetryTruthy →
     sleeps (log b) = delays 0 (Z.to_nat (attempts b)))
  ∧ (retryOnInitFail cfg = RetryFalsy → sleeps (log b) = []).

(** Releasing happens once, on a veto, and ends only a pool the builder
    owns. [p] is the pool the builder started with. *)
Definition release_inv cfg (p : Pool) b : Prop :=
  (released b = false →
   pool b = p ∧ pool_ends (log b) = 0%nat ∧ watch_releases (log b) = 0%nat)
  ∧ (released b = true → ∃ e, phase b = SchemaBuilder.Rejected e)
  ∧ (pool_ends (log b) ≤ 1)%nat
  ∧ (watch_releases (log b) ≤ 1)%nat
  ∧ (releasePgPool cfg = None → pool b = p ∧ pool_ends (log b) = 0%nat).


(** What releasing touches. *)
Definition resources b : bool * Pool * nat * nat :=
  (released b, pool b, pool_ends (log b), watch_releases (log b)).

Definition process_exits (l : list Event) : list Z :=
  omap (λ e, match e with ProcessExit code => Some code | _ => None end) l.

(** The promise of [createGqlSchema] is settled, or the process is gone. *)
Definition settled b : Prop := in_flight b = false.

(** Without a retry policy: the one build call is awaited or has
    resolved, or its failure has ended the process. *)
Definition fail_fast_inv b : Prop :=
  length (build_calls (log b)) = 1%nat
  ∧ ((attempts b = 0%Z ∧ process_exits (log b) = []
      ∧ (phase b = AwaitCreate ∨ phase b = AwaitWatch ∨ ∃ s, phase b = Resolved s))
     ∨ (attempts b = 1%Z ∧ process_exits (log b) = [34%Z]
        ∧ phase b = Exited 34)).



(** How the promise of [createGqlSchema] can end, by the retry policy:
    a rejection comes from the hook and carries the 503 error, an exit is
    [process.exit(34)] without a policy, and the process exits at most
    then. *)
Definition end_inv cfg b : Prop :=
  (∀ e, phase b = SchemaBuilder.Rejected e →
        retryOnInitFail cfg = RetryHook ∧ ∃ e0, e = wrap e0)
  ∧ (∀ code, phase b = Exited code →
             retryOnInitFail cfg = RetryFalsy ∧ code = 34%Z)
  ∧ (∀ error d, phase b = AwaitRetryOnInitFail error d →
                retryOnInitFail cfg = RetryHook)
  ∧ ((process_exits (log b) = [] ∧ ∀ code, phase b ≠ Exited code)
     ∨ (process_exits (log b) = [34%Z] ∧ phase b = Exited 34)).

End BuilderVocabulary.


Section SlotVocabulary.

Implicit Types (st : Keepalive).

(** Every entry of the map is a deferred made for its key. *)
Definition entries_point_home st : Prop :=
  ∀ k promise,
    keepalivePromisesByContextKey st !! k = Some (Some promise) →
    ∃ d, deferreds st !! promise = Some d ∧ slot d = k.

(** From [st] to [st']: no key has left the map, and every deferred is
    still there with its context, resolved if it was. *)
Definition grows st st' : Prop :=
  (∀ k, is_Some (keepalivePromisesByContextKey st !! k) →
        is_Some (keepalivePromisesByContextKey st' !! k))
  ∧ (length (deferreds st) ≤ length (deferreds st'))%nat
  ∧ (∀ promise d,
       deferreds st !! promise = Some d →
       ∃ d', deferreds st' !! promise = Some d'
             ∧ context d' = context d ∧ slot d' = slot d
             ∧ (resolved d = true → resolved d' = true)).

End SlotVocabulary.

Section ServerVocabulary.

(** The server with one more [upgrade] listener. *)
Definition with_listener (server : HttpServer) : HttpServer :=
  {| postgraphileSubscriptionsEnabled := postgraphileSubscriptionsEnabled server;
     upgradeListeners := S (upgradeListeners server);
     subscriptionServers := subscriptionServers server |}.

(** The server with one more subscription server. *)
Definition with_server (protocol : Protocol) (server : HttpServer) : HttpServer :=
  {| postgraphileSubscriptionsEnabled := postgraphileSubscriptionsEnabled server;
     upgradeListeners := upgradeListeners server;
     subscriptionServers := subscriptionServers server ++ [protocol] |}.

End ServerVocabulary.

Section RequestVocabulary.

Import SocketRequest.

Variable middlewares : nat.

(** The middlewares called for [call], in the order of the calls. *)
Definition invoked_by (call : nat) (l : list (nat * nat)) : list nat :=
  omap (λ ci, if (ci.1 =? call)%nat then Some ci.2 else None) l.

(** The response [res] was made by a call of [reqResFromSocket] that was
    fulfilled with it after every middleware had been called on it, each
    once and in the order of the option. *)
Definition vetted (st : State) (res : nat) : Prop :=
  ∃ call, calls st !! call = Some (Fulfilled res)
          ∧ invoked_by call (invoked st) = seq 0 middlewares.

Definition request_inv (st : State) : Prop :=
  (∀ call res i,
     calls st !! call = Some (Pending res (AwaitMiddleware i)) →
     (i < middlewares)%nat ∧ invoked_by call (invoked st) = seq 0 (S i))
  ∧ (∀ call res,
       calls st !! call = Some (Pending res AwaitApplied) →
       invoked_by call (invoked st) = seq 0 middlewares)
  ∧ (∀ call res,
       calls st !! call = Some (Fulfilled res) →
       vetted st res
       ∧ (invoked_by call (invoked st) = seq 0 middlewares
          ∨ invoked_by call (invoked st) = []))
  ∧ (∀ res, postgraphileRes st = Some res → vetted st res)
  ∧ (∀ call err,
       calls st !! call = Some (Rejected (Passed err)) →
       truthy err = true
       ∧ ∃ i, (i < middlewares)%nat ∧ invoked_by call (invoked st) = seq 0 (S i))
  ∧ (∀ call reason,
       calls st !! call = Some (Rejected (Raised reason)) →
       ∃ i, (i < middlewares)%nat ∧ invoked_by call (invoked st) = seq 0 (S i))
  ∧ (∀ call e,
       calls st !! call = Some (Rejected (Thrown e)) →
       invoked_by call (invoked st) = [])
  ∧ (∀ call, (length (calls st) ≤ call)%nat → invoked_by call (invoked st) = []).

(** The state of a call that has just made its response. *)
Definition started (call : nat) : CallState :=
  Pending call (if (0 <? middlewares)%nat then AwaitMiddleware 0 else AwaitApplied).

End RequestVocabulary.

Section LegacyVocabulary.

Import Legacy.

Definition connects (l : list Event) : list nat :=
  omap (λ e, match e with CallConnect build => Some build | _ => None end) l.

Definition client_releases (l : list Event) : list nat :=
  omap (λ e, match e with CallClientRelease build => Some build | _ => None end) l.

Definition exits (l : list Event) : list Z :=
  omap (λ e, match e with ProcessExit code => Some code | _ => None end) l.

Definition errors_logged (l : list Event) : nat :=
  length (omap (λ e, match e with ConsoleError _ => Some e | _ => None end) l).

Definition restarts (l : list Event) : nat :=
  length (omap (λ e, match e with ConsoleLogRestarting => Some e | _ => None end) l).

(** [watch] is whether [_postgraphql] called [watchPgSchemas]. *)
Definition legacy_inv (watch : bool) (st : State) : Prop :=
  connects (log st) = seq 0 (length (builds st))
  ∧ length (builds st) = S (restarts (log st))
  ∧ exits (log st) = (if exited st then [1%Z] else [])
  ∧ errors_logged (log st) = length (exits (log st))
  ∧ NoDup (client_releases (log st))
  ∧ (∀ build, build ∈ client_releases (log st) →
              ∃ s, builds st !! build = Some (Resolved s))
  ∧ (watch = false → watching st = false ∧ restarts (log st) = 0%nat).

End LegacyVocabulary.
(** * Properties *)

(** ** The pool adapter *)

Section PoolAdapterFacts.

Variable Pool_super_ : Value.

Lemma instanceof_quacks (v : Value) :
  instanceof_Pool v = true → quacksLikePgPool Pool_super_ v = true.
Proof. intros H. unfold quacksLikePgPool. by rewrite H. Qed.



(** The only values that quack without being an instance or having the
    inherited constructor are the structural ones. *)
Lemma quacks_inv (v : Value) :
  quacksLikePgPool Pool_super_ v = true →
  instanceof_Pool v = true ∨ hasPoolConstructor Pool_super_ v = true
  ∨ structural_pool v.
Proof.
  unfold quacksLikePgPool.
  destruct (instanceof_Pool v); [by left |].
  destruct (hasPoolConstructor Pool_super_ v); [by right; left |].
  intros H. right; right.
  destruct (truthy v) eqn:Hv; [| done]. simpl in H.
  destruct (bool_decide (typeof v = TyObject)) eqn:Hty; [| done].
  apply bool_decide_eq_true in Hty. simpl in H.
  destruct (truthy (get_prop v "Client")) eqn:HC;
    [| by destruct (_ && _) in H].
  destruct (truthy (get_prop v "options")) eqn:HO;
    [| by destruct (_ && _) in H].
  destruct (is_function (get_prop v "connect")) eqn:H1;
    [| by destruct (_ && _) in H].
  destruct (is_function (get_prop v "end")) eqn:H2;
    [| by destruct (_ && _) in H].
  destruct (is_function (get_prop v "query")) eqn:H3;
    [| by destruct (_ && _) in H].
  repeat split; try done.
  unfold constructorName in H. rewrite Hv in H.
  destruct (constructor_of v) as [| | | | | | f |] eqn:Hc; try done.
  exists f. split; [done |].
  destruct (truthy (VString (fn_name f))); [| done]. simpl in H.
  destruct (decide (fn_name f = "Pool")) as [-> | Hne1]; [by left |].
  destruct (decide (fn_name f = "BoundPool")) as [-> | Hne2]; [by right |].
  rewrite !bool_decide_eq_false_2 in H by congruence. done.
Qed.

End PoolAdapterFacts.






(** ** The entry point *)

Lemma try_build_pool (cfg : Config) (b : Builder) :
  pool (try_build cfg b) = pool b.
Proof.
  unfold try_build, catch_error.
  destruct (watchPg cfg), (releaseWatchFn b), (retryOnInitFail cfg); reflexivity.
Qed.

Lemma getPostgraphileSchemaBuilder_accepted
    (env : Env) (p : PgPool) (schema incoming : Value) (rel : option Callback) :
  get_prop incoming "live" = VUndefined →
  options_accepted (options_hook env incoming p schema) = true →
  ∃ cfg b,
    getPostgraphileSchemaBuilder env p schema incoming rel
    = Return (options_hook env incoming p schema, cfg, b)
    ∧ releasePgPool cfg = rel
    ∧ pool b = pool_of env p.
Proof.
  intros Hlive Hacc. unfold getPostgraphileSchemaBuilder. rewrite Hlive. simpl.
  unfold options_accepted in Hacc.
  apply andb_true_iff in Hacc as [Hnull Hconf].
  apply negb_true_iff in Hnull, Hconf. rewrite Hnull, Hconf.
  eexists _, _. split; [reflexivity |]. split; [reflexivity |].
  unfold new_builder. by rewrite try_build_pool.
Qed.

(** C10. With [undefined] as the first of at least one argument,
    [postgraphile] throws (and with [undefined] alone, the error about the
    first argument); with no argument it returns a handler whose pool is
    [new Pool({})], released by the handler, provided the
    [postgraphile:options] hook hands back options the builder accepts. *)
Theorem postgraphile_undefined_first_argument (env : Env) :
  (∀ rest, ∃ e, postgraphile env (VUndefined :: rest) = Throw e)
  ∧ postgraphile env [VUndefined]
    = Throw (JsError "The first argument to postgraphile was `undefined`... did you mean to set pool options?")
  ∧ (options_accepted
       (options_hook env (literal []) (NewPool (literal [])) (VString "public"))
     = true →
     ∃ h, postgraphile env [] = Return h
          ∧ pgPool h = NewPool (literal [])
          ∧ releasePgPool (config h) = Some (EndPool (NewPool (literal [])))
          ∧ ended (pool (builder h)) = false).
Proof.
  split_and!.
  - intros rest. unfold postgraphile.
    replace ((VUndefined :: rest) !! 0%nat) with (Some VUndefined) by done.
    cbn [default].
    match goal with
    | |- context [match ?parsed with Return _ => _ | Throw _ => _ end] =>
        destruct parsed as [[schema incoming] | e]
    end; [| by eauto].
    replace (bool_decide (typeof VUndefined = TyUndefined)
             && (1 <=? length (VUndefined :: rest))%nat) with true by done.
    eauto.
  - reflexivity.
  - intros Hacc. unfold postgraphile. cbn -[getPostgraphileSchemaBuilder].
    rewrite (bool_decide_eq_false_2 (TyUndefined = TyObject)) by done.
    cbn -[getPostgraphileSchemaBuilder]. rewrite andb_false_r.
    destruct (getPostgraphileSchemaBuilder_accepted env (NewPool (literal []))
                (VString "public") (literal [])
                (Some (EndPool (NewPool (literal [])))) eq_refl Hacc)
      as (cfg & b & -> & Hrel & Hpool).
    eexists. split; [reflexivity |]. cbn. rewrite Hpool. done.
Qed.

Lemma postgraphile_undefined_first_argument_witness :
  ∃ h, postgraphile plain_env [] = Return h
       ∧ pgPool h = NewPool (literal [])
       ∧ releasePgPool (config h) = Some (EndPool (NewPool (literal [])))
       ∧ ended (pool (builder h)) = false.
Proof.
  apply (postgraphile_undefined_first_argument plain_env). reflexivity.
Defined.

(** ** Connection parameters and headers *)

Section ConnectFacts.

Context `{Builtins}.

Implicit Types (h : Headers) (normalized : Dict).

Lemma copy_authorization_skips normalized h :
  negb (truthy (authorization h)) && truthy (read_dict normalized "authorization")
  = false →
  copy_authorization normalized h = Return h.
Proof. intros Hc. unfold copy_authorization. by rewrite Hc. Qed.

Lemma copy_authorization_copies normalized h (s : string) :
  negb (truthy (authorization h)) && truthy (read_dict normalized "authorization")
  = true →
  ToString (read_dict normalized "authorization") = Return s →
  copy_authorization normalized h = Return (<["authorization" := VString s]> h).
Proof. intros Hc Hs. unfold copy_authorization. by rewrite Hc, Hs. Qed.

Lemma copy_authorization_throws normalized h (e : Error) :
  negb (truthy (authorization h)) && truthy (read_dict normalized "authorization")
  = true →
  ToString (read_dict normalized "authorization") = Throw e →
  copy_authorization normalized h = Throw e.
Proof. intros Hc He. unfold copy_authorization. by rewrite Hc, He. Qed.




Lemma lowerCaseKeys_snoc (obj : list (string * Value)) (k : string) (v : Value) :
  lowerCaseKeys (obj ++ [(k, v)]) = assign (lowerCaseKeys obj) (toLowerCase k) v.
Proof. unfold lowerCaseKeys. by rewrite foldl_app. Qed.

(** An assignment writes at most its own key. *)
Lemma assign_own (memo : Dict) (key : string) (value : Value) :
  own (assign memo key value) = own memo
  ∨ own (assign memo key value) = <[key := value]> (own memo).
Proof.
  unfold assign.
  destruct (String.eqb key "__proto__" && inherits_accessor memo); [| by right].
  left. by destruct value.
Qed.

Lemma assign_own_other (memo : Dict) (key k' : string) (value : Value) :
  k' ≠ key → own (assign memo key value) !! k' = own memo !! k'.
Proof.
  intros Hne. destruct (assign_own memo key value) as [-> | ->]; [done |].
  by rewrite lookup_insert_ne.
Qed.

(** Every own key of the result is the lower-cased name of a property of
    the input, with that property's value. *)
Lemma lowerCaseKeys_own (obj : list (string * Value)) (k : string) (v : Value) :
  own (lowerCaseKeys obj) !! k = Some v →
  ∃ k', (k', v) ∈ obj ∧ toLowerCase k' = k.
Proof.
  revert k v. induction obj as [| [k0 v0] obj IH] using rev_ind; intros k v Hk.
  - unfold lowerCaseKeys in Hk. simpl in Hk. by rewrite lookup_empty in Hk.
  - rewrite lowerCaseKeys_snoc in Hk.
    destruct (decide (k = toLowerCase k0)) as [-> | Hne].
    + destruct (assign_own (lowerCaseKeys obj) (toLowerCase k0) v0) as [Ho | Ho];
        rewrite Ho in Hk.
      * destruct (IH _ _ Hk) as (k' & Hin & Hk').
        exists k'. split; [| done]. apply elem_of_app. by left.
      * rewrite lookup_insert_eq in Hk. simplify_eq.
        exists k0. split; [| done].
        apply elem_of_app. right. by apply list_elem_of_singleton.
    + rewrite assign_own_other in Hk by done.
      destruct (IH _ _ Hk) as (k' & Hin & Hk').
      exists k'. split; [| done]. apply elem_of_app. by left.
Qed.

(** What a connect event does, for both protocol versions, by the
    outcome of the copy. *)
Lemma onConnect_v0_returns socketId params socket request h' :
  copy_authorization (lowerCaseKeys params) (headers request) = Return h' →
  onConnect_v0 socketId (Some params) socket (Some request)
  = (Return tt,
     ((socketId + 1)%Z,
      {| postgraphileId := VNumber (socketId + 1);
         postgraphileReq :=
           Some {| headers := h';
                   connectionParams := Some params;
                   normalizedConnectionParams := Some (lowerCaseKeys params) |};
         postgraphileHeaders := Some (spread (lowerCaseKeys params) h') |})).
Proof. intros Hcopy. unfold onConnect_v0. by rewrite Hcopy. Qed.

Lemma onConnect_v0_throws socketId params socket request e :
  copy_authorization (lowerCaseKeys params) (headers request) = Throw e →
  onConnect_v0 socketId (Some params) socket (Some request)
  = (Throw e,
     ((socketId + 1)%Z,
      {| postgraphileId := VNumber (socketId + 1);
         postgraphileReq :=
           Some {| headers := headers request;
                   connectionParams := Some params;
                   normalizedConnectionParams := Some (lowerCaseKeys params) |};
         postgraphileHeaders := postgraphileHeaders socket |})).
Proof. intros Hcopy. unfold onConnect_v0. by rewrite Hcopy. Qed.

Lemma onConnect_v1_returns socketId params socket request h' :
  copy_authorization (lowerCaseKeys (default [] params)) (headers request)
  = Return h' →
  onConnect_v1 socketId params socket request
  = (Return tt,
     ((socketId + 1)%Z,
      {| postgraphileId := VNumber (socketId + 1);
         postgraphileReq :=
           Some {| headers := h';
                   connectionParams := Some (default [] params);
                   normalizedConnectionParams :=
                     Some (lowerCaseKeys (default [] params)) |};
         postgraphileHeaders :=
           Some (spread (lowerCaseKeys (default [] params)) h') |})).
Proof. intros Hcopy. unfold onConnect_v1. by rewrite Hcopy. Qed.

Lemma onConnect_v1_throws socketId params socket request e :
  copy_authorization (lowerCaseKeys (default [] params)) (headers request)
  = Throw e →
  onConnect_v1 socketId params socket request
  = (Throw e,
     ((socketId + 1)%Z,
      {| postgraphileId := VNumber (socketId + 1);
         postgraphileReq :=
           Some {| headers := headers request;
                   connectionParams := Some (default [] params);
                   normalizedConnectionParams :=
                     Some (lowerCaseKeys (default [] params)) |};
         postgraphileHeaders := postgraphileHeaders socket |})).
Proof. intros Hcopy. unfold onConnect_v1. by rewrite Hcopy. Qed.

End ConnectFacts.

(** Two names that differ in case only: the later one stays. A
    parameter named [__proto__] sets the prototype and gives no own
    property, and the read of [authorization] goes through it; a second
    one, when the first was an object of [JSON.parse] that has
    [__proto__] as its own property, is an own property of the result. *)
Example lowerCaseKeys_values :
  let _ := ascii_builtins in
  own (lowerCaseKeys [("Authorization", VString "A"); ("authorization", VString "B")])
  = {["authorization" := VString "B"]}
  ∧ own (lowerCaseKeys [("__proto__", literal [("authorization", VString "X")])]) = ∅
  ∧ read_dict (lowerCaseKeys [("__proto__", literal [("authorization", VString "X")])])
      "authorization"
    = VString "X"
  ∧ own (lowerCaseKeys [("__proto__", literal [("__proto__", VNumber 1)]);
                        ("__PROTO__", VString "B")])
    = {["__proto__" := VString "B"]}.
Proof. split_and!; reflexivity. Qed.




(** ** The deferred context slots *)

Section KeyFacts.

Lemma pretty_N_char_no_bar (x : N) :
  Ascii.eqb (pretty_N_char x) "|" = false.
Proof. unfold pretty_N_char. by repeat case_match. Qed.

Lemma pretty_N_go_no_bar (x : N) (s : string) :
  no_bar s = true → no_bar (pretty_N_go x s) = true.
Proof.
  revert s. induction (N.lt_wf_0 x) as [x _ IH]; intros s Hs.
  assert (x = 0 ∨ 0 < x)%N as [-> | Hx] by lia.
  - by rewrite pretty_N_go_0.
  - rewrite pretty_N_go_step by done. apply IH.
    + by apply N.div_lt.
    + simpl. by rewrite pretty_N_char_no_bar, Hs.
Qed.

Lemma pretty_N_no_bar (x : N) : no_bar (pretty x) = true.
Proof.
  unfold pretty, pretty_N. case_decide; [done |].
  by apply pretty_N_go_no_bar.
Qed.

Lemma pretty_Z_no_bar (n : Z) : no_bar (pretty n) = true.
Proof.
  destruct n as [| p | p]; [done | apply pretty_N_no_bar |].
  unfold pretty, pretty_Z. simpl. apply pretty_N_no_bar.
Qed.

(** Two strings split at their first bar the same way. *)
Lemma split_at_bar (s1 s2 t1 t2 : string) :
  no_bar s1 = true → no_bar s2 = true →
  s1 +:+ "|" +:+ t1 = s2 +:+ "|" +:+ t2 → s1 = s2 ∧ t1 = t2.
Proof.
  revert s2. induction s1 as [| c1 s1 IH]; intros [| c2 s2] H1 H2 Heq;
    simpl in *.
  - by simplify_eq.
  - by simplify_eq.
  - by simplify_eq.
  - apply andb_true_iff in H1 as [_ H1]. apply andb_true_iff in H2 as [_ H2].
    injection Heq as -> Heq. by destruct (IH s2 H1 H2 Heq) as [-> ->].
Qed.

(** The keys of two sockets that were given their numbers tell the
    sockets and the operations apart. *)
Lemma contextKey_inj (ws1 ws2 : Socket) (n1 n2 : Z) (opId1 opId2 : string) :
  postgraphileId ws1 = VNumber n1 → postgraphileId ws2 = VNumber n2 →
  contextKey ws1 opId1 = contextKey ws2 opId2 →
  n1 = n2 ∧ opId1 = opId2.
Proof.
  unfold contextKey. intros -> -> Heq. simpl in Heq.
  apply split_at_bar in Heq as [Hn ->]; [| apply pretty_Z_no_bar..].
  split; [| done]. by apply (inj pretty).
Qed.

End KeyFacts.

Section SlotFacts.

Implicit Types (st : Keepalive) (ws : Socket) (opId : string).

Lemma no_contexts_consistent : slots_consistent no_contexts.
Proof. intros promise d H. by destruct promise. Qed.

(** After a release the key holds no deferred. *)
Lemma release_clears ws opId st :
  ∀ promise,
    keepalivePromisesByContextKey (releaseContextForSocketAndOpId ws opId st)
      !! contextKey ws opId ≠ Some (Some promise).
Proof.
  intros promise. unfold releaseContextForSocketAndOpId.
  destruct (keepalivePromisesByContextKey st !! contextKey ws opId)
    as [[p |] |] eqn:Hk; simpl.
  - by rewrite lookup_insert_eq.
  - by rewrite Hk.
  - by rewrite Hk.
Qed.

Lemma release_consistent ws opId st :
  slots_consistent st →
  slots_consistent (releaseContextForSocketAndOpId ws opId st).
Proof.
  intros Hinv. unfold releaseContextForSocketAndOpId.
  destruct (keepalivePromisesByContextKey st !! contextKey ws opId)
    as [[p |] |] eqn:Hk; [| done | done].
  intros q d Hq Hd. simpl in *.
  destruct (decide (p = q)) as [<- | Hne].
  - rewrite list_lookup_alter_eq in Hq.
    destruct (deferreds st !! p); simplify_eq/=.
  - rewrite list_lookup_alter_ne in Hq by done.
    specialize (Hinv q d Hq Hd).
    destruct (decide (slot d = contextKey ws opId)) as [Heq | Hkey].
    + rewrite Heq, Hk in Hinv. congruence.
    + by rewrite lookup_insert_ne.
Qed.

Lemma install_consistent ctx ws opId st :
  (∀ promise,
     keepalivePromisesByContextKey st !! contextKey ws opId ≠ Some (Some promise)) →
  slots_consistent st →
  slots_consistent (install ctx ws opId st).2.
Proof.
  intros Hfree Hinv q d Hq Hd. simpl in *.
  apply lookup_app_Some in Hq as [Hq | [Hlen Hq]].
  - specialize (Hinv q d Hq Hd).
    destruct (decide (slot d = contextKey ws opId)) as [Heq | Hkey].
    + rewrite Heq in Hinv. by destruct (Hfree q).
    + by rewrite lookup_insert_ne.
  - destruct (q - length (deferreds st)) as [| n] eqn:Hn; simplify_eq/=.
    assert (q = length (deferreds st)) as -> by lia.
    apply lookup_insert_eq.
Qed.

Lemma add_consistent ctx ws opId st :
  slots_consistent st →
  slots_consistent (addContextForSocketAndOpId ctx ws opId st).2.
Proof.
  intros Hinv. unfold addContextForSocketAndOpId.
  apply install_consistent; [apply release_clears | by apply release_consistent].
Qed.

Lemma apply_ops_consistent (ops : list SlotOp) st :
  slots_consistent st → slots_consistent (foldl apply_op st ops).
Proof.
  revert st. induction ops as [| op ops IH]; intros st Hinv; [done |].
  simpl. apply IH. destruct op; simpl.
  - by apply add_consistent.
  - by apply release_consistent.
Qed.

End SlotFacts.

(** C8. Setting an entry for a key that holds a live entry resolves the
    prior deferred and clears the key first (the state between the two
    steps has the deferred resolved and the key set to null), and then
    installs a new, unresolved deferred with the context under the key;
    after any sequence of calls, two deferreds that were made for the
    same key and are both unresolved are the same deferred; and the keys
    of numbered sockets are the same only for the same socket number and
    operation. *)
Theorem addContext_releases_prior :
  (∀ ctx ws opId st prior d,
     keepalivePromisesByContextKey st !! contextKey ws opId = Some (Some prior) →
     deferreds st !! prior = Some d →
     let between := releaseContextForSocketAndOpId ws opId st in
     let promise := (addContextForSocketAndOpId ctx ws opId st).1 in
     let after := (addContextForSocketAndOpId ctx ws opId st).2 in
     deferreds between !! prior = Some (resolve d)
     ∧ keepalivePromisesByContextKey between !! contextKey ws opId = Some None
     ∧ (promise, after) = install ctx ws opId between
     ∧ promise ≠ prior
     ∧ keepalivePromisesByContextKey after !! contextKey ws opId = Some (Some promise)
     ∧ deferreds after !! promise
       = Some {| resolved := false; context := ctx; slot := contextKey ws opId |}
     ∧ deferreds after !! prior = Some (resolve d))
  ∧ (∀ ops p q dp dq,
       let st := foldl apply_op no_contexts ops in
       deferreds st !! p = Some dp → deferreds st !! q = Some dq →
       resolved dp = false → resolved dq = false →
       slot dp = slot dq → p = q)
  ∧ (∀ ws1 ws2 n1 n2 opId1 opId2,
       postgraphileId ws1 = VNumber n1 → postgraphileId ws2 = VNumber n2 →
       contextKey ws1 opId1 = contextKey ws2 opId2 →
       n1 = n2 ∧ opId1 = opId2).
Proof.
  split_and!.
  - intros ctx ws opId st prior d Hk Hd between promise after.
    assert (between
            = {| deferreds := alter resolve prior (deferreds st);
                 keepalivePromisesByContextKey :=
                   <[contextKey ws opId := None]> (keepalivePromisesByContextKey st) |})
      as Hbetween.
    { subst between. unfold releaseContextForSocketAndOpId. by rewrite Hk. }
    assert (deferreds between !! prior = Some (resolve d)) as Hprior.
    { rewrite Hbetween. simpl. by rewrite list_lookup_alter_eq, Hd. }
    assert (promise = length (deferreds between)) as Hpromise by done.
    pose proof (lookup_lt_Some _ _ _ Hprior) as Hlt.
    split_and!.
    + done.
    + rewrite Hbetween. simpl. apply lookup_insert_eq.
    + done.
    + lia.
    + subst after. unfold addContextForSocketAndOpId. simpl.
      fold between. rewrite <- Hpromise. apply lookup_insert_eq.
    + subst after. unfold addContextForSocketAndOpId. simpl. fold between.
      rewrite Hpromise. rewrite lookup_app_r by lia.
      by rewrite Nat.sub_diag.
    + subst after. unfold addContextForSocketAndOpId. simpl. fold between.
      by apply lookup_app_l_Some.
  - intros ops p q dp dq st Hp Hq Hrp Hrq Hslot.
    pose proof (apply_ops_consistent ops no_contexts no_contexts_consistent)
      as Hinv. fold st in Hinv.
    pose proof (Hinv p dp Hp Hrp) as H1.
    pose proof (Hinv q dq Hq Hrq) as H2.
    rewrite Hslot in H1. congruence.
  - apply contextKey_inj.
Qed.

Lemma addContext_releases_prior_witness :
  let st := (addContextForSocketAndOpId (VString "first") socket_1 "op" no_contexts).2 in
  let after := (addContextForSocketAndOpId (VString "second") socket_1 "op" st).2 in
  deferreds (releaseContextForSocketAndOpId socket_1 "op" st) !! 0%nat
  = Some {| resolved := true; context := VString "first"; slot := "1|op" |}
  ∧ keepalivePromisesByContextKey after !! "1|op" = Some (Some 1%nat).
Proof.
  pose proof (proj1 addContext_releases_prior (VString "second") socket_1 "op"
                (addContextForSocketAndOpId (VString "first") socket_1 "op" no_contexts).2
                0%nat
                {| resolved := false; context := VString "first"; slot := "1|op" |}
                eq_refl eq_refl) as (H1 & _ & _ & _ & H2 & _).
  split; [exact H1 | exact H2].
Defined.

(** ** [enhanceHttpServerWithWebSockets] *)

Lemma enhance_start_marks (server : HttpServer) :
  truthy (postgraphileSubscriptionsEnabled (enhance_start server).2) = true.
Proof.
  unfold enhance_start.
  by destruct (truthy (postgraphileSubscriptionsEnabled server)) eqn:H.
Qed.

Lemma enhance_resume_flag (schema : Result nat) (websockets : Value) (server : HttpServer) :
  postgraphileSubscriptionsEnabled (enhance_resume schema websockets server).2
  = postgraphileSubscriptionsEnabled server.
Proof.
  unfold enhance_resume. destruct schema; [| done].
  destruct websockets as [| | | | | s | |]; try done.
  destruct (decide (s = "v0")) as [-> | H0]; [done |].
  destruct (decide (s = "v1")) as [-> | H1]; [done |].
  repeat (destruct s as [| [[] [] [] [] [] [] [] []] s]; try done).
Qed.

Lemma enhance_marks (schema : Result nat) (websockets : Value) (server : HttpServer) :
  truthy (postgraphileSubscriptionsEnabled
            (enhanceHttpServerWithWebSockets schema websockets server).2) = true.
Proof.
  unfold enhanceHttpServerWithWebSockets.
  pose proof (enhance_start_marks server) as H.
  destruct (enhance_start server) as [[] server']; simpl in *; [done |].
  by rewrite enhance_resume_flag.
Qed.

Lemma enhance_marked (schema : Result nat) (websockets : Value) (server : HttpServer) :
  truthy (postgraphileSubscriptionsEnabled server) = true →
  enhanceHttpServerWithWebSockets schema websockets server = (Return tt, server)
  ∧ enhance_start server = (ReturnedAtOnce, server).
Proof.
  intros H. unfold enhanceHttpServerWithWebSockets, enhance_start. by rewrite H.
Qed.

(** C9. A second call on the same server returns at once and leaves the
    server as it is (no further [upgrade] listener, no further
    subscription server), whether it comes after the first call has
    finished, however that ended, or while the first call still awaits
    the schema: the first call has set the flag before its first
    [await]. *)
Theorem enhance_second_call_returns
    (schema1 schema2 : Result nat) (websockets1 websockets2 : Value)
    (server : HttpServer) :
  let finished := (enhanceHttpServerWithWebSockets schema1 websockets1 server).2 in
  let awaiting := (enhance_start server).2 in
  enhanceHttpServerWithWebSockets schema2 websockets2 finished = (Return tt, finished)
  ∧ enhance_start finished = (ReturnedAtOnce, finished)
  ∧ enhanceHttpServerWithWebSockets schema2 websockets2 awaiting = (Return tt, awaiting)
  ∧ enhance_start awaiting = (ReturnedAtOnce, awaiting).
Proof.
  intros finished awaiting.
  destruct (enhance_marked schema2 websockets2 finished (enhance_marks _ _ _))
    as [H1 H2].
  destruct (enhance_marked schema2 websockets2 awaiting (enhance_start_marks _))
    as [H3 H4].
  done.
Qed.

(** A first call on a fresh server installs one listener and one server;
    the second adds nothing. *)
Example enhance_twice_v1 :
  let fresh := {| postgraphileSubscriptionsEnabled := VUndefined;
                  upgradeListeners := 0; subscriptionServers := [] |} in
  let once := (enhanceHttpServerWithWebSockets (Return 7%nat) (VString "v1") fresh).2 in
  let twice := (enhanceHttpServerWithWebSockets (Return 7%nat) (VString "v1") once).2 in
  upgradeListeners once = 1%nat ∧ subscriptionServers once = [V1] ∧ twice = once.
Proof. done. Qed.

(** ** Validation before execution *)

Section OperationFacts.

Context {Schema Document Rule Context ReqRes : Type}.
Variable c : Collaborators Schema Document Rule Context ReqRes.

Local Ltac run_handler :=
  repeat match goal with
    | |- context [match ?x with Return _ => _ | Throw _ => _ end] =>
        destruct x eqn:?; cbn
    | |- context [match ?x with [] => _ | _ :: _ => _ end] =>
        destruct x eqn:?; cbn
    end.


(** [onOperation], once the context, the schema, the request and the
    parsed query are there: the result and the calls of [validate], by
    the rules of the hook and the errors [validate] finds with them. *)
Lemma onOperation_validated opId params socket
    (context : Context) (schema : Schema) (reqres : ReqRes) (query : Document) :
  getContext c socket opId = Return context →
  getGraphQLSchema c = Return schema →
  reqResFromSocket c socket = Return reqres →
  let hookedParams :=
    onOperation_hook c
      {| params_schema := Some schema;
         params_query := params_query params;
         params_variables := params_variables params;
         params_operationName := params_operationName params;
         params_context := params_context params ++ [context] |} in
  match params_query hookedParams with
  | QueryDocument d => Return d
  | QueryString text => parse c text
  end = Return query →
  let rules :=
    validationRules_hook c reqres
      (params_variables params) (params_operationName params) in
  let errors := validate c schema query rules in
  onOperation c opId params socket
  = match rules, errors with
    | [], _ => (Proceed {| hooked := hookedParams; final_query := query |}, [])
    | _ :: _, [] =>
        (Proceed {| hooked := hookedParams; final_query := query |},
         [Validate PerRequest rules errors])
    | _ :: _, _ :: _ =>
        (Rejected (validation_failed_text errors) errors,
         [Validate PerRequest rules errors])
    end.
Proof.
  intros Hcontext Hschema Hreqres hookedParams Hquery rules errors.
  subst rules errors.
  unfold onOperation. rewrite Hcontext, Hschema, Hreqres.
  fold hookedParams. rewrite Hquery.
  cbn [params_variables params_operationName].
  destruct (validationRules_hook c _ _ _) as [| rule rules]; [done |].
  by destruct (validate c _ _ _).
Qed.

(** [onSubscribe], once the context, the schema, the request and the
    parsed document are there. *)
Lemma onSubscribe_validated socket msg_id payload
    (context : Context) (schema : Schema) (reqres : ReqRes) (document : Document) :
  getContext c socket msg_id = Return context →
  getGraphQLSchema c = Return schema →
  reqResFromSocket c socket = Return reqres →
  parse c (payload_query payload) = Return document →
  let hookedArgs :=
    onSubscribe_hook c
      {| args_schema := schema;
         args_contextValue := context;
         args_operationName := payload_operationName payload;
         args_document := document;
         args_variableValues := payload_variables payload |} in
  let static :=
    validate c (args_schema hookedArgs) (args_document hookedArgs)
      (staticValidationRules c) in
  let rules :=
    validationRules_hook c reqres
      (args_variableValues hookedArgs) (args_operationName hookedArgs) in
  let errors :=
    validate c (args_schema hookedArgs) (args_document hookedArgs) rules in
  onSubscribe c socket msg_id payload
  = match static, rules, errors with
    | _ :: _, _, _ =>
        (ReturnedErrors static, [Validate Static (staticValidationRules c) static])
    | [], [], _ =>
        (Proceed hookedArgs, [Validate Static (staticValidationRules c) []])
    | [], _ :: _, [] =>
        (Proceed hookedArgs,
         [Validate Static (staticValidationRules c) [];
          Validate PerRequest rules errors])
    | [], _ :: _, _ :: _ =>
        (ReturnedErrors errors,
         [Validate Static (staticValidationRules c) [];
          Validate PerRequest rules errors])
    end.
Proof.
  intros Hcontext Hschema Hreqres Hparse hookedArgs static rules errors.
  subst static rules errors.
  unfold onSubscribe. rewrite Hcontext, Hschema, Hparse.
  fold hookedArgs.
  destruct (validate c _ _ (staticValidationRules c)) as [| err static]; [| done].
  rewrite Hreqres.
  destruct (validationRules_hook c _ _ _) as [| rule rules]; [done |].
  by destruct (validate c _ _ _).
Qed.



End OperationFacts.



(** ** Releasing *)

Section ReleaseFacts.

Implicit Types (cfg : Config) (b : Builder).

Lemma releaseWatch_resolves b :
  watch_release_resolves b →
  ∃ b', releaseWatch b = (Return tt, b')
        ∧ releaseWatchFn b' = None
        ∧ pool b' = pool b ∧ released b' = released b.
Proof.
  intros Hw. unfold releaseWatch, bind, read, modify.
  destruct (releaseWatchFn b) as [f |] eqn:Hf; simpl.
  - rewrite (Hw f Hf). eexists. split_and!; reflexivity.
  - unfold ret. exists b. by split_and!.
Qed.

Lemma releasePgPool_ends cfg b :
  owned_pool_live cfg b →
  ∃ b', match releasePgPool cfg with
        | Some cb => call cb
        | None => ret tt
        end b = (Return tt, b')
        ∧ (is_Some (releasePgPool cfg) → ended (pool b') = true)
        ∧ releaseWatchFn b' = releaseWatchFn b
        ∧ released b' = released b.
Proof.
  unfold owned_pool_live. intros Hlive.
  destruct (releasePgPool cfg) as [[p] |].
  - unfold call, Pool_end, bind, modify, read. simpl.
    rewrite Hlive by (by eexists). eexists. split_and!; reflexivity.
  - exists b. split_and!; try done.
Qed.



End ReleaseFacts.

(** ** [createGqlSchema]: retries *)

Section RetryFacts.

Implicit Types (cfg : Config) (b : Builder).

(** The delay grows with the square of the attempt and is capped from
    attempt 18 on. *)
Example delay_values :
  delay 1 = 100%Z ∧ delay 2 = 400%Z ∧ delay 17 = 28900%Z
  ∧ delay 18 = 30000%Z ∧ delay 100 = 30000%Z.
Proof. done. Qed.

(** 49.999999ms is under 50ms, 50ms is not. *)
Example dur_lt_50_values :
  dur_lt_50 (0, 49999999)%Z = true ∧ dur_lt_50 (0, 50000000)%Z = false
  ∧ dur_lt_50 (1, 0)%Z = false.
Proof. done. Qed.

Lemma sleeps_app (l1 l2 : list Event) : sleeps (l1 ++ l2) = sleeps l1 ++ sleeps l2.
Proof. apply omap_app. Qed.

Lemma hook_calls_app (l1 l2 : list Event) :
  hook_calls (l1 ++ l2) = hook_calls l1 ++ hook_calls l2.
Proof. apply omap_app. Qed.

Lemma build_calls_app (l1 l2 : list Event) :
  build_calls (l1 ++ l2) = build_calls l1 ++ build_calls l2.
Proof. apply omap_app. Qed.

Lemma run_app cfg b (l1 l2 : list Input) :
  run cfg b (l1 ++ l2) = run cfg b l1 ≫= λ b', run cfg b' l2.
Proof.
  revert b. induction l1 as [| i l1 IH]; intros b; [done |].
  simpl. destruct (step cfg b i); [apply IH | done].
Qed.

Lemma new_builder_building cfg (p : Pool) (log0 : list Event) :
  building cfg (new_builder cfg p log0)
  ∧ attempts (new_builder cfg p log0) = 0%Z
  ∧ sleeps (log (new_builder cfg p log0)) = sleeps log0
  ∧ hook_calls (log (new_builder cfg p log0)) = hook_calls log0.
Proof.
  unfold building, new_builder, try_build, awaiting_build.
  destruct (watchPg cfg); simpl; rewrite sleeps_app, hook_calls_app; simpl;
    by rewrite !app_nil_r.
Qed.

Lemma failed_attempt_retries cfg b (failure : Error * (Value * (Z * Z))) :
  retryOnInitFail cfg ≠ RetryFalsy →
  (retryOnInitFail cfg = RetryHook → truthy failure.2.1 = true) →
  building cfg b →
  ∃ b', run cfg b (failed_attempt cfg failure) = Some b'
        ∧ building cfg b'
        ∧ attempts b' = (attempts b + 1)%Z
        ∧ sleeps (log b')
          = sleeps (log b) ++ expected_sleeps cfg (attempts b + 1) [failure]
        ∧ hook_calls (log b')
          = hook_calls (log b) ++ expected_hook_calls cfg (attempts b + 1) [failure].
Proof.
  destruct failure as [e [retry diff]]. simpl.
  destruct b as [g w r a p ph l], cfg as [watch policy rel].
  unfold building, awaiting_build. simpl. intros Hpolicy Hretry [-> ->].
  destruct watch, policy; try done; simpl.
  all: unfold step; simpl; try rewrite Hretry by done; simpl.
  all: try destruct (dur_lt_50 diff) eqn:Hdur; simpl.
  all: eexists; split; [reflexivity |]; simpl.
  all: rewrite ?sleeps_app, ?hook_calls_app; simpl; rewrite ?app_nil_r.
  all: split_and!; try done.
Qed.

Lemma expected_sleeps_cons cfg (k : Z) failure failures :
  expected_sleeps cfg k (failure :: failures)
  = expected_sleeps cfg k [failure] ++ expected_sleeps cfg (k + 1) failures.
Proof. destruct failure as [e [retry diff]]. simpl. by rewrite app_nil_r. Qed.

Lemma expected_hook_calls_cons cfg (k : Z) failure failures :
  expected_hook_calls cfg k (failure :: failures)
  = expected_hook_calls cfg k [failure] ++ expected_hook_calls cfg (k + 1) failures.
Proof. destruct failure as [e [retry diff]]. simpl. by rewrite app_nil_r. Qed.

Lemma failed_attempts_retry cfg (failures : list (Error * (Value * (Z * Z)))) b :
  retryOnInitFail cfg ≠ RetryFalsy →
  Forall (λ failure, retryOnInitFail cfg = RetryHook → truthy failure.2.1 = true)
    failures →
  building cfg b →
  ∃ b', run cfg b (concat (map (failed_attempt cfg) failures)) = Some b'
        ∧ building cfg b'
        ∧ attempts b' = (attempts b + Z.of_nat (length failures))%Z
        ∧ sleeps (log b')
          = sleeps (log b) ++ expected_sleeps cfg (attempts b + 1) failures
        ∧ hook_calls (log b')
          = hook_calls (log b) ++ expected_hook_calls cfg (attempts b + 1) failures.
Proof.
  intros Hpolicy Hretry. revert b.
  induction Hretry as [| failure failures Hf _ IH]; intros b Hb.
  - exists b. simpl. rewrite !app_nil_r. split_and!; try done. lia.
  - destruct (failed_attempt_retries cfg b failure Hpolicy Hf Hb)
      as (b1 & Hrun1 & Hb1 & Ha1 & Hs1 & Hh1).
    destruct (IH b1 Hb1) as (b2 & Hrun2 & Hb2 & Ha2 & Hs2 & Hh2).
    exists b2. split_and!.
    + simpl. rewrite run_app, Hrun1. exact Hrun2.
    + done.
    + rewrite Ha2, Ha1. simpl length. lia.
    + rewrite Hs2, Hs1, Ha1, (expected_sleeps_cons _ _ failure failures).
      by rewrite app_assoc.
    + rewrite Hh2, Hh1, Ha1, (expected_hook_calls_cons _ _ failure failures).
      by rewrite app_assoc.
Qed.

Lemma build_succeeds_resolves cfg b (s : Schema) (fn : ReleaseFn) :
  building cfg b →
  ∃ b', run cfg b (build_succeeds cfg s fn) = Some b'
        ∧ phase b' = Resolved s
        ∧ gqlSchema b' = Some s
        ∧ attempts b' = attempts b
        ∧ sleeps (log b') = sleeps (log b)
        ∧ hook_calls (log b') = hook_calls (log b).
Proof.
  destruct b as [g w r a p ph l], cfg as [watch policy rel].
  unfold building, awaiting_build, build_succeeds. simpl. intros [-> ->].
  destruct watch; simpl; unfold return_gqlSchema; simpl;
    destruct (0 <? a)%Z; simpl;
    eexists; (split; [reflexivity |]); simpl;
    rewrite ?sleeps_app, ?hook_calls_app; simpl; rewrite ?app_nil_r;
    by split_and!.
Qed.

Lemma expected_hook_calls_hook cfg (k : Z) (failures : list (Error * (Value * (Z * Z)))) :
  retryOnInitFail cfg = RetryHook →
  expected_hook_calls cfg k failures
  = zip (map fst failures)
        (map (λ i, (k + Z.of_nat i)%Z) (seq 0 (length failures))).
Proof.
  intros Hp. revert k. induction failures as [| [e ?] failures IH]; intros k; [done |].
  simpl. rewrite Hp. simpl. rewrite Z.add_0_r. f_equal.
  rewrite IH. f_equal. rewrite <- seq_shift, map_map.
  apply map_ext. intros i. lia.
Qed.

Lemma expected_hook_calls_no_hook cfg (k : Z) (failures : list (Error * (Value * (Z * Z)))) :
  retryOnInitFail cfg ≠ RetryHook → expected_hook_calls cfg k failures = [].
Proof.
  intros Hp. revert k. induction failures as [| [e ?] failures IH]; intros k; [done |].
  simpl. rewrite IH. by destruct (retryOnInitFail cfg).
Qed.

Lemma expected_sleeps_all cfg (k : Z) (failures : list (Error * (Value * (Z * Z)))) :
  retryOnInitFail cfg ≠ RetryHook
  ∨ Forall (λ failure, dur_lt_50 failure.2.2 = true) failures →
  expected_sleeps cfg (k + 1) failures = delays k (length failures).
Proof.
  intros H. revert k.
  induction failures as [| [e [retry diff]] failures IH]; intros k; [done |].
  simpl. rewrite IH.
  - destruct H as [H | H].
    + by destruct (retryOnInitFail cfg).
    + apply Forall_cons_1 in H as [Hd _]. simpl in Hd. rewrite Hd.
      by destruct (retryOnInitFail cfg).
  - destruct H as [H | H]; [by left | right].
    by apply Forall_cons_1 in H as [_ H].
Qed.

End RetryFacts.

(** C2, as amended. With a retry policy ([retryOnInitFail] truthy) and a
    hook, if there is one, that approves every retry, a build that fails [N] times
    and then succeeds resolves with the snapshot after [N] counted
    attempts. The hook is called once per failure, with the error and the
    attempt numbers [1..N]. Without a hook function, and with a hook that
    always returns in under 50ms, there are exactly [N] waits, of
    [min(100 * k^2, 30000)] ms for [k = 1..N]; in general the wait of
    attempt [k] happens when there is no hook function or the hook
    returned in under 50ms, and not when the hook took longer. *)
Theorem retries_back_off
    (cfg : Config) (p : Pool)
    (failures : list (Error * (Value * (Z * Z)))) (s : Schema) (fn : ReleaseFn) :
  retryOnInitFail cfg ≠ RetryFalsy →
  (retryOnInitFail cfg = RetryHook →
   Forall (λ failure, truthy failure.2.1 = true) failures) →
  ∃ b,
    run cfg (new_builder cfg p [])
      (concat (map (failed_attempt cfg) failures) ++ build_succeeds cfg s fn)
    = Some b
    ∧ phase b = Resolved s
    ∧ attempts b = Z.of_nat (length failures)
    ∧ sleeps (log b) = expected_sleeps cfg 1 failures
    ∧ (retryOnInitFail cfg = RetryHook →
       hook_calls (log b)
       = zip (map fst failures)
             (map (λ i, (1 + Z.of_nat i)%Z) (seq 0 (length failures))))
    ∧ (retryOnInitFail cfg = RetryTruthy →
       hook_calls (log b) = [] ∧ sleeps (log b) = delays 0 (length failures))
    ∧ (Forall (λ failure, dur_lt_50 failure.2.2 = true) failures →
       sleeps (log b) = delays 0 (length failures)).
Proof.
  intros Hpolicy Happroves.
  assert (Forall (λ failure, retryOnInitFail cfg = RetryHook
                             → truthy failure.2.1 = true) failures) as Hretry.
  { destruct (retryOnInitFail cfg) eqn:Hp.
    - eapply Forall_impl; [by apply Happroves | by intros].
    - by apply Forall_forall.
    - by apply Forall_forall. }
  destruct (new_builder_building cfg p []) as (Hb0 & Ha0 & Hs0 & Hh0).
  destruct (failed_attempts_retry cfg failures _ Hpolicy Hretry Hb0)
    as (b1 & Hrun1 & Hb1 & Ha1 & Hs1 & Hh1).
  destruct (build_succeeds_resolves cfg b1 s fn Hb1)
    as (b2 & Hrun2 & Hphase & _ & Ha2 & Hs2 & Hh2).
  rewrite Ha0 in *. rewrite Hs0 in Hs1. rewrite Hh0 in Hh1. simpl in Hs1, Hh1.
  exists b2. split_and!.
  - rewrite run_app, Hrun1. exact Hrun2.
  - done.
  - lia.
  - by rewrite Hs2, Hs1.
  - intros Hp. rewrite Hh2, Hh1. by apply expected_hook_calls_hook.
  - intros Hp. split.
    + rewrite Hh2, Hh1. apply expected_hook_calls_no_hook. by rewrite Hp.
    + rewrite Hs2, Hs1. apply (expected_sleeps_all cfg 0). left. by rewrite Hp.
  - intros Hfast. rewrite Hs2, Hs1. apply (expected_sleeps_all cfg 0). by right.
Qed.

(** Two failures under a hook that answers at once: waits of 100ms and
    400ms. *)
Lemma retries_back_off_witness :
  let cfg := {| watchPg := false; retryOnInitFail := RetryHook;
                releasePgPool := None |} in
  let failures := [(External 1, (VBool true, (0, 200000)%Z));
                   (External 2, (VBool true, (0, 300000)%Z))] in
  ∃ b,
    run cfg (new_builder cfg {| ended := false; on_second_end := Return tt |} [])
      (concat (map (failed_attempt cfg) failures)
       ++ build_succeeds cfg 7%nat {| release_id := 0; release_outcome := Return tt |})
    = Some b
    ∧ phase b = Resolved 7%nat
    ∧ sleeps (log b) = [100; 400]%Z
    ∧ hook_calls (log b) = [(External 1, 1%Z); (External 2, 2%Z)].
Proof.
  intros cfg failures.
  destruct (retries_back_off cfg {| ended := false; on_second_end := Return tt |}
              failures 7%nat {| release_id := 0; release_outcome := Return tt |})
    as (b & Hrun & Hphase & _ & _ & Hhook & _ & Hfast).
  - discriminate.
  - intros _. repeat constructor.
  - exists b. split; [exact Hrun |]. split; [exact Hphase |]. split.
    + apply Hfast. repeat constructor.
    + apply Hhook. reflexivity.
Defined.

(** C2, as stated, fails under a hook that takes its time: the build
    fails once, the hook approves the retry after 60ms, the build
    succeeds, and there has been no wait although [N = 1]. *)
Lemma slow_hook_counterexample :
  let cfg := {| watchPg := false; retryOnInitFail := RetryHook;
                releasePgPool := None |} in
  ∃ b,
    run cfg (new_builder cfg {| ended := false; on_second_end := Return tt |} [])
      [CreateSettled (Throw (External 1));
       RetryOnInitFailSettled (Return (VBool true)) (0, 60000000)%Z;
       CreateSettled (Return 7%nat)]
    = Some b
    ∧ phase b = Resolved 7%nat
    ∧ hook_calls (log b) = [(External 1, 1%Z)]
    ∧ sleeps (log b) = []
    ∧ sleeps (log b) ≠ delays 0 1.
Proof. eexists. split_and!; try reflexivity. discriminate. Qed.

(** Without a retry policy the first failure ends the process. *)
Example no_policy_exits :
  let cfg := {| watchPg := false; retryOnInitFail := RetryFalsy;
                releasePgPool := None |} in
  ∃ b,
    run cfg (new_builder cfg {| ended := false; on_second_end := Return tt |} [])
      [CreateSettled (Throw (External 1))]
    = Some b
    ∧ phase b = Exited 34 ∧ sleeps (log b) = [].
Proof. eexists. split_and!; reflexivity. Qed.

(** ** [createGqlSchema]: the consistency error *)

Section ConsistencyFacts.

Implicit Types (cfg : Config) (b : Builder).

(** Once the watch is set up, every approved retry ends in the guard at
    the top of the loop, and the hook is asked again. *)
Lemma approved_retries_fail b (n : nat) :
  (∃ e d, phase b = AwaitRetryOnInitFail e d) →
  is_Some (releaseWatchFn b) →
  ∃ b', run watch_with_hook b (repeat approve n) = Some b'
        ∧ is_Some (releaseWatchFn b')
        ∧ attempts b' = (attempts b + Z.of_nat n)%Z
        ∧ (∃ calls, hook_calls (log b') = hook_calls (log b) ++ calls)
        ∧ ∃ e d, phase b' = AwaitRetryOnInitFail e d
                 ∧ (n ≠ 0%nat → e = releaseWatchFn_set_error
                                ∧ d = delay (attempts b + Z.of_nat n)).
Proof.
  revert b. induction n as [| n IH]; intros b (e & d & Hphase) Hfn.
  - exists b. split_and!; try done.
    + simpl. lia.
    + exists []. by rewrite app_nil_r.
    + by exists e, d.
  - destruct b as [g w r a p ph l]. simpl in *. subst ph.
    destruct Hfn as [fn ->].
    edestruct (IH (catch_error watch_with_hook releaseWatchFn_set_error
                     {| gqlSchema := g; releaseWatchFn := Some fn; released := r;
                        attempts := a; pool := p;
                        phase := AwaitRetryOnInitFail e d; log := l |}))
      as (b' & Hrun & Hfn' & Ha & [calls Hcalls] & e' & d' & Hphase' & He').
    { simpl. eauto. }
    { simpl. eauto. }
    exists b'. split_and!.
    + exact Hrun.
    + done.
    + rewrite Ha. simpl. lia.
    + rewrite Hcalls. simpl. rewrite hook_calls_app. simpl.
      rewrite <- app_assoc. eauto.
    + exists e', d'. split; [done |]. intros _.
      destruct n as [| n].
      * simpl in Hrun. injection Hrun as <-. simpl in Hphase'.
        injection Hphase' as <- <-. split; [done | f_equal; lia].
      * destruct He' as [-> ->]; [done |]. split; [done |].
        simpl attempts. f_equal; lia.
Qed.

End ConsistencyFacts.

(** C4, on the code. In watch mode with a retry hook, when
    [watchPostGraphileSchema] resolves without having called the
    callback, the consistency error goes to the hook as the failure of
    attempt 1; when the hook approves, the retry fails on the guard at the
    top of the loop and goes to the hook again, and so on: the promise of
    [createGqlSchema] stays pending and is never rejected. *)
Theorem consistency_error_is_retried (p : Pool) (fn : ReleaseFn) (n : nat) :
  ∃ b,
    run watch_with_hook (new_builder watch_with_hook p [])
      (WatchSettled (Return fn) :: repeat approve n)
    = Some b
    ∧ in_flight b = true
    ∧ attempts b = (1 + Z.of_nat n)%Z
    ∧ (∃ calls, hook_calls (log b) = (consistency_error, 1%Z) :: calls)
    ∧ ∃ e d, phase b = AwaitRetryOnInitFail e d
             ∧ (n = 0%nat → e = consistency_error ∧ d = 100%Z)
             ∧ (n ≠ 0%nat → e = releaseWatchFn_set_error).
Proof.
  pose (b1 := catch_error watch_with_hook consistency_error
                (set_releaseWatchFn (Some fn)
                   (new_builder watch_with_hook p []))).
  destruct (approved_retries_fail b1 n) as
    (b & Hrun & _ & Ha & [calls Hcalls] & e & d & Hphase & He).
  { simpl. eauto. }
  { simpl. eauto. }
  exists b. split_and!.
  - exact Hrun.
  - unfold in_flight. by rewrite Hphase.
  - rewrite Ha. done.
  - rewrite Hcalls. simpl. eauto.
  - exists e, d. split; [done |]. split.
    + intros ->. simpl in Hrun. injection Hrun as <-.
      simpl in Hphase. by injection Hphase as <- <-.
    + intros Hn. by destruct (He Hn).
Qed.

(** With [retryOnInitFail: true] the error is followed by the first
    wait. *)
Example consistency_error_sleeps :
  let cfg := {| watchPg := true; retryOnInitFail := RetryTruthy;
                releasePgPool := None |} in
  ∃ b,
    run cfg (new_builder cfg {| ended := false; on_second_end := Return tt |} [])
      [WatchSettled (Return {| release_id := 0; release_outcome := Return tt |})]
    = Some b
    ∧ phase b = AwaitSleep ∧ sleeps (log b) = [100%Z].
Proof. eexists. split_and!; reflexivity. Qed.

(** ** [getGraphQLSchema] and the build in flight *)

Section InFlightFacts.

Implicit Types (cfg : Config) (b : Builder).

Lemma releaseOnce_frame cfg b :
  gqlSchema (releaseOnce cfg b).2 = gqlSchema b
  ∧ build_calls (log (releaseOnce cfg b).2) = build_calls (log b).
Proof.
  destruct b as [g w r a p ph l], cfg as [watch policy rel].
  unfold releaseOnce, releaseWatch, bind, read, modify, throw, ret. simpl.
  destruct r; [done |]. simpl.
  destruct w as [fn |]; simpl.
  - destruct (release_outcome fn); simpl;
      [| by rewrite build_calls_app, app_nil_r].
    destruct rel as [[pg] |]; simpl;
      [| by rewrite build_calls_app, app_nil_r].
    unfold call, Pool_end, bind, read, modify. simpl.
    destruct (ended p); simpl; [destruct (on_second_end p) |];
      by rewrite !build_calls_app, !app_nil_r.
  - destruct rel as [[pg] |]; simpl; [| done].
    unfold call, Pool_end, bind, read, modify. simpl.
    destruct (ended p); simpl; [destruct (on_second_end p) |];
      by rewrite !build_calls_app, !app_nil_r.
Qed.

Lemma catch_error_frame cfg (e : Error) b :
  gqlSchema (catch_error cfg e b) = gqlSchema b
  ∧ build_calls (log (catch_error cfg e b)) = build_calls (log b)
  ∧ outstanding (catch_error cfg e b) = 0%nat
  ∧ ∀ s, phase (catch_error cfg e b) ≠ Resolved s.
Proof.
  unfold catch_error, outstanding.
  destruct (retryOnInitFail cfg); simpl;
    rewrite ?build_calls_app; simpl; rewrite ?app_nil_r; done.
Qed.

Lemma try_build_frame cfg b :
  gqlSchema (try_build cfg b) = gqlSchema b
  ∧ length (build_calls (log (try_build cfg b)))
    = (length (build_calls (log b)) + outstanding (try_build cfg b))%nat
  ∧ ∀ s, phase (try_build cfg b) ≠ Resolved s.
Proof.
  unfold try_build.
  destruct (watchPg cfg).
  - destruct (releaseWatchFn b).
    + destruct (catch_error_frame cfg releaseWatchFn_set_error b)
        as (-> & -> & -> & H). split_and!; [done | lia | done].
    + unfold outstanding. simpl. rewrite build_calls_app, length_app. done.
  - unfold outstanding. simpl. rewrite build_calls_app, length_app. done.
Qed.

Lemma step_snapshot_inv cfg b (i : Input) b' :
  step cfg b i = Some b' → snapshot_inv cfg b → snapshot_inv cfg b'.
Proof.
  unfold step, snapshot_inv. intros Hstep Hinv.
  destruct i as [[s | e] | s | [fn | e] | [retry | e] diff |], (phase b) eqn:Hphase;
    try done; simplify_eq.
  all: try (destruct (watchPg cfg) eqn:Hw; simplify_eq;
            unfold watch_callback; simpl; rewrite Hphase;
            first [by intros ? | by eexists]).
  all: try (destruct (catch_error_frame cfg e b) as (Hg & _ & _ & Hne);
            destruct (phase (catch_error cfg e b)) eqn:Hp; try rewrite Hg;
            try done; by destruct (Hne s)).
  - unfold return_gqlSchema.
    destruct (0 <? _)%Z; simpl; exists s; done.
  - simpl in Hstep.
    destruct (gqlSchema b) as [s |] eqn:Hg; simplify_eq.
    + unfold return_gqlSchema. destruct (0 <? _)%Z; simpl.
      all: exists s; split; [done |]; intros Hw; specialize (Hinv Hw); congruence.
    + match goal with
      | |- context [catch_error cfg ?e ?b0] =>
          destruct (catch_error_frame cfg e b0) as (Hg' & _ & _ & Hne);
          destruct (phase (catch_error cfg e b0)) eqn:Hp; try rewrite Hg';
          try done; by destruct (Hne s)
      end.
  - destruct (negb (truthy retry)).
    + destruct (releaseOnce_frame cfg b) as [Hg _].
      destruct (releaseOnce cfg b) as [[[] | e'] b1]; simplify_eq; simpl in *;
        by rewrite Hg.
    + destruct (dur_lt_50 diff); simplify_eq; simpl; [done |].
      destruct (try_build_frame cfg b) as (Hg & _ & Hne).
      destruct (phase (try_build cfg b)) eqn:Hp; try rewrite Hg; try done.
      by destruct (Hne s).
  - destruct (try_build_frame cfg b) as (Hg & _ & Hne).
    destruct (phase (try_build cfg b)) eqn:Hp; try rewrite Hg; try done.
    by destruct (Hne s).
Qed.

Lemma step_build_calls cfg b (i : Input) b' :
  step cfg b i = Some b' →
  (length (build_calls (log b')) + outstanding b
   = length (build_calls (log b)) + settled_builds [i] + outstanding b')%nat.
Proof.
  unfold step. intros Hstep.
  destruct i as [[s | e] | s | [fn | e] | [retry | e] diff |], (phase b) eqn:Hphase;
    try done; simplify_eq; unfold outstanding at 1; rewrite Hphase; simpl.
  all: try (destruct (watchPg cfg) eqn:Hw; simplify_eq;
            unfold watch_callback, outstanding; simpl;
            rewrite Hphase, !build_calls_app, !length_app; simpl; lia).
  all: try (destruct (catch_error_frame cfg e b) as (_ & -> & -> & _); lia).
  - unfold return_gqlSchema, outstanding.
    destruct (0 <? _)%Z; simpl; rewrite !build_calls_app, !length_app; simpl; lia.
  - simpl in Hstep. destruct (gqlSchema b) as [s |]; simplify_eq.
    + unfold return_gqlSchema, outstanding.
      destruct (0 <? _)%Z; simpl; rewrite ?build_calls_app, ?length_app; simpl; lia.
    + match goal with
      | |- context [catch_error cfg ?e ?b0] =>
          destruct (catch_error_frame cfg e b0) as (_ & -> & -> & _)
      end. simpl. lia.
  - destruct (negb (truthy retry)).
    + destruct (releaseOnce_frame cfg b) as [_ Hcalls].
      destruct (releaseOnce cfg b) as [[[] | e'] b1]; simplify_eq; simpl in *;
        rewrite Hcalls; unfold outstanding; simpl; lia.
    + destruct (dur_lt_50 diff); simplify_eq.
      * unfold outstanding. simpl.
        rewrite !build_calls_app, !length_app. simpl. lia.
      * destruct (try_build_frame cfg b) as (_ & -> & _). lia.
  - unfold outstanding. simpl. lia.
  - destruct (try_build_frame cfg b) as (_ & -> & _). lia.
Qed.

Lemma settled_builds_cons (i : Input) (inputs : list Input) :
  settled_builds (i :: inputs) = (settled_builds [i] + settled_builds inputs)%nat.
Proof. simpl. lia. Qed.

Lemma run_build_calls cfg b (inputs : list Input) b' :
  run cfg b inputs = Some b' →
  (length (build_calls (log b')) + outstanding b
   = length (build_calls (log b)) + settled_builds inputs + outstanding b')%nat.
Proof.
  revert b. induction inputs as [| i inputs IH]; intros b Hrun.
  - simpl in Hrun. simplify_eq. simpl. lia.
  - simpl in Hrun. destruct (step cfg b i) as [b1 |] eqn:Hstep; [| done].
    pose proof (step_build_calls cfg b i b1 Hstep).
    pose proof (IH b1 Hrun).
    rewrite settled_builds_cons. lia.
Qed.

Lemma run_snapshot_inv cfg b (inputs : list Input) b' :
  run cfg b inputs = Some b' → snapshot_inv cfg b → snapshot_inv cfg b'.
Proof.
  revert b. induction inputs as [| i inputs IH]; intros b Hrun Hinv.
  - simpl in Hrun. by simplify_eq.
  - simpl in Hrun. destruct (step cfg b i) as [b1 |] eqn:Hstep; [| done].
    eapply IH; [done |]. by eapply step_snapshot_inv.
Qed.

(** A resolved promise stays resolved with the same snapshot. *)
Lemma run_resolved cfg b (inputs : list Input) b' (s : Schema) :
  run cfg b inputs = Some b' → phase b = Resolved s → phase b' = Resolved s.
Proof.
  revert b. induction inputs as [| i inputs IH]; intros b Hrun Hphase.
  - simpl in Hrun. by simplify_eq.
  - simpl in Hrun. destruct (step cfg b i) as [b1 |] eqn:Hstep; [| done].
    eapply IH; [done |]. unfold step in Hstep. rewrite Hphase in Hstep.
    destruct i as [[] | | [] | [] ? |]; try done.
    by destruct (watchPg cfg); simplify_eq.
Qed.

Lemma new_builder_snapshot_inv cfg (p : Pool) :
  snapshot_inv cfg (new_builder cfg p [])
  ∧ length (build_calls (log (new_builder cfg p []))) = 1%nat
  ∧ outstanding (new_builder cfg p []) = 1%nat.
Proof.
  unfold snapshot_inv, new_builder, try_build, outstanding.
  by destruct (watchPg cfg).
Qed.

End InFlightFacts.

(** C6, as amended. From the start of the builder on, whatever settles
    and whenever the watch callback comes: a build call is made only when
    the ones before have settled, so at most one is in flight; while no
    snapshot is set [getGraphQLSchema] returns [gqlSchemaPromise], the
    one promise of the one [createGqlSchema] call, and without watch mode
    that is the whole time the build is in flight; once that promise is
    resolved, [getGraphQLSchema] resolves to the current snapshot, which
    without watch mode is the snapshot the promise resolved with; and the
    promise stays resolved with the same snapshot. *)
Theorem one_build_in_flight
    (cfg : Config) (p : Pool) (inputs : list Input) (b : Builder) :
  run cfg (new_builder cfg p []) inputs = Some b →
  length (build_calls (log b)) = (settled_builds inputs + outstanding b)%nat
  ∧ (outstanding b ≤ 1)%nat
  ∧ (gqlSchema b = None → SchemaBuilder.getGraphQLSchema b = gqlSchemaPromise)
  ∧ (watchPg cfg = false → in_flight b = true →
     SchemaBuilder.getGraphQLSchema b = gqlSchemaPromise)
  ∧ (∀ s, phase b = Resolved s →
          ∃ current, gqlSchema b = Some current
                     ∧ SchemaBuilder.getGraphQLSchema b = PromiseResolve current
                     ∧ (watchPg cfg = false → current = s))
  ∧ (∀ s more b', phase b = Resolved s → run cfg b more = Some b' →
                  phase b' = Resolved s).
Proof.
  intros Hrun.
  destruct (new_builder_snapshot_inv cfg p) as (Hinv0 & Hcalls0 & Hout0).
  pose proof (run_build_calls cfg _ inputs b Hrun) as Hcalls.
  pose proof (run_snapshot_inv cfg _ inputs b Hrun Hinv0) as Hinv.
  rewrite Hcalls0, Hout0 in Hcalls.
  split_and!.
  - lia.
  - unfold outstanding. destruct (phase b); lia.
  - intros Hg. unfold SchemaBuilder.getGraphQLSchema. by rewrite Hg.
  - intros Hw Hflight. unfold SchemaBuilder.getGraphQLSchema.
    unfold snapshot_inv in Hinv. unfold in_flight in Hflight.
    destruct (phase b); try done; by rewrite Hinv.
  - intros s Hphase. unfold snapshot_inv in Hinv. rewrite Hphase in Hinv.
    destruct Hinv as (current & Hg & Hsame).
    exists current. unfold SchemaBuilder.getGraphQLSchema. by rewrite Hg.
  - intros s more b' Hphase Hmore. by eapply run_resolved.
Qed.

Lemma one_build_in_flight_witness :
  let cfg := {| watchPg := false; retryOnInitFail := RetryTruthy;
                releasePgPool := None |} in
  let p := {| ended := false; on_second_end := Return tt |} in
  ∃ b,
    run cfg (new_builder cfg p []) [CreateSettled (Throw (External 1)); SleepElapsed]
    = Some b
    ∧ length (build_calls (log b)) = 2%nat
    ∧ in_flight b = true
    ∧ SchemaBuilder.getGraphQLSchema b = gqlSchemaPromise.
Proof.
  intros cfg p. eexists.
  split; [reflexivity |].
  match goal with
  | |- context [length (build_calls (log ?b))] =>
      destruct (one_build_in_flight cfg p
                  [CreateSettled (Throw (External 1)); SleepElapsed] b eq_refl)
        as (Hcalls & _ & _ & Hpromise & _)
  end.
  split; [exact Hcalls |]. split; [reflexivity |].
  apply Hpromise; reflexivity.
Defined.

(** C6, as stated, fails in watch mode: the callback has delivered
    snapshot 5 and [watchPostGraphileSchema] has not resolved yet, so the
    build is in flight, and [getGraphQLSchema] returns a new promise
    resolved with 5, not the in-flight promise; when the callback
    delivers snapshot 6 before the call resolves, the next caller gets
    6. *)
Lemma watch_callback_counterexample :
  let cfg := {| watchPg := true; retryOnInitFail := RetryFalsy;
                releasePgPool := None |} in
  let p := {| ended := false; on_second_end := Return tt |} in
  ∃ b1 b2,
    run cfg (new_builder cfg p []) [WatchCallback 5%nat] = Some b1
    ∧ in_flight b1 = true
    ∧ SchemaBuilder.getGraphQLSchema b1 = PromiseResolve 5%nat
    ∧ SchemaBuilder.getGraphQLSchema b1 ≠ gqlSchemaPromise
    ∧ run cfg b1 [WatchCallback 6%nat] = Some b2
    ∧ in_flight b2 = true
    ∧ SchemaBuilder.getGraphQLSchema b2 = PromiseResolve 6%nat.
Proof. eexists _, _. split_and!; try reflexivity. discriminate. Qed.

(** * Further properties *)

(** ** The attempt counter, the waits and the hook calls *)

Section AttemptFacts.

Implicit Types (cfg : Config) (b : Builder).

Lemma ascending_weaken (lo hi hi' : Z) (ks : list Z) :
  ascending lo hi ks → (hi ≤ hi')%Z → ascending lo hi' ks.
Proof.
  revert lo. induction ks as [| k ks IH]; intros lo; simpl; [lia |].
  intros [Hlo Hks] Hhi. split; [done |]. by apply IH.
Qed.

Lemma ascending_snoc (lo hi hi' k : Z) (ks : list Z) :
  ascending lo hi ks → (hi < k)%Z → (k ≤ hi')%Z →
  ascending lo hi' (ks ++ [k]).
Proof.
  revert lo. induction ks as [| k' ks IH]; intros lo; simpl.
  - intros Hlo Hk Hhi. split; lia.
  - intros [Hlo Hks] Hk Hhi. split; [done |]. by apply IH.
Qed.

Lemma ascending_bounds (lo hi : Z) (ks : list Z) :
  ascending lo hi ks → Forall (λ k, (lo < k ≤ hi)%Z) ks.
Proof.
  revert lo. induction ks as [| k ks IH]; intros lo; simpl; [done |].
  intros [Hlo Hks]. pose proof (IH k Hks) as Hall.
  constructor.
  - split; [done |]. destruct ks as [| k' ks']; simpl in Hks; [lia |].
    apply Forall_cons_1 in Hall as [? _]. lia.
  - eapply Forall_impl; [done |]. simpl. lia.
Qed.

(** The delay of an attempt is between 100ms and 30s. *)
Lemma delay_bounds (k : Z) : (1 ≤ k)%Z → (100 ≤ delay k ≤ 30000)%Z.
Proof. intros Hk. unfold delay. split; [apply Z.min_glb; nia | lia]. Qed.

Lemma delay_monotone (j k : Z) : (0 ≤ j ≤ k)%Z → (delay j ≤ delay k)%Z.
Proof. intros Hjk. unfold delay. apply Z.min_le_compat_r. nia. Qed.

Lemma delays_snoc (from : Z) (n : nat) :
  delays from (S n) = delays from n ++ [delay (from + Z.of_nat n + 1)].
Proof.
  revert from. induction n as [| n IH]; intros from.
  - simpl. do 2 f_equal. lia.
  - change (delays from (S (S n)))
      with (delay (from + 1) :: delays (from + 1) (S n)).
    rewrite IH.
    replace (from + 1 + Z.of_nat n + 1)%Z with (from + Z.of_nat (S n) + 1)%Z
      by lia.
    reflexivity.
Qed.

Lemma seq_numbers_snoc (a : Z) :
  (0 ≤ a)%Z →
  map Z.of_nat (seq 1 (Z.to_nat (a + 1)))
  = map Z.of_nat (seq 1 (Z.to_nat a)) ++ [(a + 1)%Z].
Proof.
  intros Ha. replace (Z.to_nat (a + 1)) with (S (Z.to_nat a)) by lia.
  rewrite seq_S, map_app. simpl. do 2 f_equal. lia.
Qed.

Lemma slept_bound_le b : (slept_bound b ≤ attempts b)%Z.
Proof. unfold slept_bound. destruct (phase b); lia. Qed.

Lemma catch_error_attempts_inv cfg (e : Error) b :
  attempts_inv cfg b → attempts_inv cfg (catch_error cfg e b).
Proof.
  intros (Ha & _ & (ks & Hks & Hasc) & Hhook & Hnohook & Htruthy & Hfalsy).
  pose proof (ascending_weaken _ _ _ _ Hasc (slept_bound_le b)) as Hasc'.
  destruct b as [g w r a p ph l]. simpl in *.
  unfold attempts_inv, catch_error, slept_bound.
  destruct (retryOnInitFail cfg) eqn:Hp; simpl;
    rewrite ?sleeps_app, ?hook_calls_app; simpl; rewrite ?app_nil_r.
  - split_and!.
    + lia.
    + intros ? ? [= <- <-]. split_and!; [done | done | lia].
    + exists ks. split; [done |]. eapply ascending_weaken; [done | lia].
    + intros _. rewrite map_app, Hhook by done. simpl.
      by rewrite seq_numbers_snoc.
    + done.
    + done.
    + done.
  - split_and!.
    + lia.
    + done.
    + exists (ks ++ [(a + 1)%Z]). split; [by rewrite map_app, Hks |].
      eapply ascending_snoc; [done | lia | lia].
    + done.
    + intros _. by apply Hnohook.
    + intros _. rewrite Htruthy by done.
      replace (Z.to_nat (a + 1)) with (S (Z.to_nat a)) by lia.
      rewrite delays_snoc. do 3 f_equal. lia.
    + done.
  - split_and!.
    + lia.
    + done.
    + exists ks. split; [done |]. eapply ascending_weaken; [done | lia].
    + done.
    + intros _. by apply Hnohook.
    + done.
    + intros _. by apply Hfalsy.
Qed.

Lemma try_build_attempts_inv cfg b :
  attempts_inv cfg b → attempts_inv cfg (try_build cfg b).
Proof.
  intros Hinv. unfold try_build.
  destruct (watchPg cfg).
  - destruct (releaseWatchFn b); [by apply catch_error_attempts_inv |].
    destruct Hinv as (Ha & _ & (ks & Hks & Hasc) & Hhook & Hnohook & Htruthy & Hfalsy).
    pose proof (ascending_weaken _ _ _ _ Hasc (slept_bound_le b)) as Hasc'.
    unfold attempts_inv, slept_bound. simpl.
    rewrite sleeps_app, hook_calls_app. simpl. rewrite !app_nil_r.
    split_and!; try done. by exists ks.
  - destruct Hinv as (Ha & _ & (ks & Hks & Hasc) & Hhook & Hnohook & Htruthy & Hfalsy).
    pose proof (ascending_weaken _ _ _ _ Hasc (slept_bound_le b)) as Hasc'.
    unfold attempts_inv, slept_bound. simpl.
    rewrite sleeps_app, hook_calls_app. simpl. rewrite !app_nil_r.
    split_and!; try done. by exists ks.
Qed.

(** The invariant looks at the counter, the phase, the waits and the
    hook calls only. *)
Lemma attempts_inv_settled cfg b b' :
  attempts b' = attempts b →
  sleeps (log b') = sleeps (log b) →
  hook_calls (log b') = hook_calls (log b) →
  (∀ e d, phase b' ≠ AwaitRetryOnInitFail e d) →
  attempts_inv cfg b → attempts_inv cfg b'.
Proof.
  intros Ha Hs Hh Hph (H0 & _ & (ks & Hks & Hasc) & Hhook & Hnohook & Htruthy & Hfalsy).
  unfold attempts_inv. rewrite Ha, Hs, Hh. split_and!; try done.
  - intros e d Hphase. by destruct (Hph e d).
  - exists ks. split; [done |].
    eapply ascending_weaken; [done |].
    pose proof (slept_bound_le b). unfold slept_bound at 2.
    destruct (phase b') as [| | e' d' | | | |] eqn:Hp; try lia.
    by destruct (Hph e' d').
Qed.

Lemma attempts_inv_same_phase cfg b b' :
  attempts b' = attempts b →
  sleeps (log b') = sleeps (log b) →
  hook_calls (log b') = hook_calls (log b) →
  phase b' = phase b →
  attempts_inv cfg b → attempts_inv cfg b'.
Proof.
  intros Ha Hs Hh Hph. unfold attempts_inv, slept_bound.
  by rewrite Ha, Hs, Hh, Hph.
Qed.

Lemma releaseOnce_log_frame cfg b :
  attempts (releaseOnce cfg b).2 = attempts b
  ∧ sleeps (log (releaseOnce cfg b).2) = sleeps (log b)
  ∧ hook_calls (log (releaseOnce cfg b).2) = hook_calls (log b)
  ∧ phase (releaseOnce cfg b).2 = phase b.
Proof.
  destruct b as [g w r a p ph l], cfg as [watch policy rel].
  unfold releaseOnce, releaseWatch, bind, read, modify, throw, ret. simpl.
  destruct r; [done |]. simpl.
  destruct w as [fn |]; simpl.
  - destruct (release_outcome fn); simpl;
      [| by rewrite sleeps_app, hook_calls_app, !app_nil_r].
    destruct rel as [[pg] |]; simpl;
      [| by rewrite sleeps_app, hook_calls_app, !app_nil_r].
    unfold call, Pool_end, bind, read, modify. simpl.
    destruct (ended p); simpl; [destruct (on_second_end p) |];
      by rewrite !sleeps_app, !hook_calls_app, !app_nil_r.
  - destruct rel as [[pg] |]; simpl; [| done].
    unfold call, Pool_end, bind, read, modify. simpl.
    destruct (ended p); simpl; [destruct (on_second_end p) |];
      by rewrite !sleeps_app, !hook_calls_app, !app_nil_r.
Qed.

Lemma return_gqlSchema_log (s : Schema) b :
  attempts (return_gqlSchema s b) = attempts b
  ∧ sleeps (log (return_gqlSchema s b)) = sleeps (log b)
  ∧ hook_calls (log (return_gqlSchema s b)) = hook_calls (log b)
  ∧ phase (return_gqlSchema s b) = Resolved s.
Proof.
  unfold return_gqlSchema. destruct (0 <? attempts b)%Z; simpl;
    by rewrite ?sleeps_app, ?hook_calls_app, ?app_nil_r.
Qed.

Lemma step_attempts_inv cfg b (i : Input) b' :
  step cfg b i = Some b' → attempts_inv cfg b → attempts_inv cfg b'.
Proof.
  unfold step. intros Hstep Hinv.
  destruct i as [[s | e] | s | [fn | e] | [retry | e] diff |], (phase b) eqn:Hphase;
    try done; simplify_eq.
  all: try (destruct (watchPg cfg); simplify_eq;
            eapply (attempts_inv_same_phase cfg b); [..| exact Hinv];
            unfold watch_callback; simpl;
            by rewrite ?sleeps_app, ?hook_calls_app, ?app_nil_r).
  all: try by apply catch_error_attempts_inv.
  - destruct (return_gqlSchema_log s
                (emit (CallExportGqlSchema s) (set_gqlSchema s b)))
      as (Ha & Hs & Hh & Hp).
    eapply (attempts_inv_settled cfg b); [| | | | exact Hinv].
    + by rewrite Ha.
    + rewrite Hs. simpl. by rewrite sleeps_app, app_nil_r.
    + rewrite Hh. simpl. by rewrite hook_calls_app, app_nil_r.
    + intros ? ?. by rewrite Hp.
  - simpl in Hstep. destruct (gqlSchema b) as [s |]; simplify_eq.
    + destruct (return_gqlSchema_log s (set_releaseWatchFn (Some fn) b))
        as (Ha & Hs & Hh & Hp).
      eapply (attempts_inv_settled cfg b); [| | | | exact Hinv].
      * by rewrite Ha.
      * by rewrite Hs.
      * by rewrite Hh.
      * intros ? ?. by rewrite Hp.
    + apply catch_error_attempts_inv.
      eapply (attempts_inv_same_phase cfg b); [..| exact Hinv]; done.
  - destruct (negb (truthy retry)).
    + destruct (releaseOnce_log_frame cfg b) as (Ha & Hs & Hh & _).
      destruct (releaseOnce cfg b) as [[[] | e'] b1]; simplify_eq; simpl in *;
        (eapply (attempts_inv_settled cfg b); [..| exact Hinv]; done).
    + destruct (dur_lt_50 diff); simplify_eq; [| by apply try_build_attempts_inv].
      destruct Hinv as (Ha & Hd & (ks & Hks & Hasc) & Hhook & Hnohook & Htruthy & Hfalsy).
      destruct (Hd _ _ Hphase) as (-> & Hp & Ha1).
      unfold slept_bound in Hasc. rewrite Hphase in Hasc.
      unfold attempts_inv, slept_bound. simpl.
      rewrite !sleeps_app, !hook_calls_app. simpl. rewrite !app_nil_r.
      split_and!; try done.
      * exists (ks ++ [attempts b]). split; [by rewrite map_app, Hks |].
        eapply ascending_snoc; [done | lia | lia].
      * intros Hp'. congruence.
      * intros Hp'. congruence.
  - eapply (attempts_inv_settled cfg b); [..| exact Hinv]; done.
  - by apply try_build_attempts_inv.
Qed.

Lemma run_attempts_inv cfg b (inputs : list Input) b' :
  run cfg b inputs = Some b' → attempts_inv cfg b → attempts_inv cfg b'.
Proof.
  revert b. induction inputs as [| i inputs IH]; intros b Hrun Hinv.
  - simpl in Hrun. by simplify_eq.
  - simpl in Hrun. destruct (step cfg b i) as [b1 |] eqn:Hstep; [| done].
    eapply IH; [done |]. by eapply step_attempts_inv.
Qed.

Lemma new_builder_attempts_inv cfg (p : Pool) :
  attempts_inv cfg (new_builder cfg p []).
Proof.
  unfold new_builder. apply try_build_attempts_inv.
  unfold attempts_inv, slept_bound. simpl. split_and!; try done.
  by exists [].
Qed.

End AttemptFacts.

(** X1. Whatever settles and in whatever order, the attempt counter is
    never negative, the waits are the delays of strictly increasing
    attempts up to the counter, each between 100ms and 30s, a hook
    function is called with the attempt numbers 1, 2, ... up to the
    counter, and with [retryOnInitFail] truthy but no function every
    attempt so far was followed by its wait. *)
Theorem attempts_and_waits
    (cfg : Config) (p : Pool) (inputs : list Input) (b : Builder) :
  run cfg (new_builder cfg p []) inputs = Some b →
  (0 ≤ attempts b)%Z
  ∧ (∃ ks, sleeps (log b) = map delay ks ∧ ascending 0 (attempts b) ks)
  ∧ Forall (λ ms, (100 ≤ ms ≤ 30000)%Z) (sleeps (log b))
  ∧ (retryOnInitFail cfg = RetryHook →
     map snd (hook_calls (log b)) = map Z.of_nat (seq 1 (Z.to_nat (attempts b))))
  ∧ (retryOnInitFail cfg ≠ RetryHook → hook_calls (log b) = [])
  ∧ (retryOnInitFail cfg = RetryTruthy →
     sleeps (log b) = delays 0 (Z.to_nat (attempts b))).
Proof.
  intros Hrun.
  destruct (run_attempts_inv cfg _ inputs b Hrun (new_builder_attempts_inv cfg p))
    as (Ha & _ & (ks & Hks & Hasc) & Hhook & Hnohook & Htruthy & _).
  pose proof (ascending_weaken _ _ _ _ Hasc (slept_bound_le b)) as Hasc'.
  split_and!; try done.
  - by exists ks.
  - rewrite Hks. apply Forall_map.
    eapply Forall_impl; [by apply ascending_bounds |].
    simpl. intros k Hk. apply delay_bounds. lia.
Qed.

Lemma attempts_and_waits_witness :
  ∃ b,
    run {| watchPg := false; retryOnInitFail := RetryHook; releasePgPool := None |}
      (new_builder
         {| watchPg := false; retryOnInitFail := RetryHook; releasePgPool := None |}
         {| ended := false; on_second_end := Return tt |} [])
      [CreateSettled (Throw (External 1));
       RetryOnInitFailSettled (Return (VBool true)) (0, 60000000)%Z;
       CreateSettled (Throw (External 2));
       RetryOnInitFailSettled (Return (VBool true)) (0, 1000)%Z]
    = Some b
    ∧ attempts b = 2%Z
    ∧ sleeps (log b) = [400%Z]
    ∧ map snd (hook_calls (log b)) = [1%Z; 2%Z].
Proof.
  eexists. split; [reflexivity |].
  match goal with
  | |- attempts ?b = _ ∧ _ =>
      destruct (attempts_and_waits
                  {| watchPg := false; retryOnInitFail := RetryHook;
                     releasePgPool := None |}
                  {| ended := false; on_second_end := Return tt |}
                  [CreateSettled (Throw (External 1));
                   RetryOnInitFailSettled (Return (VBool true)) (0, 60000000)%Z;
                   CreateSettled (Throw (External 2));
                   RetryOnInitFailSettled (Return (VBool true)) (0, 1000)%Z]
                  b eq_refl)
        as (_ & _ & _ & Hhook & _)
  end.
  split; [reflexivity |]. split; [reflexivity |]. by apply Hhook.
Defined.

(** ** What the builder releases *)

Section ResourceFacts.

Implicit Types (cfg : Config) (b : Builder).

Lemma pool_ends_app (l1 l2 : list Event) :
  pool_ends (l1 ++ l2) = (pool_ends l1 + pool_ends l2)%nat.
Proof. unfold pool_ends. by rewrite omap_app, length_app. Qed.

Lemma watch_releases_app (l1 l2 : list Event) :
  watch_releases (l1 ++ l2) = (watch_releases l1 + watch_releases l2)%nat.
Proof. unfold watch_releases. by rewrite omap_app, length_app. Qed.

Lemma process_exits_app (l1 l2 : list Event) :
  process_exits (l1 ++ l2) = process_exits l1 ++ process_exits l2.
Proof. apply omap_app. Qed.

Lemma catch_error_resources cfg (e : Error) b :
  resources (catch_error cfg e b) = resources b.
Proof.
  unfold resources, catch_error.
  destruct (retryOnInitFail cfg); simpl;
    rewrite ?pool_ends_app, ?watch_releases_app; simpl;
    by rewrite ?Nat.add_0_r.
Qed.

Lemma try_build_resources cfg b : resources (try_build cfg b) = resources b.
Proof.
  unfold try_build.
  destruct (watchPg cfg); [destruct (releaseWatchFn b) |];
    try apply catch_error_resources;
    unfold resources; simpl;
    by rewrite pool_ends_app, watch_releases_app, !Nat.add_0_r.
Qed.

Lemma return_gqlSchema_resources (s : Schema) b :
  resources (return_gqlSchema s b) = resources b.
Proof.
  unfold resources, return_gqlSchema. destruct (0 <? attempts b)%Z; simpl;
    by rewrite ?pool_ends_app, ?watch_releases_app, ?Nat.add_0_r.
Qed.

(** A step that is not the hook's veto releases nothing. *)
Lemma step_resources cfg b (i : Input) b' :
  step cfg b i = Some b' →
  (∀ retry diff, i = RetryOnInitFailSettled (Return retry) diff →
                 truthy retry = true) →
  resources b' = resources b.
Proof.
  unfold step. intros Hstep Hveto.
  destruct i as [[s | e] | s | [fn | e] | [retry | e] diff |], (phase b) eqn:Hphase;
    try done; simplify_eq.
  all: try (destruct (watchPg cfg); simplify_eq;
            unfold resources, watch_callback; simpl;
            by rewrite !pool_ends_app, !watch_releases_app, !Nat.add_0_r).
  all: try apply catch_error_resources.
  - rewrite return_gqlSchema_resources. unfold resources. simpl.
    by rewrite pool_ends_app, watch_releases_app, !Nat.add_0_r.
  - simpl in Hstep. destruct (gqlSchema b); simplify_eq.
    + by rewrite return_gqlSchema_resources.
    + by rewrite catch_error_resources.
  - rewrite (Hveto retry diff eq_refl) in Hstep. simpl in Hstep.
    destruct (dur_lt_50 diff); simplify_eq; [| apply try_build_resources].
    unfold resources. simpl.
    by rewrite !pool_ends_app, !watch_releases_app, !Nat.add_0_r.
  - done.
  - apply try_build_resources.
Qed.

(** The first [releaseOnce]: it marks the builder, calls the watch's
    release function if there is one, and ends the pool if the builder
    owns it and the watch was released. *)
Local Ltac finish_release :=
  rewrite ?pool_ends_app, ?watch_releases_app; simpl;
  repeat match goal with
    | |- context [pool_ends [?e]] =>
        let v := eval compute in (pool_ends [e]) in
        change (pool_ends [e]) with v
    | |- context [watch_releases [?e]] =>
        let v := eval compute in (watch_releases [e]) in
        change (watch_releases [e]) with v
    end;
  repeat first [progress split_and! | intro];
  try done; try lia;
  try (exfalso; by eapply is_Some_None).

Lemma releaseOnce_first cfg b :
  released b = false →
  released (releaseOnce cfg b).2 = true
  ∧ (pool_ends (log (releaseOnce cfg b).2) ≤ pool_ends (log b) + 1)%nat
  ∧ (watch_releases (log (releaseOnce cfg b).2) ≤ watch_releases (log b) + 1)%nat
  ∧ (releasePgPool cfg = None →
     pool (releaseOnce cfg b).2 = pool b
     ∧ pool_ends (log (releaseOnce cfg b).2) = pool_ends (log b))
  ∧ ((releaseOnce cfg b).1 = Return tt →
     releaseWatchFn (releaseOnce cfg b).2 = None
     ∧ watch_releases (log (releaseOnce cfg b).2)
       = (watch_releases (log b)
          + match releaseWatchFn b with Some _ => 1 | None => 0 end)%nat
     ∧ pool_ends (log (releaseOnce cfg b).2)
       = (pool_ends (log b)
          + match releasePgPool cfg with Some _ => 1 | None => 0 end)%nat
     ∧ (is_Some (releasePgPool cfg) → ended (pool (releaseOnce cfg b).2) = true)).
Proof.
  destruct b as [g w r a p ph l], cfg as [watch policy rel]. simpl.
  intros ->.
  unfold releaseOnce, releaseWatch, bind, read, modify, throw, ret. simpl.
  destruct w as [fn |]; simpl.
  - destruct (release_outcome fn) as [[] | e]; simpl; [| finish_release].
    destruct rel as [[pg] |]; simpl; [| finish_release].
    unfold call, Pool_end, bind, read, modify. simpl.
    destruct (ended p) eqn:Hended; simpl;
      [destruct (on_second_end p) as [[] | e] |]; simpl; finish_release.
  - destruct rel as [[pg] |]; simpl; [| finish_release].
    unfold call, Pool_end, bind, read, modify. simpl.
    destruct (ended p) eqn:Hended; simpl;
      [destruct (on_second_end p) as [[] | e] |]; simpl; finish_release.
Qed.

(** A settled builder takes watch callbacks only, and they leave the
    phase, the counter, the waits and the calls as they are. *)
Lemma step_settled cfg b (i : Input) b' :
  in_flight b = false → step cfg b i = Some b' →
  phase b' = phase b ∧ attempts b' = attempts b
  ∧ sleeps (log b') = sleeps (log b)
  ∧ hook_calls (log b') = hook_calls (log b)
  ∧ build_calls (log b') = build_calls (log b)
  ∧ resources b' = resources b
  ∧ watchPg cfg = true ∧ ∃ s, i = WatchCallback s.
Proof.
  unfold in_flight, step. intros Hflight Hstep.
  destruct i as [[s | e] | s | [fn | e] | [retry | e] diff |], (phase b) eqn:Hphase;
    try done.
  all: destruct (watchPg cfg); simplify_eq;
    unfold resources, watch_callback; simpl;
    rewrite !sleeps_app, !hook_calls_app, !build_calls_app,
      !pool_ends_app, !watch_releases_app, !app_nil_r, !Nat.add_0_r;
    split_and!; eauto.
Qed.

Lemma run_settled cfg b (inputs : list Input) b' :
  in_flight b = false → run cfg b inputs = Some b' →
  phase b' = phase b ∧ attempts b' = attempts b
  ∧ sleeps (log b') = sleeps (log b)
  ∧ hook_calls (log b') = hook_calls (log b)
  ∧ build_calls (log b') = build_calls (log b)
  ∧ resources b' = resources b
  ∧ (inputs ≠ [] → watchPg cfg = true)
  ∧ Forall (λ i, ∃ s, i = WatchCallback s) inputs.
Proof.
  revert b. induction inputs as [| i inputs IH]; intros b Hflight Hrun.
  - simpl in Hrun. simplify_eq. split_and!; done.
  - simpl in Hrun. destruct (step cfg b i) as [b1 |] eqn:Hstep; [| done].
    destruct (step_settled cfg b i b1 Hflight Hstep)
      as (Hp & Ha & Hs & Hh & Hb & Hr & Hw & Hi).
    destruct (IH b1) as (Hp' & Ha' & Hs' & Hh' & Hb' & Hr' & _ & Hall).
    { unfold in_flight in *. by rewrite Hp. }
    { done. }
    split_and!; try congruence. by constructor.
Qed.

Lemma step_release_inv cfg (p : Pool) b (i : Input) b' :
  step cfg b i = Some b' → release_inv cfg p b → release_inv cfg p b'.
Proof.
  intros Hstep (Hfresh & Hrel & Hends & Hwatch & Hown).
  assert ((∃ retry diff e d,
             i = RetryOnInitFailSettled (Return retry) diff
             ∧ truthy retry = false
             ∧ phase b = AwaitRetryOnInitFail e d)
          ∨ ¬ (∃ retry diff e d,
                 i = RetryOnInitFailSettled (Return retry) diff
                 ∧ truthy retry = false
                 ∧ phase b = AwaitRetryOnInitFail e d))
    as [(retry & diff & e & d & -> & Hretry & Hphase) | Hnoveto].
  { destruct i as [| | | [retry |] diff |];
      try (right; intros (? & ? & ? & ? & ? & _); discriminate).
    destruct (truthy retry) eqn:Hretry;
      [right; intros (? & ? & ? & ? & ? & ? & _); simplify_eq; congruence |].
    destruct (phase b) eqn:Hphase;
      try (right; intros (? & ? & ? & ? & _ & _ & ?); discriminate).
    left. eauto 10. }
  - assert (released b = false) as Hr.
    { destruct (released b) eqn:Hr; [| done].
      destruct (Hrel eq_refl) as [e' He']. congruence. }
    destruct (Hfresh Hr) as (Hpool & Hpe & Hwr).
    destruct (releaseOnce_first cfg b Hr) as (Hmark & Hle1 & Hle2 & Hnone & _).
    unfold step in Hstep. rewrite Hphase, Hretry in Hstep. simpl in Hstep.
    destruct (releaseOnce cfg b) as [[[] | e'] b1]; simplify_eq; simpl in *;
      unfold release_inv; simpl; rewrite Hmark;
      (split_and!; [done | by eauto | lia | lia |]);
      intros Hno; destruct (Hnone Hno) as [-> ->]; by apply Hown.
  - assert (resources b' = resources b) as Hres.
    { destruct (in_flight b) eqn:Hflight.
      - eapply step_resources; [done |].
        intros retry diff ->. destruct (truthy retry) eqn:Hretry; [done |].
        exfalso. apply Hnoveto. unfold step in Hstep.
        destruct (phase b) eqn:Hphase; try done. eauto 10.
      - by destruct (step_settled cfg b i b' Hflight Hstep) as (_&_&_&_&_&?&_). }
    unfold resources in Hres. injection Hres as Hr Hp Hpe Hwr.
    unfold release_inv. rewrite Hr, Hp, Hpe, Hwr.
    split_and!; try done.
    intros Hreleased. destruct (Hrel Hreleased) as [e He].
    assert (in_flight b = false) as Hflight by (unfold in_flight; by rewrite He).
    destruct (step_settled cfg b i b' Hflight Hstep) as (Hphase & _).
    exists e. congruence.
Qed.

Lemma run_release_inv cfg (p : Pool) b (inputs : list Input) b' :
  run cfg b inputs = Some b' → release_inv cfg p b → release_inv cfg p b'.
Proof.
  revert b. induction inputs as [| i inputs IH]; intros b Hrun Hinv.
  - simpl in Hrun. by simplify_eq.
  - simpl in Hrun. destruct (step cfg b i) as [b1 |] eqn:Hstep; [| done].
    eapply IH; [done |]. by eapply step_release_inv.
Qed.

Lemma new_builder_release_inv cfg (p : Pool) :
  release_inv cfg p (new_builder cfg p []).
Proof.
  pose proof (try_build_resources cfg
                {| gqlSchema := None; releaseWatchFn := None; released := false;
                   attempts := 0; pool := p; phase := AwaitCreate; log := [] |})
    as Hres.
  unfold resources in Hres. simpl in Hres.
  change (pool_ends []) with 0%nat in Hres.
  change (watch_releases []) with 0%nat in Hres.
  injection Hres as Hr Hp Hpe Hwr.
  unfold release_inv, new_builder. rewrite Hr, Hp, Hpe, Hwr.
  split_and!; try done; lia.
Qed.

End ResourceFacts.

(** X2. Whatever settles and in whatever order: as long as the promise
    of [createGqlSchema] is not rejected, the builder has released
    nothing (not marked released, the pool as it was, no [end()], no call
    of the watch's release function); over the whole life of the builder
    the pool is ended at most once and the watch released at most once;
    and a builder without [releasePgPool] never ends the pool. *)
Theorem builder_releases_once
    (cfg : Config) (p : Pool) (inputs : list Input) (b : Builder) :
  run cfg (new_builder cfg p []) inputs = Some b →
  (released b = true → ∃ e, phase b = SchemaBuilder.Rejected e)
  ∧ ((∀ e, phase b ≠ SchemaBuilder.Rejected e) →
     released b = false ∧ pool b = p
     ∧ pool_ends (log b) = 0%nat ∧ watch_releases (log b) = 0%nat)
  ∧ (pool_ends (log b) ≤ 1)%nat
  ∧ (watch_releases (log b) ≤ 1)%nat
  ∧ (releasePgPool cfg = None → pool b = p ∧ pool_ends (log b) = 0%nat).
Proof.
  intros Hrun.
  destruct (run_release_inv cfg p _ inputs b Hrun (new_builder_release_inv cfg p))
    as (Hfresh & Hrel & Hends & Hwatch & Hown).
  split_and!; try done.
  intros Hphase.
  assert (released b = false) as Hr.
  { destruct (released b) eqn:Hr; [| done].
    destruct (Hrel eq_refl) as [e He]. by destruct (Hphase e). }
  by destruct (Hfresh Hr) as (? & ? & ?).
Qed.

Lemma builder_releases_once_witness :
  ∃ b,
    run {| watchPg := false; retryOnInitFail := RetryHook;
           releasePgPool := Some (EndPool (NewPool (literal []))) |}
      (new_builder
         {| watchPg := false; retryOnInitFail := RetryHook;
            releasePgPool := Some (EndPool (NewPool (literal []))) |}
         {| ended := false; on_second_end := Return tt |} [])
      [CreateSettled (Throw (External 1));
       RetryOnInitFailSettled (Return (VBool false)) (0, 0)%Z]
    = Some b
    ∧ pool_ends (log b) = 1%nat
    ∧ ∃ e, phase b = SchemaBuilder.Rejected e.
Proof.
  eexists. split; [reflexivity |]. split; [reflexivity |].
  match goal with
  | |- ∃ e, phase ?b = _ =>
      apply (builder_releases_once
               {| watchPg := false; retryOnInitFail := RetryHook;
                  releasePgPool := Some (EndPool (NewPool (literal []))) |}
               {| ended := false; on_second_end := Return tt |}
               [CreateSettled (Throw (External 1));
                RetryOnInitFailSettled (Return (VBool false)) (0, 0)%Z]
               b eq_refl)
  end.
  reflexivity.
Defined.

Section HookFacts.

Implicit Types (cfg : Config) (b : Builder).

Lemma releaseOnce_returns cfg b :
  released b = false → watch_release_resolves b → owned_pool_live cfg b →
  (releaseOnce cfg b).1 = Return tt.
Proof.
  intros Hr Hw Hlive. unfold releaseOnce, bind, read, modify. simpl.
  rewrite Hr.
  destruct (releaseWatch_resolves (set_released true b) Hw)
    as (b1 & -> & _ & Hpool & _).
  destruct (releasePgPool_ends cfg b1) as (b2 & -> & _); [| done].
  intros H. rewrite Hpool. by apply Hlive.
Qed.

Lemma try_build_in_flight cfg b :
  retryOnInitFail cfg = RetryHook → in_flight (try_build cfg b) = true.
Proof.
  intros Hp. unfold try_build, catch_error, in_flight. rewrite Hp.
  by destruct (watchPg cfg), (releaseWatchFn b).
Qed.

End HookFacts.

(** X3. At any point where the builder waits for the hook's answer: an
    approval keeps the build in flight and releases nothing; an error
    thrown by the hook rejects the promise with the 503 error around it
    and releases nothing; a veto marks the builder released, rejects the
    promise with the 503 error, adds no wait, and, when the release calls
    succeed (on a builder that owns a pool that has not ended), the
    error inside is the build error, the watch is released and the pool
    is ended by one [end()]. *)
Theorem hook_decides
    (cfg : Config) (p : Pool) (inputs : list Input) (b : Builder)
    (error : Error) (d : Z) :
  run cfg (new_builder cfg p []) inputs = Some b →
  phase b = AwaitRetryOnInitFail error d →
  (∀ retry diff, truthy retry = true →
     ∃ b', step cfg b (RetryOnInitFailSettled (Return retry) diff) = Some b'
           ∧ in_flight b' = true ∧ resources b' = resources b)
  ∧ (∀ e diff,
       ∃ b', step cfg b (RetryOnInitFailSettled (Throw e) diff) = Some b'
             ∧ phase b' = SchemaBuilder.Rejected (wrap e)
             ∧ resources b' = resources b)
  ∧ (∀ retry diff, truthy retry = false →
       ∃ b' e,
         step cfg b (RetryOnInitFailSettled (Return retry) diff) = Some b'
         ∧ phase b' = SchemaBuilder.Rejected (wrap e)
         ∧ released b' = true
         ∧ sleeps (log b') = sleeps (log b)
         ∧ (watch_release_resolves b → owned_pool_live cfg b →
            e = error ∧ releaseWatchFn b' = None
            ∧ (is_Some (releasePgPool cfg) →
               ended (pool b') = true ∧ pool_ends (log b') = 1%nat))).
Proof.
  intros Hrun Hphase.
  destruct (run_attempts_inv cfg _ inputs b Hrun (new_builder_attempts_inv cfg p))
    as (_ & Hd & _).
  destruct (Hd _ _ Hphase) as (_ & Hpolicy & _).
  destruct (run_release_inv cfg p _ inputs b Hrun (new_builder_release_inv cfg p))
    as (Hfresh & Hrel & _).
  assert (released b = false) as Hr.
  { destruct (released b) eqn:Hr; [| done].
    destruct (Hrel eq_refl) as [e He]. congruence. }
  destruct (Hfresh Hr) as (_ & Hpe & _).
  split_and!.
  - intros retry diff Hretry.
    assert (∃ b', step cfg b (RetryOnInitFailSettled (Return retry) diff) = Some b')
      as [b' Hstep].
    { unfold step. rewrite Hphase, Hretry. simpl.
      destruct (dur_lt_50 diff); eauto. }
    exists b'. split; [done |]. split.
    + unfold step in Hstep. rewrite Hphase, Hretry in Hstep. simpl in Hstep.
      destruct (dur_lt_50 diff); simplify_eq; [done |].
      by apply try_build_in_flight.
    + eapply step_resources; [done |]. by intros ? ? [= <- <-].
  - intros e diff. eexists. split; [unfold step; by rewrite Hphase |].
    split; [done |]. unfold resources. done.
  - intros retry diff Hretry.
    destruct (releaseOnce_first cfg b Hr) as (Hmark & _ & _ & _ & Hok).
    destruct (releaseOnce_log_frame cfg b) as (_ & Hs & _).
    pose proof (releaseOnce_returns cfg b Hr) as Hreturns.
    unfold step. rewrite Hphase, Hretry. simpl.
    destruct (releaseOnce cfg b) as [[[] | e'] b1]; simpl in *.
    + exists (set_phase (SchemaBuilder.Rejected (wrap error)) b1), error.
      split_and!; try done.
      intros Hw Hlive. destruct (Hok eq_refl) as (Hfn & _ & Hends & Hended).
      split_and!; try done.
      intros Hsome. split; [by apply Hended |].
      simpl. rewrite Hends, Hpe. by destruct Hsome as [? ->].
    + exists (set_phase (SchemaBuilder.Rejected (wrap e')) b1), e'.
      split_and!; try done.
      intros Hw Hlive. by specialize (Hreturns Hw Hlive).
Qed.

Lemma hook_decides_witness :
  ∃ b b',
    run {| watchPg := false; retryOnInitFail := RetryHook;
           releasePgPool := Some (EndPool (NewPool (literal []))) |}
      (new_builder
         {| watchPg := false; retryOnInitFail := RetryHook;
            releasePgPool := Some (EndPool (NewPool (literal []))) |}
         {| ended := false; on_second_end := Return tt |} [])
      [CreateSettled (Throw (External 1))]
    = Some b
    ∧ step {| watchPg := false; retryOnInitFail := RetryHook;
              releasePgPool := Some (EndPool (NewPool (literal []))) |}
        b (RetryOnInitFailSettled (Throw (External 9)) (0, 0)%Z)
      = Some b'
    ∧ phase b' = SchemaBuilder.Rejected (wrap (External 9))
    ∧ resources b' = resources b.
Proof.
  eexists.
  match goal with
  | |- ∃ b', run ?cfg (new_builder _ ?p _) ?inputs = Some ?b ∧ _ =>
      destruct (hook_decides cfg p inputs b (External 1) 100%Z eq_refl eq_refl)
        as (_ & Hthrow & _);
      destruct (Hthrow (External 9) (0, 0)%Z) as (b' & Hstep & Hphase & Hres)
  end.
  exists b'. split; [reflexivity |]. split_and!; done.
Defined.

(** ** Without a retry policy *)

Section FailFastFacts.

Implicit Types (cfg : Config) (b : Builder).

Lemma catch_error_fail_fast cfg (e : Error) b :
  retryOnInitFail cfg = RetryFalsy →
  length (build_calls (log b)) = 1%nat →
  attempts b = 0%Z → process_exits (log b) = [] →
  fail_fast_inv (catch_error cfg e b).
Proof.
  intros Hp Hcalls Ha Hexits. unfold fail_fast_inv, catch_error. rewrite Hp.
  simpl. rewrite !build_calls_app, !process_exits_app, Hexits, Ha. simpl.
  rewrite !app_nil_r. split; [done |]. by right.
Qed.

Lemma step_fail_fast cfg b (i : Input) b' :
  retryOnInitFail cfg = RetryFalsy →
  step cfg b i = Some b' → fail_fast_inv b → fail_fast_inv b'.
Proof.
  intros Hp Hstep [Hcalls [(Ha & Hexits & Hphase) | (Ha & Hexits & Hphase)]].
  - unfold step in Hstep.
    destruct i as [[s | e] | s | [fn | e] | [retry | e] diff |];
      destruct Hphase as [Hphase | [Hphase | [s' Hphase]]];
      rewrite Hphase in Hstep; try done; simplify_eq.
    all: try by apply catch_error_fail_fast.
    all: try (destruct (watchPg cfg); simplify_eq;
              unfold fail_fast_inv, watch_callback; simpl;
              rewrite !build_calls_app, !process_exits_app, Hexits, Hphase;
              simpl; rewrite !app_nil_r; split; [done |]; left; eauto 10).
    + unfold fail_fast_inv, return_gqlSchema. simpl. rewrite Ha. simpl.
      rewrite !build_calls_app, !process_exits_app, Hexits. simpl.
      rewrite !app_nil_r. split; [done |]. left. eauto 10.
    + simpl in Hstep. destruct (gqlSchema b) as [s |]; simplify_eq.
      * unfold fail_fast_inv, return_gqlSchema. simpl. rewrite Ha. simpl.
        split; [done |]. left. eauto 10.
      * by apply catch_error_fail_fast.
  - unfold step in Hstep. rewrite Hphase in Hstep.
    by destruct i as [[] | | [] | [] ? |].
Qed.

Lemma run_fail_fast cfg b (inputs : list Input) b' :
  retryOnInitFail cfg = RetryFalsy →
  run cfg b inputs = Some b' → fail_fast_inv b → fail_fast_inv b'.
Proof.
  intros Hp. revert b. induction inputs as [| i inputs IH]; intros b Hrun Hinv.
  - simpl in Hrun. by simplify_eq.
  - simpl in Hrun. destruct (step cfg b i) as [b1 |] eqn:Hstep; [| done].
    eapply IH; [done |]. by eapply step_fail_fast.
Qed.

Lemma new_builder_fail_fast cfg (p : Pool) : fail_fast_inv (new_builder cfg p []).
Proof.
  unfold fail_fast_inv, new_builder, try_build.
  destruct (watchPg cfg); simpl; (split; [done |]); left; eauto 10.
Qed.

End FailFastFacts.

(** X4. Without a retry policy ([retryOnInitFail] falsy) the builder
    makes one build call and no other: it is awaited, or has resolved, or
    has failed, and that one failure (the consistency error of the watch
    among them) has ended the process with [process.exit(34)]; no hook is
    called, nothing is waited for, and after the exit no input is taken. *)
Theorem no_retry_policy_fails_fast
    (cfg : Config) (p : Pool) (inputs : list Input) (b : Builder) :
  retryOnInitFail cfg = RetryFalsy →
  run cfg (new_builder cfg p []) inputs = Some b →
  length (build_calls (log b)) = 1%nat
  ∧ hook_calls (log b) = [] ∧ sleeps (log b) = []
  ∧ ((attempts b = 0%Z ∧ process_exits (log b) = []
      ∧ (phase b = AwaitCreate ∨ phase b = AwaitWatch ∨ ∃ s, phase b = Resolved s))
     ∨ (attempts b = 1%Z ∧ process_exits (log b) = [34%Z]
        ∧ phase b = Exited 34 ∧ ∀ i, step cfg b i = None)).
Proof.
  intros Hp Hrun.
  destruct (run_fail_fast cfg _ inputs b Hp Hrun (new_builder_fail_fast cfg p))
    as [Hcalls Hcases].
  destruct (run_attempts_inv cfg _ inputs b Hrun (new_builder_attempts_inv cfg p))
    as (_ & _ & _ & _ & Hnohook & _ & Hfalsy).
  split_and!; try done.
  - apply Hnohook. by rewrite Hp.
  - by apply Hfalsy.
  - destruct Hcases as [? | (Ha & Hexits & Hphase)]; [by left | right].
    split_and!; try done.
    intros i. unfold step. rewrite Hphase. by destruct i as [[] | | [] | [] ? |].
Qed.

Lemma no_retry_policy_fails_fast_witness :
  ∃ b,
    run {| watchPg := true; retryOnInitFail := RetryFalsy; releasePgPool := None |}
      (new_builder
         {| watchPg := true; retryOnInitFail := RetryFalsy; releasePgPool := None |}
         {| ended := false; on_second_end := Return tt |} [])
      [WatchSettled (Return {| release_id := 0; release_outcome := Return tt |})]
    = Some b
    ∧ phase b = Exited 34
    ∧ sleeps (log b) = [].
Proof.
  eexists. split; [reflexivity |]. split; [reflexivity |].
  match goal with
  | |- sleeps (log ?b) = [] =>
      apply (no_retry_policy_fails_fast
               {| watchPg := true; retryOnInitFail := RetryFalsy;
                  releasePgPool := None |}
               {| ended := false; on_second_end := Return tt |}
               [WatchSettled (Return {| release_id := 0; release_outcome := Return tt |})]
               b eq_refl eq_refl)
  end.
Defined.

(** ** Settled builders and the watch callback *)

(** X5. Once the promise of [createGqlSchema] is resolved or rejected, or
    the process has exited, the phase never changes again and the
    builder makes no further build call, hook call, wait or release;
    what it still takes is the watch callback, in watch mode and not
    after an exit. *)
Theorem settled_is_final
    (cfg : Config) (b : Builder) (inputs : list Input) (b' : Builder) :
  in_flight b = false →
  run cfg b inputs = Some b' →
  phase b' = phase b ∧ attempts b' = attempts b
  ∧ sleeps (log b') = sleeps (log b)
  ∧ hook_calls (log b') = hook_calls (log b)
  ∧ build_calls (log b') = build_calls (log b)
  ∧ resources b' = resources b
  ∧ Forall (λ i, ∃ s, i = WatchCallback s) inputs
  ∧ (inputs ≠ [] → watchPg cfg = true ∧ ∀ code, phase b ≠ Exited code).
Proof.
  intros Hflight Hrun.
  destruct (run_settled cfg b inputs b' Hflight Hrun)
    as (Hp & Ha & Hs & Hh & Hb & Hr & Hw & Hall).
  split_and!; try done.
  intros Hne. split; [by apply Hw |].
  intros code Hexit. destruct inputs as [| i inputs]; [done |].
  simpl in Hrun. unfold step in Hrun. rewrite Hexit in Hrun.
  by destruct i as [[] | | [] | [] ? |].
Qed.

Lemma settled_is_final_witness :
  ∃ b',
    run {| watchPg := true; retryOnInitFail := RetryFalsy; releasePgPool := None |}
      {| gqlSchema := Some 1%nat; releaseWatchFn := None; released := false;
         attempts := 0; pool := {| ended := false; on_second_end := Return tt |};
         phase := Resolved 1%nat; log := [] |}
      [WatchCallback 2%nat]
    = Some b'
    ∧ phase b' = Resolved 1%nat
    ∧ build_calls (log b') = [].
Proof.
  eexists. split; [reflexivity |].
  match goal with
  | |- phase ?b' = _ ∧ _ =>
      destruct (settled_is_final
                  {| watchPg := true; retryOnInitFail := RetryFalsy;
                     releasePgPool := None |}
                  {| gqlSchema := Some 1%nat; releaseWatchFn := None;
                     released := false; attempts := 0;
                     pool := {| ended := false; on_second_end := Return tt |};
                     phase := Resolved 1%nat; log := [] |}
                  [WatchCallback 2%nat] b' eq_refl eq_refl)
        as (Hp & _ & _ & _ & Hb & _)
  end.
  split; [exact Hp | exact Hb].
Defined.

Section WatchFacts.

Implicit Types (cfg : Config) (b : Builder).

Lemma schemas_changed_app (l1 l2 : list Event) :
  schemas_changed (l1 ++ l2) = (schemas_changed l1 + schemas_changed l2)%nat.
Proof. unfold schemas_changed. by rewrite omap_app, length_app. Qed.

Lemma watch_callbacks_run cfg (ss : list Schema) b :
  watchPg cfg = true → (∀ code, phase b ≠ Exited code) →
  ∃ b', run cfg b (map WatchCallback ss) = Some b'
        ∧ gqlSchema b' = from_option Some (gqlSchema b) (last ss)
        ∧ phase b' = phase b
        ∧ attempts b' = attempts b
        ∧ resources b' = resources b
        ∧ build_calls (log b') = build_calls (log b)
        ∧ schemas_changed (log b') = (schemas_changed (log b) + length ss)%nat.
Proof.
  intros Hw. revert b. induction ss as [| s ss IH]; intros b Hphase.
  - exists b. simpl. split_and!; try done; lia.
  - destruct (IH (watch_callback s b)) as (b' & Hrun & Hg & Hp & Ha & Hr & Hb & Hc).
    { done. }
    exists b'. split_and!.
    + simpl. unfold step. rewrite Hw.
      destruct (phase b) eqn:Hph; try done. by destruct (Hphase code).
    + rewrite Hg, last_cons. simpl. by destruct (last ss).
    + done.
    + done.
    + rewrite Hr. unfold resources. simpl.
      by rewrite !pool_ends_app, !watch_releases_app, !Nat.add_0_r.
    + rewrite Hb. simpl. by rewrite !build_calls_app, !app_nil_r.
    + rewrite Hc. simpl. rewrite !schemas_changed_app.
      change (schemas_changed [EmitSchemasChanged]) with 1%nat.
      change (schemas_changed [CallExportGqlSchema s]) with 0%nat. lia.
Qed.

End WatchFacts.

(** X6. In watch mode, at any time before an exit, the callback may come
    any number of times: after it [getGraphQLSchema] resolves to the
    snapshot delivered last, [schemas:changed] has been emitted once per
    delivery, and the phase, the attempt counter, the build calls and the
    resources are as before. Without watch mode no callback is taken. *)
Theorem watch_callbacks_swap_snapshot
    (cfg : Config) (b : Builder) (ss : list Schema) (s : Schema) :
  (watchPg cfg = true → (∀ code, phase b ≠ Exited code) →
   ∃ b', run cfg b (map WatchCallback (ss ++ [s])) = Some b'
         ∧ SchemaBuilder.getGraphQLSchema b' = PromiseResolve s
         ∧ phase b' = phase b
         ∧ attempts b' = attempts b
         ∧ resources b' = resources b
         ∧ build_calls (log b') = build_calls (log b)
         ∧ schemas_changed (log b')
           = (schemas_changed (log b) + length ss + 1)%nat)
  ∧ (watchPg cfg = false → ∀ rest, run cfg b (WatchCallback s :: rest) = None).
Proof.
  split.
  - intros Hw Hphase.
    destruct (watch_callbacks_run cfg (ss ++ [s]) b Hw Hphase)
      as (b' & Hrun & Hg & Hp & Ha & Hr & Hb & Hc).
    exists b'. rewrite last_snoc in Hg. simpl in Hg.
    rewrite length_app in Hc. simpl in Hc.
    split_and!; try done.
    + unfold SchemaBuilder.getGraphQLSchema. by rewrite Hg.
    + lia.
  - intros Hw rest. simpl. unfold step. rewrite Hw. by destruct (phase b).
Qed.

Lemma watch_callbacks_swap_snapshot_witness :
  ∃ b',
    run {| watchPg := true; retryOnInitFail := RetryFalsy; releasePgPool := None |}
      {| gqlSchema := Some 1%nat; releaseWatchFn := None; released := false;
         attempts := 0; pool := {| ended := false; on_second_end := Return tt |};
         phase := Resolved 1%nat; log := [] |}
      (map WatchCallback ([2%nat] ++ [3%nat]))
    = Some b'
    ∧ SchemaBuilder.getGraphQLSchema b' = PromiseResolve 3%nat
    ∧ phase b' = Resolved 1%nat.
Proof.
  destruct (watch_callbacks_swap_snapshot
              {| watchPg := true; retryOnInitFail := RetryFalsy;
                 releasePgPool := None |}
              {| gqlSchema := Some 1%nat; releaseWatchFn := None;
                 released := false; attempts := 0;
                 pool := {| ended := false; on_second_end := Return tt |};
                 phase := Resolved 1%nat; log := [] |}
              [2%nat] 3%nat) as [Hwatch _].
  destruct Hwatch as (b' & Hrun & Hg & Hp & _); [done | done |].
  exists b'. split_and!; done.
Defined.

(** ** Releasing more than once *)

Section ReleaseAgainFacts.

Implicit Types (cfg : Config) (b : Builder).

Lemma releaseWatch_cases b :
  match releaseWatchFn b with
  | None => releaseWatch b = (Return tt, b)
  | Some f =>
      releaseWatch b
      = (release_outcome f,
         match release_outcome f with
         | Return _ =>
             set_releaseWatchFn None (emit (CallReleaseWatchFn (release_id f)) b)
         | Throw _ => emit (CallReleaseWatchFn (release_id f)) b
         end)
  end.
Proof.
  unfold releaseWatch, bind, read, modify, ret. simpl.
  destruct (releaseWatchFn b) as [f |]; [| done]. simpl.
  by destruct (release_outcome f) as [[] | e].
Qed.

End ReleaseAgainFacts.

(** X7. The handler's [release]: when the watch's release function
    throws, [release] throws that error before the pool is touched (no
    [end()], the pool as it was) and the function stays in place for a
    later call; when [release] returns, the watch's function is gone, a
    second [release] does not call it again, and that second [release]
    returns at once on a handler that does not own its pool and gives
    the library's answer to a second [end()] on one that does. *)
Theorem release_again (cfg : Config) (b : Builder) :
  (∀ f e, releaseWatchFn b = Some f → release_outcome f = Throw e →
          (release cfg b).1 = Throw e
          ∧ pool (release cfg b).2 = pool b
          ∧ pool_ends (log (release cfg b).2) = pool_ends (log b)
          ∧ releaseWatchFn (release cfg b).2 = Some f)
  ∧ ((release cfg b).1 = Return tt →
     let once := (release cfg b).2 in
     releaseWatchFn once = None
     ∧ watch_releases (log (release cfg once).2) = watch_releases (log once)
     ∧ (releasePgPool cfg = None → release cfg once = (Return tt, once))
     ∧ (is_Some (releasePgPool cfg) → ended (pool b) = false →
        ended (pool once) = true
        ∧ (release cfg once).1 = on_second_end (pool b))).
Proof.
  split.
  - intros f e Hf He. pose proof (releaseWatch_cases b) as Hw.
    rewrite Hf, He in Hw. unfold release, bind. rewrite Hw. simpl.
    rewrite pool_ends_app.
    change (pool_ends [CallReleaseWatchFn (release_id f)]) with 0%nat.
    split_and!; try done; lia.
  - intros Hret once.
    assert (∃ b1, releaseWatch b = (Return tt, b1)
                  ∧ releaseWatchFn b1 = None ∧ pool b1 = pool b) as (b1 & Hw & Hfn & Hp).
    { pose proof (releaseWatch_cases b) as Hw.
      destruct (releaseWatchFn b) as [f |] eqn:Hf.
      - destruct (release_outcome f) as [[] | e] eqn:Ho.
        + eexists. split; [exact Hw |]. done.
        + unfold release, bind in Hret. rewrite Hw in Hret. done.
      - exists b. by rewrite Hw. }
    assert (releaseWatch b1 = (Return tt, b1)) as Hw1.
    { pose proof (releaseWatch_cases b1) as H. by rewrite Hfn in H. }
    destruct (releasePgPool cfg) as [[pg] |] eqn:Hrel.
    + assert (∀ b2, releaseWatchFn b2 = None →
                    releaseWatchFn (Pool_end b2).2 = None
                    ∧ watch_releases (log (Pool_end b2).2) = watch_releases (log b2))
        as Hend.
      { intros b2 H2. unfold Pool_end, bind, modify, read. simpl.
        destruct (ended (pool b2)); simpl; [destruct (on_second_end (pool b2)) |];
          simpl; rewrite watch_releases_app;
          change (watch_releases [CallPoolEnd]) with 0%nat;
          (split; [done | lia]). }
      assert (once = (Pool_end b1).2) as Honce.
      { subst once. unfold release, bind. rewrite Hw, Hrel. simpl.
        by destruct (Pool_end b1). }
      destruct (Hend b1 Hfn) as [Hfn' Hwr].
      assert (releaseWatchFn once = None) as Hfo by (by rewrite Honce).
      assert (releaseWatch once = (Return tt, once)) as Hw2.
      { pose proof (releaseWatch_cases once) as H. by rewrite Hfo in H. }
      split_and!.
      * done.
      * unfold release, bind. rewrite Hw2, Hrel. simpl.
        by destruct (Hend once Hfo) as [_ ->].
      * done.
      * intros _ Hlive. rewrite Honce.
        unfold release, bind. rewrite <- Honce, Hw2, Hrel. simpl. rewrite Honce.
        unfold Pool_end, bind, modify, read. simpl. rewrite Hp, Hlive. simpl.
        done.
    + assert (once = b1) as ->.
      { subst once. unfold release, bind. by rewrite Hw, Hrel. }
      split_and!.
      * done.
      * unfold release, bind. by rewrite Hw1, Hrel.
      * intros _. unfold release, bind. by rewrite Hw1, Hrel.
      * by intros [? ?].
Qed.

Lemma release_again_witness :
  let cfg := {| watchPg := true; retryOnInitFail := RetryFalsy;
                releasePgPool := None |} in
  let b := {| gqlSchema := Some 1%nat;
              releaseWatchFn := Some {| release_id := 3; release_outcome := Return tt |};
              released := false; attempts := 0;
              pool := {| ended := false; on_second_end := Return tt |};
              phase := Resolved 1%nat; log := [] |} in
  watch_releases (log (release cfg b).2) = 1%nat
  ∧ release cfg (release cfg b).2 = (Return tt, (release cfg b).2).
Proof.
  intros cfg b. split; [reflexivity |].
  apply (release_again cfg b); reflexivity.
Defined.

(** ** Whose pool it is *)

Section OwnershipFacts.

Implicit Types (cfg : Config) (b : Builder) (env : Env).

Lemma new_builder_release_inv_log cfg (p : Pool) (log0 : list Event) :
  pool_ends log0 = 0%nat → watch_releases log0 = 0%nat →
  release_inv cfg p (new_builder cfg p log0).
Proof.
  intros Hpe0 Hwr0.
  pose proof (try_build_resources cfg
                {| gqlSchema := None; releaseWatchFn := None; released := false;
                   attempts := 0; pool := p; phase := AwaitCreate; log := log0 |})
    as Hres.
  unfold resources in Hres. simpl in Hres. rewrite Hpe0, Hwr0 in Hres.
  injection Hres as Hr Hp Hpe Hwr.
  unfold release_inv, new_builder. rewrite Hr, Hp, Hpe, Hwr.
  split_and!; try done; lia.
Qed.

(** What a handler that [postgraphile] returns is made of. *)
Lemma postgraphile_inv env (arguments : list Value) (h : HttpRequestHandler) :
  postgraphile env arguments = Return h →
  toPgPool (Pool_super_ env) (default VUndefined (arguments !! 0%nat))
  = Return (pgPool h, releasePgPool (config h))
  ∧ ∃ log0, builder h = new_builder (config h) (pool_of env (pgPool h)) log0
            ∧ pool_ends log0 = 0%nat ∧ watch_releases log0 = 0%nat.
Proof.
  unfold postgraphile. intros H.
  repeat match type of H with
         | (match (if ?c then _ else _) with _ => _ end) = _ =>
             destruct c; try discriminate
         | (if ?c then _ else _) = _ => destruct c; try discriminate
         end.
  all: destruct (toPgPool _ _) as [[pg rel] | e]; [| discriminate];
    match type of H with
    | (if ?c then _ else _) = _ => destruct c; try discriminate
    end;
    unfold getPostgraphileSchemaBuilder in H;
    repeat match type of H with
           | context [if ?c then _ else _] => destruct c; try discriminate
           end;
    injection H as <-; simpl; (split; [done |]); eexists; (split; [done |]); done.
Qed.

End OwnershipFacts.

(** ** Releasing a handler, once and again *)

Section GuardFacts.

Implicit Types (cfg : Config) (b : Builder) (env : Env).





End GuardFacts.




(** X8. A handler built on the caller's pool never ends it: when the
    first argument passes [quacksLikePgPool], the handler's pool is that
    very argument, the handler has no [releasePgPool], and whatever
    settles while the schema is built, retried or given up, and after the
    handler's [release] too, the pool is as the caller handed it over and
    [end()] has not been called. *)
Theorem handler_keeps_callers_pool
    (env : Env) (arguments : list Value) (h : HttpRequestHandler)
    (inputs : list Input) (b : Builder) :
  postgraphile env arguments = Return h →
  quacksLikePgPool (Pool_super_ env) (default VUndefined (arguments !! 0%nat)) = true →
  run (config h) (builder h) inputs = Some b →
  let handle := default VUndefined (arguments !! 0%nat) in
  pgPool h = Supplied handle
  ∧ releasePgPool (config h) = None
  ∧ pool b = supplied_pool env handle
  ∧ pool_ends (log b) = 0%nat
  ∧ pool (release (config h) b).2 = supplied_pool env handle
  ∧ pool_ends (log (release (config h) b).2) = 0%nat.
Proof.
  intros Hh Hquack Hrun handle.
  destruct (postgraphile_inv env arguments h Hh) as (Hpool & log0 & Hb & Hpe & Hwr).
  unfold toPgPool in Hpool. fold handle in Hpool, Hquack. rewrite Hquack in Hpool.
  injection Hpool as Hpg Hrel. symmetry in Hpg, Hrel.
  rewrite Hb in Hrun.
  pose proof (run_release_inv _ _ _ _ _ Hrun
                (new_builder_release_inv_log (config h) _ log0 Hpe Hwr))
    as (_ & _ & _ & _ & Hown).
  destruct (Hown Hrel) as [Hp Hends]. rewrite Hpg in Hp. simpl in Hp.
  split_and!; try done.
  - unfold release, bind. rewrite Hrel.
    pose proof (releaseWatch_cases b) as Hw.
    destruct (releaseWatchFn b) as [f |]; rewrite Hw; [| done].
    by destruct (release_outcome f) as [[] | e].
  - unfold release, bind. rewrite Hrel.
    pose proof (releaseWatch_cases b) as Hw.
    destruct (releaseWatchFn b) as [f |]; rewrite Hw; [| done].
    destruct (release_outcome f) as [[] | e]; simpl; rewrite pool_ends_app;
      change (pool_ends [CallReleaseWatchFn (release_id f)]) with 0%nat; lia.
Qed.

Lemma handler_keeps_callers_pool_witness :
  ∃ h b,
    postgraphile plain_env [duck_pool; literal [("watchPg", VBool true)]] = Return h
    ∧ run (config h) (builder h)
        [WatchCallback 1%nat;
         WatchSettled (Return {| release_id := 2; release_outcome := Return tt |})]
      = Some b
    ∧ watch_releases (log (release (config h) b).2) = 1%nat
    ∧ pool_ends (log (release (config h) b).2) = 0%nat.
Proof.
  eexists _, _. split; [reflexivity |]. split; [reflexivity |].
  split; [reflexivity |].
  eapply (handler_keeps_callers_pool plain_env
            [duck_pool; literal [("watchPg", VBool true)]] _
            [WatchCallback 1%nat;
             WatchSettled (Return {| release_id := 2; release_outcome := Return tt |})]);
    reflexivity.
Defined.

(** X9. A handler that made its pool is the one to end it: when the
    first argument does not pass [quacksLikePgPool], the pool is a new
    one (from the connection string, from the empty configuration for a
    falsy argument, from the plain object otherwise), the handler's
    [releasePgPool] ends that pool, and on a builder whose promise is not
    rejected a [release] that returns has called [end()] exactly once and
    left the pool ended. *)
Theorem handler_ends_its_own_pool
    (env : Env) (arguments : list Value) (h : HttpRequestHandler)
    (inputs : list Input) (b : Builder) :
  postgraphile env arguments = Return h →
  quacksLikePgPool (Pool_super_ env) (default VUndefined (arguments !! 0%nat)) = false →
  run (config h) (builder h) inputs = Some b →
  let first := default VUndefined (arguments !! 0%nat) in
  pgPool h
  = NewPool (if is_string first then literal [("connectionString", first)]
             else if truthy first then first else literal [])
  ∧ releasePgPool (config h) = Some (EndPool (pgPool h))
  ∧ ((∀ e, phase b ≠ SchemaBuilder.Rejected e) →
     (release (config h) b).1 = Return tt →
     ended (pool b) = false
     ∧ pool_ends (log b) = 0%nat
     ∧ ended (pool (release (config h) b).2) = true
     ∧ pool_ends (log (release (config h) b).2) = 1%nat).
Proof.
  intros Hh Hquack Hrun first.
  destruct (postgraphile_inv env arguments h Hh) as (Hpool & log0 & Hb & Hpe & Hwr).
  unfold toPgPool in Hpool. fold first in Hpool, Hquack. rewrite Hquack in Hpool.
  assert (pgPool h
          = NewPool (if is_string first then literal [("connectionString", first)]
                     else if truthy first then first else literal [])
          ∧ releasePgPool (config h) = Some (EndPool (pgPool h))) as [Hpg Hrel].
  { destruct (is_string first); [by injection Hpool as <- <- |].
    destruct (truthy first); simpl in Hpool; [| by injection Hpool as <- <-].
    destruct (isPlainObject first); [by injection Hpool as <- <- | done]. }
  split; [done |]. split; [done |].
  intros Hphase Hret.
  rewrite Hb in Hrun.
  pose proof (run_release_inv _ _ _ _ _ Hrun
                (new_builder_release_inv_log (config h) _ log0 Hpe Hwr))
    as (Hfresh & Hreleased & _).
  assert (released b = false) as Hr.
  { destruct (released b) eqn:Hr; [| done].
    destruct (Hreleased eq_refl) as [e He]. by destruct (Hphase e). }
  destruct (Hfresh Hr) as (Hp & Hends & _).
  assert (ended (pool b) = false) as Hlive by (by rewrite Hp, Hpg).
  split; [done |]. split; [done |].
  revert Hret. unfold release, bind. rewrite Hrel.
  pose proof (releaseWatch_cases b) as Hw.
  destruct (releaseWatchFn b) as [f |]; rewrite Hw.
  - destruct (release_outcome f) as [[] | e]; [| done]. intros _. simpl.
    unfold Pool_end, bind, modify, read. simpl. rewrite Hlive. simpl.
    split; [done |]. rewrite !pool_ends_app, Hends. reflexivity.
  - intros _. simpl.
    unfold Pool_end, bind, modify, read. simpl. rewrite Hlive. simpl.
    split; [done |]. rewrite !pool_ends_app, Hends. reflexivity.
Qed.

Lemma handler_ends_its_own_pool_witness :
  ∃ h b,
    postgraphile plain_env [VString "postgres:///db"] = Return h
    ∧ run (config h) (builder h) [CreateSettled (Return 1%nat)] = Some b
    ∧ pgPool h = NewPool (literal [("connectionString", VString "postgres:///db")])
    ∧ pool_ends (log (release (config h) b).2) = 1%nat.
Proof.
  eexists _, _. split; [reflexivity |]. split; [reflexivity |].
  split.
  - eapply (handler_ends_its_own_pool plain_env [VString "postgres:///db"] _
              [CreateSettled (Return 1%nat)]); reflexivity.
  - reflexivity.
Defined.

(** ** The arguments of [postgraphile] *)

Section ArgumentFacts.

Lemma object_not_string (v : Value) : typeof v = TyObject → is_string v = false.
Proof. by destruct v. Qed.

Lemma get_set_prop (o : Value) (k k' : string) (x : Value) :
  typeof o = TyObject → o ≠ VNull →
  get_prop (set_prop o k x) k' = if String.eqb k' k then x else get_prop o k'.
Proof. by destruct o. Qed.

Lemma get_prop_truthy_object (o : Value) (k : string) :
  truthy (get_prop o k) = true → typeof o = TyObject ∧ o ≠ VNull.
Proof. by destruct o. Qed.

End ArgumentFacts.

(** X10. The call forms of [postgraphile] agree. With options [opts]
    (a truthy object that is no array): the schema defaults to
    ['public'], so [(pool, opts)], [(pool, 'public', opts)] and
    [(pool, null, opts)] give the same result, and after options in the
    second place further arguments are ignored. Without options:
    [(pool)], [(pool, null)], [(pool, 'public')] and [(pool, {})] give the
    same result, and a falsy third argument is the same as none. *)
Theorem postgraphile_call_forms (env : Env) (pool_ opts : Value) :
  typeof opts = TyObject → truthy opts = true → isArray opts = false →
  postgraphile env [pool_; VString "public"; opts] = postgraphile env [pool_; opts]
  ∧ postgraphile env [pool_; VNull; opts] = postgraphile env [pool_; opts]
  ∧ (∀ rest, postgraphile env (pool_ :: opts :: rest) = postgraphile env [pool_; opts])
  ∧ postgraphile env [pool_; VNull] = postgraphile env [pool_]
  ∧ postgraphile env [pool_; VString "public"] = postgraphile env [pool_]
  ∧ postgraphile env [pool_; literal []] = postgraphile env [pool_]
  ∧ (∀ schema third,
       is_string schema || isArray schema = true → truthy third = false →
       postgraphile env [pool_; schema; third] = postgraphile env [pool_; schema]).
Proof.
  intros Hty Htruthy Harr.
  pose proof (object_not_string opts Hty) as Hstr.
  unfold postgraphile. simpl.
  rewrite Hstr, Harr, Hty. simpl. unfold or_else.
  repeat (rewrite Htruthy; simpl).
  split_and!; try done.
  intros schema third Hschema Hthird. by rewrite Hschema, Hthird.
Qed.

Lemma postgraphile_call_forms_witness :
  postgraphile plain_env [duck_pool; VNull; literal [("watchPg", VBool true)]]
  = postgraphile plain_env [duck_pool; literal [("watchPg", VBool true)]].
Proof.
  apply (postgraphile_call_forms plain_env duck_pool
           (literal [("watchPg", VBool true)])); reflexivity.
Defined.

(** X11. The order of the argument checks of [postgraphile]. A second
    argument that is present but is no string, array, object or [null]
    (an explicit [undefined] too) is reported first, whatever the first
    argument is; then an [undefined] first argument; then a first
    argument [toPgPool] rejects. None of the three outcomes depends on
    the options or on the plugin hook. *)
Theorem postgraphile_argument_checks (env : Env) (first second : Value) (rest : list Value) :
  let second_ok :=
    is_string second || isArray second || bool_decide (typeof second = TyObject) in
  (second_ok = false →
   postgraphile env (first :: second :: rest)
   = Throw (JsError "The second argument to postgraphile was invalid... did you mean to set a schema?"))
  ∧ (second_ok = true →
     postgraphile env (VUndefined :: second :: rest)
     = Throw (JsError "The first argument to postgraphile was `undefined`... did you mean to set pool options?"))
  ∧ (second_ok = true → typeof first ≠ TyUndefined →
     ∀ e, toPgPool (Pool_super_ env) first = Throw e →
          postgraphile env (first :: second :: rest) = Throw e
          ∧ postgraphile env [first] = Throw e).
Proof.
  intros second_ok. subst second_ok. unfold postgraphile. simpl.
  split_and!.
  - intros Hbad. apply orb_false_iff in Hbad as [Hbad Hobj].
    rewrite Hbad, Hobj. done.
  - intros Hok. apply orb_true_iff in Hok as [-> | ->]; [done |].
    by destruct (is_string second || isArray second).
  - intros Hok Hfirst e Hpool.
    rewrite (bool_decide_eq_false_2 _ Hfirst). simpl. rewrite Hpool.
    split; [| done].
    apply orb_true_iff in Hok as [-> | ->]; [done |].
    by destruct (is_string second || isArray second).
Qed.

Lemma postgraphile_argument_checks_witness :
  postgraphile plain_env [VUndefined; VUndefined; literal []]
  = Throw (JsError "The second argument to postgraphile was invalid... did you mean to set a schema?")
  ∧ postgraphile plain_env [VNumber 5432; VString "public"]
    = Throw (JsError "Invalid connection string / Pool ").
Proof.
  split.
  - exact (proj1 (postgraphile_argument_checks plain_env VUndefined VUndefined
                     [literal []]) eq_refl).
  - refine (proj1 (proj2 (proj2 (postgraphile_argument_checks plain_env
                                   (VNumber 5432) (VString "public") []))
                     eq_refl _ _ eq_refl)).
    discriminate.
Defined.

(** X12. The options the builder works with, on a server without
    plugins (the [postgraphile:options] hook hands its input back): when
    [live] is truthy and [subscriptions] is [undefined] or [null],
    [subscriptions] becomes [true]; an explicit [subscriptions] (a
    [false] too) is kept, and then the options are the incoming ones;
    every other option reads as it came in; and a builder is only
    returned when [handleErrors] is not combined with [extendedErrors] or
    [showErrorStack]. *)
Theorem options_live_implies_subscriptions
    (env : Env) (p : PgPool) (schema incoming : Value) (rel : option Callback)
    (opts : Value) (cfg : Config) (b : Builder) :
  (∀ o pg s, options_hook env o pg s = o) →
  getPostgraphileSchemaBuilder env p schema incoming rel = Return (opts, cfg, b) →
  (∀ k, k ≠ "subscriptions" → get_prop opts k = get_prop incoming k)
  ∧ (truthy (get_prop incoming "live") = true →
     get_prop opts "subscriptions"
     = if loosely_null (get_prop incoming "subscriptions") then VBool true
       else get_prop incoming "subscriptions")
  ∧ (truthy (get_prop incoming "live") = false
     ∨ loosely_null (get_prop incoming "subscriptions") = false →
     opts = incoming)
  ∧ (truthy (get_prop opts "handleErrors") = true →
     truthy (get_prop opts "extendedErrors") = false
     ∧ truthy (get_prop opts "showErrorStack") = false)
  ∧ watchPg cfg = truthy (get_prop incoming "watchPg")
  ∧ releasePgPool cfg = rel.
Proof.
  intros Hhook. unfold getPostgraphileSchemaBuilder. rewrite !Hhook.
  set (normal := if truthy (get_prop incoming "live")
                    && loosely_null (get_prop incoming "subscriptions")
                 then set_prop incoming "subscriptions" (VBool true)
                 else incoming).
  intros H.
  destruct (loosely_null normal); [done |].
  destruct (truthy (get_prop normal "handleErrors")
            && (truthy (get_prop normal "extendedErrors")
                || truthy (get_prop normal "showErrorStack"))) eqn:Hconf; [done |].
  injection H as <- <- <-. simpl.
  assert (∀ k, k ≠ "subscriptions" → get_prop normal k = get_prop incoming k) as Hframe.
  { intros k Hk. subst normal.
    destruct (truthy (get_prop incoming "live")) eqn:Hlive; [| done].
    destruct (loosely_null (get_prop incoming "subscriptions")); [| done]. simpl.
    destruct (get_prop_truthy_object _ _ Hlive) as [Hty Hnn].
    rewrite get_set_prop by done.
    by rewrite (proj2 (String.eqb_neq _ _) Hk). }
  split_and!.
  - done.
  - intros Hlive. subst normal. rewrite Hlive. simpl.
    destruct (loosely_null (get_prop incoming "subscriptions")); [| done].
    destruct (get_prop_truthy_object _ _ Hlive) as [Hty Hnn].
    by rewrite get_set_prop.
  - subst normal. intros [-> | ->]; [done |]. by rewrite andb_false_r.
  - intros Hhandle. rewrite Hhandle in Hconf. simpl in Hconf.
    by apply orb_false_iff in Hconf.
  - by rewrite Hframe.
  - done.
Qed.

Lemma options_live_implies_subscriptions_witness :
  ∃ opts cfg b,
    getPostgraphileSchemaBuilder plain_env (Supplied duck_pool) (VString "public")
      (literal [("live", VBool true); ("watchPg", VBool true)]) None
    = Return (opts, cfg, b)
    ∧ get_prop opts "subscriptions" = VBool true
    ∧ get_prop opts "watchPg" = VBool true.
Proof.
  eexists _, _, _. split; [reflexivity |]. split.
  - eapply (options_live_implies_subscriptions plain_env (Supplied duck_pool)
              (VString "public")
              (literal [("live", VBool true); ("watchPg", VBool true)]) None);
      reflexivity.
  - reflexivity.
Defined.

(** ** The life of a context slot *)

Section SlotLifeFacts.

Implicit Types (st : Keepalive) (ws : Socket).

Lemma no_contexts_home : entries_point_home no_contexts.
Proof. intros k p H. simpl in H. by rewrite lookup_empty in H. Qed.

Lemma release_home ws opId st :
  entries_point_home st →
  entries_point_home (releaseContextForSocketAndOpId ws opId st).
Proof.
  intros Hinv. unfold releaseContextForSocketAndOpId.
  destruct (keepalivePromisesByContextKey st !! contextKey ws opId)
    as [[p |] |] eqn:Hk; [| done | done].
  intros k q Hq. simpl in *.
  destruct (decide (k = contextKey ws opId)) as [-> | Hne].
  - by rewrite lookup_insert_eq in Hq.
  - rewrite lookup_insert_ne in Hq by done.
    destruct (Hinv k q Hq) as (d & Hd & Hslot).
    destruct (decide (p = q)) as [<- | Hpq].
    + exists (resolve d). by rewrite list_lookup_alter_eq, Hd.
    + exists d. by rewrite list_lookup_alter_ne.
Qed.

Lemma install_home ctx ws opId st :
  entries_point_home st → entries_point_home (install ctx ws opId st).2.
Proof.
  intros Hinv k q Hq. simpl in *.
  destruct (decide (k = contextKey ws opId)) as [-> | Hne].
  - rewrite lookup_insert_eq in Hq. simplify_eq.
    exists {| resolved := false; context := ctx; slot := contextKey ws opId |}.
    split; [| done].
    rewrite lookup_app_r by done. by rewrite Nat.sub_diag.
  - rewrite lookup_insert_ne in Hq by done.
    destruct (Hinv k q Hq) as (d & Hd & Hslot).
    exists d. split; [| done]. by apply lookup_app_l_Some.
Qed.

Lemma apply_op_home (op : SlotOp) st :
  entries_point_home st → entries_point_home (apply_op st op).
Proof.
  intros Hinv. destruct op; simpl.
  - by apply install_home, release_home.
  - by apply release_home.
Qed.

Lemma apply_ops_home (ops : list SlotOp) st :
  entries_point_home st → entries_point_home (foldl apply_op st ops).
Proof.
  revert st. induction ops as [| op ops IH]; intros st Hinv; [done |].
  simpl. by apply IH, apply_op_home.
Qed.

(** A release leaves alone what belongs to other keys. *)
Lemma release_frame ws opId st :
  entries_point_home st →
  (∀ promise d, deferreds st !! promise = Some d → slot d ≠ contextKey ws opId →
                deferreds (releaseContextForSocketAndOpId ws opId st) !! promise = Some d)
  ∧ (∀ k, k ≠ contextKey ws opId →
          keepalivePromisesByContextKey (releaseContextForSocketAndOpId ws opId st) !! k
          = keepalivePromisesByContextKey st !! k)
  ∧ length (deferreds (releaseContextForSocketAndOpId ws opId st))
    = length (deferreds st).
Proof.
  intros Hinv. unfold releaseContextForSocketAndOpId.
  destruct (keepalivePromisesByContextKey st !! contextKey ws opId)
    as [[p |] |] eqn:Hk; [| done | done].
  simpl. split_and!.
  - intros q d Hq Hslot.
    destruct (Hinv _ _ Hk) as (dp & Hp & Hhome).
    destruct (decide (p = q)) as [<- | Hpq]; [by simplify_eq |].
    by rewrite list_lookup_alter_ne.
  - intros k Hne. by rewrite lookup_insert_ne.
  - by rewrite length_alter.
Qed.

Lemma release_idempotent ws opId st :
  releaseContextForSocketAndOpId ws opId (releaseContextForSocketAndOpId ws opId st)
  = releaseContextForSocketAndOpId ws opId st.
Proof.
  unfold releaseContextForSocketAndOpId at 2 3.
  destruct (keepalivePromisesByContextKey st !! contextKey ws opId)
    as [[p |] |] eqn:Hk.
  - unfold releaseContextForSocketAndOpId. simpl. by rewrite lookup_insert_eq.
  - unfold releaseContextForSocketAndOpId. by rewrite Hk.
  - unfold releaseContextForSocketAndOpId. by rewrite Hk.
Qed.

Lemma grows_refl st : grows st st.
Proof. split_and!; [done | done |]. intros p d Hd. by exists d. Qed.

Lemma grows_trans st1 st2 st3 : grows st1 st2 → grows st2 st3 → grows st1 st3.
Proof.
  intros (Hk1 & Hl1 & Hd1) (Hk2 & Hl2 & Hd2). split_and!.
  - intros k Hk. by apply Hk2, Hk1.
  - lia.
  - intros p d Hd.
    destruct (Hd1 p d Hd) as (d' & Hd' & Hc & Hs & Hr).
    destruct (Hd2 p d' Hd') as (d'' & Hd'' & Hc' & Hs' & Hr').
    exists d''. split_and!; [done | congruence | congruence | ].
    intros H. by apply Hr', Hr.
Qed.

Lemma release_grows ws opId st : grows st (releaseContextForSocketAndOpId ws opId st).
Proof.
  unfold releaseContextForSocketAndOpId.
  destruct (keepalivePromisesByContextKey st !! contextKey ws opId)
    as [[p |] |] eqn:Hk; [| apply grows_refl..].
  split_and!; simpl.
  - intros k Hsome.
    destruct (decide (k = contextKey ws opId)) as [-> | Hne].
    + by rewrite lookup_insert_eq.
    + by rewrite lookup_insert_ne.
  - by rewrite length_alter.
  - intros q d Hq.
    destruct (decide (p = q)) as [<- | Hpq].
    + exists (resolve d). by rewrite list_lookup_alter_eq, Hq.
    + exists d. by rewrite list_lookup_alter_ne.
Qed.

Lemma install_grows ctx ws opId st : grows st (install ctx ws opId st).2.
Proof.
  split_and!; simpl.
  - intros k Hsome.
    destruct (decide (k = contextKey ws opId)) as [-> | Hne].
    + by rewrite lookup_insert_eq.
    + by rewrite lookup_insert_ne.
  - rewrite length_app. lia.
  - intros q d Hq. exists d. split_and!; try done. by apply lookup_app_l_Some.
Qed.

Lemma apply_op_grows (op : SlotOp) st : grows st (apply_op st op).
Proof.
  destruct op; simpl.
  - eapply grows_trans; [apply release_grows | apply install_grows].
  - apply release_grows.
Qed.

Lemma apply_ops_grows (ops : list SlotOp) st : grows st (foldl apply_op st ops).
Proof.
  revert st. induction ops as [| op ops IH]; intros st; [apply grows_refl |].
  simpl. eapply grows_trans; [apply apply_op_grows | apply IH].
Qed.

End SlotLifeFacts.

(** X13. Completing an operation ([onOperationComplete], [onComplete])
    releases what was made for its key and nothing else: after any
    sequence of calls, a release for a socket and operation leaves every
    deferred of that key resolved (the earlier ones of the same key
    too), leaves the deferreds and the entries of all other keys as they
    were, makes no deferred, and is without effect when repeated. Adding
    a context likewise leaves the other keys alone. *)
Theorem completion_releases_its_own
    (ops : list SlotOp) (ctx : Value) (ws : Socket) (opId : string) :
  let st := foldl apply_op no_contexts ops in
  let key := contextKey ws opId in
  let released_ := releaseContextForSocketAndOpId ws opId st in
  let added := (addContextForSocketAndOpId ctx ws opId st).2 in
  (∀ promise d, deferreds released_ !! promise = Some d → slot d = key →
                resolved d = true)
  ∧ (∀ promise d, deferreds st !! promise = Some d → slot d ≠ key →
                  deferreds released_ !! promise = Some d
                  ∧ deferreds added !! promise = Some d)
  ∧ (∀ k, k ≠ key →
          keepalivePromisesByContextKey released_ !! k
          = keepalivePromisesByContextKey st !! k
          ∧ keepalivePromisesByContextKey added !! k
            = keepalivePromisesByContextKey st !! k)
  ∧ length (deferreds released_) = length (deferreds st)
  ∧ releaseContextForSocketAndOpId ws opId released_ = released_.
Proof.
  intros st key released_ added.
  assert (slots_consistent st) as Hcons
    by apply apply_ops_consistent, no_contexts_consistent.
  assert (entries_point_home st) as Hhome
    by apply apply_ops_home, no_contexts_home.
  destruct (release_frame ws opId st Hhome) as (Hdef & Hmap & Hlen).
  split_and!.
  - intros p d Hd Hslot. destruct (resolved d) eqn:Hres; [done |].
    pose proof (release_consistent ws opId st Hcons p d Hd Hres) as Hentry.
    rewrite Hslot in Hentry. by destruct (release_clears ws opId st p).
  - intros p d Hd Hslot. split; [by apply Hdef |].
    subst added. unfold addContextForSocketAndOpId. simpl.
    apply lookup_app_l_Some. by apply Hdef.
  - intros k Hne. split; [by apply Hmap |].
    subst added. unfold addContextForSocketAndOpId. simpl.
    rewrite lookup_insert_ne by done. by apply Hmap.
  - done.
  - apply release_idempotent.
Qed.

(** X14. Nothing is ever taken back from the slots. Over any sequence of
    calls from any state: a key that is in the map stays in it (a
    released key is set to [null], not deleted), every deferred keeps its
    place, its key and the context put on it, and a resolved deferred
    stays resolved. *)
Theorem slots_only_grow (ops : list SlotOp) (st : Keepalive) :
  let st' := foldl apply_op st ops in
  (∀ k, is_Some (keepalivePromisesByContextKey st !! k) →
        is_Some (keepalivePromisesByContextKey st' !! k))
  ∧ (length (deferreds st) ≤ length (deferreds st'))%nat
  ∧ (∀ promise d,
       deferreds st !! promise = Some d →
       ∃ d', deferreds st' !! promise = Some d'
             ∧ context d' = context d ∧ slot d' = slot d
             ∧ (resolved d = true → resolved d' = true)).
Proof. apply apply_ops_grows. Qed.

(** ** [lowerCaseKeys] *)

Section LowerCaseFacts.

Context `{Builtins}.

Lemma assign_plain (memo : Dict) (key : string) (value : Value) :
  key ≠ "__proto__" →
  assign memo key value = {| own := <[key := value]> (own memo); proto := proto memo |}.
Proof.
  intros Hne. unfold assign.
  by rewrite (proj2 (String.eqb_neq _ _) Hne).
Qed.

Lemma lowerCaseKeys_plain (obj : list (string * Value)) :
  (∀ kv, kv ∈ obj → toLowerCase kv.1 ≠ "__proto__") →
  proto (lowerCaseKeys obj) = None
  ∧ own (lowerCaseKeys obj)
    = list_to_map (reverse (map (λ kv, (toLowerCase kv.1, kv.2)) obj)).
Proof.
  induction obj as [| [k0 v0] obj IH] using rev_ind; intros Hplain; [done |].
  rewrite lowerCaseKeys_snoc, assign_plain
    by (apply (Hplain (k0, v0)), elem_of_app; right; by apply list_elem_of_singleton).
  destruct IH as [Hproto Hown];
    [intros kv Hin; apply Hplain, elem_of_app; by left |].
  simpl. split; [done |].
  rewrite map_app, reverse_app. simpl. by rewrite Hown.
Qed.

(** An object without own [__proto__] and with [Object.prototype]: the
    assignment reaches the setter. *)
Lemma plain_inherits_accessor (obj : list (string * Value)) :
  (∀ kv, kv ∈ obj → toLowerCase kv.1 ≠ "__proto__") →
  inherits_accessor (lowerCaseKeys obj) = true.
Proof.
  intros Hplain. destruct (lowerCaseKeys_plain obj Hplain) as [Hproto _].
  unfold inherits_accessor. rewrite Hproto.
  destruct (own (lowerCaseKeys obj) !! "__proto__") as [v |] eqn:Hown; [| done].
  destruct (lowerCaseKeys_own obj _ _ Hown) as (k' & Hin & Hk').
  by destruct (Hplain (k', v) Hin).
Qed.

End LowerCaseFacts.

(** X15. What [lowerCaseKeys] builds, whatever [toLowerCase] answers.
    Every own key of the result is the lower-cased name of a property of
    the input and has that property's value; two names with the same
    lower-cased name fall on one key, and the later property (in the
    order of [Object.keys]) wins; a property leaves the other keys
    alone; without a name that lower-cases to [__proto__], the result is
    an ordinary object holding exactly these keys. The first name that
    lower-cases to [__proto__] goes to the setter of [Object.prototype]:
    with an object value it becomes the prototype of the result, not a
    key of it, so that its properties are read through the result while
    a spread does not copy them; with [null] the result has no
    prototype; with another value nothing happens. A second such name is
    an own key of the result when the prototype is [null], has no
    prototype itself or has [__proto__] as its own property (as an
    object of [JSON.parse] can), and replaces the prototype otherwise. *)
Theorem lowerCaseKeys_normalises `{Builtins} (obj : list (string * Value)) :
  (∀ k v, own (lowerCaseKeys obj) !! k = Some v →
          ∃ k', (k', v) ∈ obj ∧ toLowerCase k' = k)
  ∧ (∀ k v, toLowerCase k ≠ "__proto__" →
            own (lowerCaseKeys (obj ++ [(k, v)])) !! toLowerCase k = Some v)
  ∧ (∀ k v k', k' ≠ toLowerCase k →
               own (lowerCaseKeys (obj ++ [(k, v)])) !! k'
               = own (lowerCaseKeys obj) !! k')
  ∧ ((∀ kv, kv ∈ obj → toLowerCase kv.1 ≠ "__proto__") →
     proto (lowerCaseKeys obj) = None
     ∧ own (lowerCaseKeys obj)
       = list_to_map (reverse (map (λ kv, (toLowerCase kv.1, kv.2)) obj)))
  ∧ ((∀ kv, kv ∈ obj → toLowerCase kv.1 ≠ "__proto__") →
     ∀ (name : string) (first : Value),
       toLowerCase name = "__proto__" →
       let normalized := lowerCaseKeys (obj ++ [(name, first)]) in
       own normalized = own (lowerCaseKeys obj)
       ∧ proto normalized
         = match first with
           | VNull | VObject _ | VFunction _ => Some first
           | _ => None
           end
       ∧ (∀ (o : ObjectShape Value) (k : string),
            first = VObject o →
            own (lowerCaseKeys obj) !! k = None →
            read_dict normalized k = get_prop (VObject o) k
            ∧ spread normalized ∅ !! k = None)
       ∧ (∀ (name' : string) (second : Value),
            toLowerCase name' = "__proto__" →
            let again := lowerCaseKeys (obj ++ [(name, first); (name', second)]) in
            let ordinary :=
              match first with
              | VNull => true
              | VObject o =>
                  has_own first "__proto__"
                  || match obj_proto o with ProtoNull => true | _ => false end
              | _ => false
              end in
            if ordinary
            then own again = <["__proto__" := second]> (own (lowerCaseKeys obj))
                 ∧ proto again = Some first
            else own again = own (lowerCaseKeys obj)
                 ∧ proto again
                   = match second with
                     | VNull | VObject _ | VFunction _ => Some second
                     | _ => proto normalized
                     end))
  ∧ ((∀ s, toLowerCase (toLowerCase s) = toLowerCase s) →
     ∀ k v, own (lowerCaseKeys obj) !! k = Some v → toLowerCase k = k).
Proof.
  split_and!.
  - apply lowerCaseKeys_own.
  - intros k v Hne. rewrite lowerCaseKeys_snoc, assign_plain by done.
    simpl. apply lookup_insert_eq.
  - intros k v k' Hne. rewrite lowerCaseKeys_snoc. by apply assign_own_other.
  - apply lowerCaseKeys_plain.
  - intros Hplain name first Hname normalized.
    destruct (lowerCaseKeys_plain obj Hplain) as [Hproto _].
    pose proof (plain_inherits_accessor obj Hplain) as Haccessor.
    assert (own (lowerCaseKeys obj) !! "__proto__" = None) as Hnone.
    { destruct (own (lowerCaseKeys obj) !! "__proto__") as [v |] eqn:Hown; [| done].
      destruct (lowerCaseKeys_own obj _ _ Hown) as (k' & Hin & Hk').
      by destruct (Hplain (k', v) Hin). }
    assert (normalized
            = {| own := own (lowerCaseKeys obj);
                 proto := match first with
                          | VNull | VObject _ | VFunction _ => Some first
                          | _ => None
                          end |}) as Hnormalized.
    { subst normalized. rewrite lowerCaseKeys_snoc, Hname. unfold assign.
      rewrite Haccessor. simpl.
      destruct first; try done; destruct (lowerCaseKeys obj); simpl in *;
        by subst. }
    split_and!.
    + by rewrite Hnormalized.
    + by rewrite Hnormalized.
    + intros o k -> Hk. rewrite Hnormalized.
      unfold read_dict, spread. simpl. rewrite Hk.
      split; [done |]. by rewrite (left_id ∅ (∪)).
    + intros name' second Hname' again ordinary.
      assert (again = assign normalized "__proto__" second) as ->.
      { subst again normalized.
        change [(name, first); (name', second)]
          with ([(name, first)] ++ [(name', second)]).
        by rewrite app_assoc, lowerCaseKeys_snoc, Hname'. }
      rewrite Hnormalized. unfold assign, inherits_accessor. simpl.
      rewrite Hnone. subst ordinary.
      destruct first as [| | | | | | f | o]; simpl; try by destruct second.
      destruct (bool_decide _); simpl; [done |].
      destruct (obj_proto o); simpl; try done; by destruct second.
  - intros Hidem k v Hk.
    destruct (lowerCaseKeys_own obj _ _ Hk) as (k' & _ & <-). apply Hidem.
Qed.

(** ** The first call of [enhanceHttpServerWithWebSockets] *)

Section EnhanceFacts.

Lemma enhance_resume_cases (s : nat) (websockets : Value) (server : HttpServer) :
  (websockets = VString "v0"
   ∧ enhance_resume (Return s) websockets server
     = (Return tt, with_server V0 (with_listener server)))
  ∨ (websockets = VString "v1"
     ∧ enhance_resume (Return s) websockets server
       = (Return tt, with_server V1 (with_listener server)))
  ∨ (websockets ≠ VString "v0" ∧ websockets ≠ VString "v1"
     ∧ enhance_resume (Return s) websockets server
       = (Throw (JsError ("Invalid websockets argument " +:+ String_ websockets)),
          with_listener server)).
Proof.
  destruct websockets as [| | | | | w | |];
    try (right; right; by split_and!).
  destruct (decide (w = "v0")) as [-> | H0]; [by left |].
  destruct (decide (w = "v1")) as [-> | H1]; [right; by left |].
  right. right. split_and!; [congruence | congruence |].
  unfold enhance_resume.
  repeat (destruct w as [| [[] [] [] [] [] [] [] []] w]; try done).
Qed.

Lemma enhance_calls_marked (calls : list (Result nat * Value)) (server : HttpServer) :
  truthy (postgraphileSubscriptionsEnabled server) = true →
  foldl (λ srv call, (enhanceHttpServerWithWebSockets call.1 call.2 srv).2) server calls
  = server.
Proof.
  intros Hflag. induction calls as [| [schema websockets] calls IH]; [done |].
  simpl. destruct (enhance_marked schema websockets server Hflag) as [-> _].
  apply IH.
Qed.

End EnhanceFacts.

(** X16. The first call of [enhanceHttpServerWithWebSockets] on a
    server. It returns exactly when the schema promise resolves and the
    [websockets] option is ['v0'] or ['v1'], and then the server has one
    more [upgrade] listener and one subscription server of that
    protocol. When the schema promise is rejected, the call rejects with
    that error and has installed nothing. When the option is anything
    else, the call rejects with the message about the invalid argument
    after the [upgrade] listener was installed, without a subscription
    server. In every case the server is marked, so that no later call,
    with whatever schema and options, installs anything: a server whose
    first call failed never gets its subscription server. *)
Theorem enhance_first_call
    (schema : Result nat) (websockets : Value) (server : HttpServer)
    (later : list (Result nat * Value)) :
  truthy (postgraphileSubscriptionsEnabled server) = false →
  let first := enhanceHttpServerWithWebSockets schema websockets server in
  (first.1 = Return tt
   ↔ (∃ s, schema = Return s)
     ∧ (websockets = VString "v0" ∨ websockets = VString "v1"))
  ∧ (first.1 = Return tt →
     upgradeListeners first.2 = S (upgradeListeners server)
     ∧ ∃ protocol,
         websockets
         = VString (match protocol with V0 => "v0" | V1 => "v1" end)
         ∧ subscriptionServers first.2 = subscriptionServers server ++ [protocol])
  ∧ (∀ e, schema = Throw e →
          first.1 = Throw e
          ∧ upgradeListeners first.2 = upgradeListeners server
          ∧ subscriptionServers first.2 = subscriptionServers server)
  ∧ (∀ s, schema = Return s →
          websockets ≠ VString "v0" → websockets ≠ VString "v1" →
          first.1
          = Throw (JsError ("Invalid websockets argument " +:+ String_ websockets))
          ∧ upgradeListeners first.2 = S (upgradeListeners server)
          ∧ subscriptionServers first.2 = subscriptionServers server)
  ∧ foldl (λ srv call, (enhanceHttpServerWithWebSockets call.1 call.2 srv).2)
      first.2 later
    = first.2.
Proof.
  intros Hflag first.
  assert (first = enhance_resume schema websockets (enhance_start server).2) as Hfirst.
  { subst first. unfold enhanceHttpServerWithWebSockets, enhance_start.
    by rewrite Hflag. }
  assert (upgradeListeners (enhance_start server).2 = upgradeListeners server
          ∧ subscriptionServers (enhance_start server).2 = subscriptionServers server)
    as [Hl Hs].
  { unfold enhance_start. by rewrite Hflag. }
  split_and!.
  - rewrite Hfirst. destruct schema as [s | e].
    + destruct (enhance_resume_cases s websockets (enhance_start server).2)
        as [[-> ->] | [[-> ->] | (H0 & H1 & ->)]]; simpl.
      * split; [intros _; split; [by exists s | by left] | done].
      * split; [intros _; split; [by exists s | by right] | done].
      * split; [done |]. by intros [_ [? | ?]].
    + simpl. split; [done |]. by intros [[s ?] _].
  - rewrite Hfirst. destruct schema as [s | e]; [| done].
    destruct (enhance_resume_cases s websockets (enhance_start server).2)
      as [[-> ->] | [[-> ->] | (H0 & H1 & ->)]]; simpl; [| | done].
    + intros _. rewrite Hl, Hs. split; [done |]. by exists V0.
    + intros _. rewrite Hl, Hs. split; [done |]. by exists V1.
  - intros e ->. rewrite Hfirst. simpl. by rewrite Hl, Hs.
  - intros s -> H0 H1. rewrite Hfirst.
    destruct (enhance_resume_cases s websockets (enhance_start server).2)
      as [[? _] | [[? _] | (_ & _ & ->)]]; [done | done |].
    simpl. by rewrite Hl, Hs.
  - apply enhance_calls_marked. apply enhance_marks.
Qed.

Lemma enhance_first_call_witness :
  let fresh := {| postgraphileSubscriptionsEnabled := VUndefined;
                  upgradeListeners := 0; subscriptionServers := [] |} in
  let failed := (enhanceHttpServerWithWebSockets (Throw (External 1)) (VString "v1") fresh).2 in
  subscriptionServers failed = []
  ∧ (enhanceHttpServerWithWebSockets (Return 7%nat) (VString "v1") failed).2 = failed.
Proof.
  intros fresh failed. split; [reflexivity |].
  refine (proj2 (proj2 (proj2 (proj2
            (enhance_first_call (Throw (External 1)) (VString "v1") fresh
               [(Return 7%nat, VString "v1")] _))))).
  reflexivity.
Defined.

(** ** The calls of [validate] *)

Section ValidateFacts.

Context {Schema Document Rule Context ReqRes : Type}.
Variable c : Collaborators Schema Document Rule Context ReqRes.

Local Ltac run_handler :=
  repeat match goal with
    | |- context [match ?x with Return _ => _ | Throw _ => _ end] =>
        destruct x eqn:?; cbn
    | |- context [match ?x with [] => _ | _ :: _ => _ end] =>
        destruct x eqn:?; cbn
    | |- context [match ?x with QueryString _ => _ | QueryDocument _ => _ end] =>
        destruct x eqn:?; cbn
    end.

Lemma onOperation_calls opId params socket :
  (onOperation c opId params socket).2 = []
  ∨ ∃ rules errors,
      rules ≠ []
      ∧ (onOperation c opId params socket).2 = [Validate PerRequest rules errors].
Proof.
  unfold onOperation. run_handler; try (by left);
    right; eexists _, _; (split; [| reflexivity]); done.
Qed.

Lemma onOperation_failed opId params socket (e : Error) :
  (onOperation c opId params socket).1 = Failed e →
  (onOperation c opId params socket).2 = [].
Proof. unfold onOperation. run_handler; done. Qed.

Lemma onOperation_proceed opId params socket fp :
  (onOperation c opId params socket).1 = Proceed fp →
  ∃ schema context,
    getGraphQLSchema c = Return schema
    ∧ getContext c socket opId = Return context
    ∧ hooked fp
      = onOperation_hook c
          {| params_schema := Some schema;
             params_query := params_query params;
             params_variables := params_variables params;
             params_operationName := params_operationName params;
             params_context := params_context params ++ [context] |}
    ∧ match params_query (hooked fp) with
      | QueryDocument d => final_query fp = d
      | QueryString text => parse c text = Return (final_query fp)
      end.
Proof.
  unfold onOperation.
  destruct (getContext c socket opId) as [context |]; [| done].
  destruct (getGraphQLSchema c) as [schema |]; [| done].
  destruct (reqResFromSocket c socket) as [reqres |]; [| done].
  set (hookedParams := onOperation_hook c _).
  destruct (params_query hookedParams) as [text | d] eqn:Hq.
  - destruct (parse c text) as [document |] eqn:Hparse; [| done].
    destruct (validationRules_hook c _ _ _); [| destruct (validate c _ _ _)];
      cbn; intros; simplify_eq; exists schema, context; cbn;
      fold hookedParams; by rewrite Hq.
  - destruct (validationRules_hook c _ _ _); [| destruct (validate c _ _ _)];
      cbn; intros; simplify_eq; exists schema, context; cbn;
      fold hookedParams; by rewrite Hq.
Qed.

Lemma onSubscribe_calls socket msg_id payload :
  let calls := (onSubscribe c socket msg_id payload).2 in
  calls = []
  ∨ (∃ errors, calls = [Validate Static (staticValidationRules c) errors])
  ∨ (∃ rules errors,
       rules ≠ []
       ∧ calls = [Validate Static (staticValidationRules c) [];
                  Validate PerRequest rules errors]).
Proof.
  unfold onSubscribe. run_handler; try (by left);
    try (right; left; by eexists);
    right; right; eexists _, _; (split; [| reflexivity]); done.
Qed.

Lemma onSubscribe_static socket msg_id payload (errors : list GraphQLError) :
  errors ≠ [] →
  Validate Static (staticValidationRules c) errors
    ∈ (onSubscribe c socket msg_id payload).2 →
  onSubscribe c socket msg_id payload
  = (ReturnedErrors errors, [Validate Static (staticValidationRules c) errors]).
Proof.
  intros Hne. unfold onSubscribe. run_handler; intros Hin;
    repeat match goal with
      | H : _ ∈ [] |- _ => by apply elem_of_nil in H
      | H : _ ∈ _ :: _ |- _ => apply elem_of_cons in H as [H | H]
      | H : _ ∈ _ ++ _ |- _ => apply elem_of_app in H as [H | H]
      end; by simplify_eq.
Qed.

Lemma onSubscribe_proceed socket msg_id payload args :
  (onSubscribe c socket msg_id payload).1 = Proceed args →
  ∃ schema context document,
    getGraphQLSchema c = Return schema
    ∧ getContext c socket msg_id = Return context
    ∧ parse c (payload_query payload) = Return document
    ∧ args
      = onSubscribe_hook c
          {| args_schema := schema;
             args_contextValue := context;
             args_operationName := payload_operationName payload;
             args_document := document;
             args_variableValues := payload_variables payload |}.
Proof.
  unfold onSubscribe.
  destruct (getContext c socket msg_id) as [context |]; [| done].
  destruct (getGraphQLSchema c) as [schema |]; [| done].
  destruct (parse c (payload_query payload)) as [document |]; [| done].
  run_handler; intros; simplify_eq; by exists schema, context, document.
Qed.

(** Every call of [validate] that [onOperation] made: on the rules of
    the hook, all of them, with the errors [validate] answered. *)
Lemma onOperation_asked opId params socket
    (which : RuleSet) (rules : list Rule) (errors : list GraphQLError) :
  Validate which rules errors ∈ (onOperation c opId params socket).2 →
  which = PerRequest ∧ rules ≠ []
  ∧ (onOperation c opId params socket).2 = [Validate which rules errors]
  ∧ ∃ context schema reqres query,
      getContext c socket opId = Return context
      ∧ getGraphQLSchema c = Return schema
      ∧ reqResFromSocket c socket = Return reqres
      ∧ match params_query
                (onOperation_hook c
                   {| params_schema := Some schema;
                      params_query := params_query params;
                      params_variables := params_variables params;
                      params_operationName := params_operationName params;
                      params_context := params_context params ++ [context] |}) with
        | QueryDocument d => Return d
        | QueryString text => parse c text
        end = Return query
      ∧ rules
        = validationRules_hook c reqres
            (params_variables params) (params_operationName params)
      ∧ errors = validate c schema query rules.
Proof.
  destruct (getContext c socket opId) as [context |] eqn:Hcontext;
    [| unfold onOperation; rewrite Hcontext; by intros ?%elem_of_nil].
  destruct (getGraphQLSchema c) as [schema |] eqn:Hschema;
    [| unfold onOperation; rewrite Hcontext, Hschema; by intros ?%elem_of_nil].
  destruct (reqResFromSocket c socket) as [reqres |] eqn:Hreqres;
    [| unfold onOperation; rewrite Hcontext, Hschema, Hreqres;
       by intros ?%elem_of_nil].
  destruct (match params_query
                    (onOperation_hook c
                       {| params_schema := Some schema;
                          params_query := params_query params;
                          params_variables := params_variables params;
                          params_operationName := params_operationName params;
                          params_context := params_context params ++ [context] |}) with
            | QueryDocument d => Return d
            | QueryString text => parse c text
            end) as [query |] eqn:Hquery;
    [| unfold onOperation; rewrite Hcontext, Hschema, Hreqres, Hquery;
       by intros ?%elem_of_nil].
  pose proof (onOperation_validated c opId params socket context schema reqres
                query Hcontext Hschema Hreqres Hquery) as Hv0.
  cbv zeta in Hv0. rewrite Hv0. clear Hv0.
  destruct (validationRules_hook c reqres _ _) as [| rule rules0] eqn:Hrules;
    [by intros ?%elem_of_nil |].
  destruct (validate c schema query (rule :: rules0)) as [| err errs] eqn:Herrors;
    intros Hin%list_elem_of_singleton; simplify_eq;
    (split_and!; try done); exists context, schema, reqres, query;
    by split_and!.
Qed.

(** Every call of [validate] that [onSubscribe] made. *)
Lemma onSubscribe_asked socket msg_id payload
    (which : RuleSet) (rules : list Rule) (errors : list GraphQLError) :
  Validate which rules errors ∈ (onSubscribe c socket msg_id payload).2 →
  ∃ context schema document,
    getContext c socket msg_id = Return context
    ∧ getGraphQLSchema c = Return schema
    ∧ parse c (payload_query payload) = Return document
    ∧ let hookedArgs :=
        onSubscribe_hook c
          {| args_schema := schema;
             args_contextValue := context;
             args_operationName := payload_operationName payload;
             args_document := document;
             args_variableValues := payload_variables payload |} in
      let static :=
        validate c (args_schema hookedArgs) (args_document hookedArgs)
          (staticValidationRules c) in
      (which = Static ∧ rules = staticValidationRules c ∧ errors = static)
      ∨ (which = PerRequest ∧ rules ≠ [] ∧ static = []
         ∧ ∃ reqres,
             reqResFromSocket c socket = Return reqres
             ∧ rules
               = validationRules_hook c reqres
                   (args_variableValues hookedArgs) (args_operationName hookedArgs)
             ∧ errors
               = validate c (args_schema hookedArgs) (args_document hookedArgs)
                   rules).
Proof.
  destruct (getContext c socket msg_id) as [context |] eqn:Hcontext;
    [| unfold onSubscribe; rewrite Hcontext; by intros ?%elem_of_nil].
  destruct (getGraphQLSchema c) as [schema |] eqn:Hschema;
    [| unfold onSubscribe; rewrite Hcontext, Hschema; by intros ?%elem_of_nil].
  destruct (parse c (payload_query payload)) as [document |] eqn:Hparse;
    [| unfold onSubscribe; rewrite Hcontext, Hschema, Hparse;
       by intros ?%elem_of_nil].
  intros Hin. exists context, schema, document. split_and!; try done.
  intros hookedArgs static. revert Hin.
  destruct (reqResFromSocket c socket) as [reqres |] eqn:Hreqres.
  - pose proof (onSubscribe_validated c socket msg_id payload context schema
                  reqres document Hcontext Hschema Hreqres Hparse) as Hv1.
    cbv zeta in Hv1. fold hookedArgs in Hv1. fold static in Hv1.
    rewrite Hv1. clear Hv1.
    destruct static as [| serr static'] eqn:Hstatic;
      [| intros Hin%list_elem_of_singleton; simplify_eq; by left].
    destruct (validationRules_hook c reqres _ _) as [| rule rules0] eqn:Hrules;
      [intros Hin%list_elem_of_singleton; simplify_eq; by left |].
    destruct (validate c _ _ (rule :: rules0)) as [| err errs] eqn:Herrors;
      intros [Hin | Hin%list_elem_of_singleton]%elem_of_cons; simplify_eq;
      try (by left); right; (split_and!; try done); exists reqres;
      by split_and!.
  - unfold onSubscribe. rewrite Hcontext, Hschema, Hparse.
    fold hookedArgs. fold static. rewrite Hreqres.
    destruct static as [| serr static'];
      intros Hin%list_elem_of_singleton; simplify_eq; by left.
Qed.

(** When the request cannot be had, after the static rules passed. *)
Lemma onSubscribe_no_request socket msg_id payload
    (context : Context) (schema : Schema) (document : Document) (e : Error) :
  getContext c socket msg_id = Return context →
  getGraphQLSchema c = Return schema →
  parse c (payload_query payload) = Return document →
  reqResFromSocket c socket = Throw e →
  let hookedArgs :=
    onSubscribe_hook c
      {| args_schema := schema;
         args_contextValue := context;
         args_operationName := payload_operationName payload;
         args_document := document;
         args_variableValues := payload_variables payload |} in
  validate c (args_schema hookedArgs) (args_document hookedArgs)
    (staticValidationRules c) = [] →
  onSubscribe c socket msg_id payload
  = (Failed e, [Validate Static (staticValidationRules c) []]).
Proof.
  intros Hcontext Hschema Hparse Hreqres hookedArgs Hstatic.
  unfold onSubscribe. rewrite Hcontext, Hschema, Hparse.
  fold hookedArgs. by rewrite Hstatic, Hreqres.
Qed.

End ValidateFacts.

(** X17. What the two operation handlers ask of [validate], and what
    they hand on. [onOperation] ([v0]) calls [validate] at most once,
    and not at all when it fails before (context, schema, request,
    parse): the call is on the schema, the parsed query and the whole
    list the [postgraphile:validationRules] hook answered for this
    request, never on an empty list, and what is recorded of it is what
    [validate] answered. [onSubscribe] ([v1]) validates the static rules
    first, on the schema and the document the plugin hook handed back;
    errors of the static rules are returned at once, and the
    per-request rules (the whole list of the hook, for the variables and
    the operation name the plugin hook handed back) run only after the
    static rules passed and the request was had, and never as an empty
    list. What a handler hands on is what the plugin hook made of the
    operation with the current schema and the context of this socket and
    operation; in [v0] a query that arrives as a document is not parsed
    again. *)
Theorem validate_call_discipline
    {Schema Document Rule Context ReqRes : Type}
    (c : Collaborators Schema Document Rule Context ReqRes)
    (opId : string) (params : ExecutionParams Schema Document Context)
    (socket : Socket) (payload : Payload) :
  let v0 := onOperation c opId params socket in
  let v1 := onSubscribe c socket opId payload in
  (v0.2 = []
   ∨ ∃ rules errors, rules ≠ [] ∧ v0.2 = [Validate PerRequest rules errors])
  ∧ (∀ e, v0.1 = Failed e → v0.2 = [])
  ∧ (v1.2 = []
     ∨ (∃ errors, v1.2 = [Validate Static (staticValidationRules c) errors])
     ∨ (∃ rules errors,
          rules ≠ []
          ∧ v1.2 = [Validate Static (staticValidationRules c) [];
                    Validate PerRequest rules errors]))
  ∧ (∀ errors, errors ≠ [] →
       Validate Static (staticValidationRules c) errors ∈ v1.2 →
       v1 = (ReturnedErrors errors,
             [Validate Static (staticValidationRules c) errors]))
  ∧ (∀ fp, v0.1 = Proceed fp →
       ∃ schema context,
         getGraphQLSchema c = Return schema
         ∧ getContext c socket opId = Return context
         ∧ hooked fp
           = onOperation_hook c
               {| params_schema := Some schema;
                  params_query := params_query params;
                  params_variables := params_variables params;
                  params_operationName := params_operationName params;
                  params_context := params_context params ++ [context] |}
         ∧ match params_query (hooked fp) with
           | QueryDocument d => final_query fp = d
           | QueryString text => parse c text = Return (final_query fp)
           end)
  ∧ (∀ args, v1.1 = Proceed args →
       ∃ schema context document,
         getGraphQLSchema c = Return schema
         ∧ getContext c socket opId = Return context
         ∧ parse c (payload_query payload) = Return document
         ∧ args
           = onSubscribe_hook c
               {| args_schema := schema;
                  args_contextValue := context;
                  args_operationName := payload_operationName payload;
                  args_document := document;
                  args_variableValues := payload_variables payload |})
  ∧ (∀ which rules errors,
       Validate which rules errors ∈ v0.2 →
       which = PerRequest ∧ rules ≠ []
       ∧ v0.2 = [Validate which rules errors]
       ∧ ∃ context schema reqres query,
           getContext c socket opId = Return context
           ∧ getGraphQLSchema c = Return schema
           ∧ reqResFromSocket c socket = Return reqres
           ∧ match params_query
                     (onOperation_hook c
                        {| params_schema := Some schema;
                           params_query := params_query params;
                           params_variables := params_variables params;
                           params_operationName := params_operationName params;
                           params_context := params_context params ++ [context] |}) with
             | QueryDocument d => Return d
             | QueryString text => parse c text
             end = Return query
           ∧ rules
             = validationRules_hook c reqres
                 (params_variables params) (params_operationName params)
           ∧ errors = validate c schema query rules)
  ∧ (∀ context schema reqres query,
       getContext c socket opId = Return context →
       getGraphQLSchema c = Return schema →
       reqResFromSocket c socket = Return reqres →
       match params_query
               (onOperation_hook c
                  {| params_schema := Some schema;
                     params_query := params_query params;
                     params_variables := params_variables params;
                     params_operationName := params_operationName params;
                     params_context := params_context params ++ [context] |}) with
       | QueryDocument d => Return d
       | QueryString text => parse c text
       end = Return query →
       let rules :=
         validationRules_hook c reqres
           (params_variables params) (params_operationName params) in
       v0.2 = match rules with
              | [] => []
              | _ :: _ => [Validate PerRequest rules (validate c schema query rules)]
              end)
  ∧ (∀ which rules errors,
       Validate which rules errors ∈ v1.2 →
       ∃ context schema document,
         getContext c socket opId = Return context
         ∧ getGraphQLSchema c = Return schema
         ∧ parse c (payload_query payload) = Return document
         ∧ let hookedArgs :=
             onSubscribe_hook c
               {| args_schema := schema;
                  args_contextValue := context;
                  args_operationName := payload_operationName payload;
                  args_document := document;
                  args_variableValues := payload_variables payload |} in
           let static :=
             validate c (args_schema hookedArgs) (args_document hookedArgs)
               (staticValidationRules c) in
           (which = Static ∧ rules = staticValidationRules c ∧ errors = static)
           ∨ (which = PerRequest ∧ rules ≠ [] ∧ static = []
              ∧ ∃ reqres,
                  reqResFromSocket c socket = Return reqres
                  ∧ rules
                    = validationRules_hook c reqres
                        (args_variableValues hookedArgs)
                        (args_operationName hookedArgs)
                  ∧ errors
                    = validate c (args_schema hookedArgs)
                        (args_document hookedArgs) rules))
  ∧ (∀ context schema document,
       getContext c socket opId = Return context →
       getGraphQLSchema c = Return schema →
       parse c (payload_query payload) = Return document →
       let hookedArgs :=
         onSubscribe_hook c
           {| args_schema := schema;
              args_contextValue := context;
              args_operationName := payload_operationName payload;
              args_document := document;
              args_variableValues := payload_variables payload |} in
       let static :=
         validate c (args_schema hookedArgs) (args_document hookedArgs)
           (staticValidationRules c) in
       Validate Static (staticValidationRules c) static ∈ v1.2
       ∧ (static ≠ [] → v1.2 = [Validate Static (staticValidationRules c) static])
       ∧ (∀ e, static = [] → reqResFromSocket c socket = Throw e →
               v1 = (Failed e, [Validate Static (staticValidationRules c) []]))
       ∧ (∀ reqres, static = [] → reqResFromSocket c socket = Return reqres →
            let rules :=
              validationRules_hook c reqres
                (args_variableValues hookedArgs) (args_operationName hookedArgs) in
            v1.2
            = Validate Static (staticValidationRules c) []
              :: match rules with
                 | [] => []
                 | _ :: _ =>
                     [Validate PerRequest rules
                        (validate c (args_schema hookedArgs)
                           (args_document hookedArgs) rules)]
                 end)).
Proof.
  intros v0 v1. split_and!.
  - apply onOperation_calls.
  - apply onOperation_failed.
  - apply onSubscribe_calls.
  - apply onSubscribe_static.
  - apply onOperation_proceed.
  - apply onSubscribe_proceed.
  - apply onOperation_asked.
  - intros context schema reqres query Hcontext Hschema Hreqres Hquery rules.
    pose proof (onOperation_validated c opId params socket context schema reqres
                  query Hcontext Hschema Hreqres Hquery) as Hv0.
    cbv zeta in Hv0. fold rules v0 in Hv0. rewrite Hv0.
    destruct rules as [| rule rules']; [done |].
    by destruct (validate c schema query (rule :: rules')).
  - apply onSubscribe_asked.
  - intros context schema document Hcontext Hschema Hparse hookedArgs static.
    assert (∀ e, static = [] → reqResFromSocket c socket = Throw e →
                 v1 = (Failed e, [Validate Static (staticValidationRules c) []]))
      as Hnone.
    { intros e Hstatic Hreqres.
      by apply (onSubscribe_no_request c socket opId payload context schema
                  document e). }
    assert (∀ reqres, reqResFromSocket c socket = Return reqres →
              let rules :=
                validationRules_hook c reqres
                  (args_variableValues hookedArgs) (args_operationName hookedArgs) in
              v1.2
              = match static with
                | _ :: _ => [Validate Static (staticValidationRules c) static]
                | [] =>
                    Validate Static (staticValidationRules c) []
                    :: match rules with
                       | [] => []
                       | _ :: _ =>
                           [Validate PerRequest rules
                              (validate c (args_schema hookedArgs)
                                 (args_document hookedArgs) rules)]
                       end
                end) as Hsome.
    { intros reqres Hreqres rules.
      pose proof (onSubscribe_validated c socket opId payload context schema
                    reqres document Hcontext Hschema Hreqres Hparse) as Hv1.
      cbv zeta in Hv1. fold hookedArgs in Hv1. fold static in Hv1.
      fold rules in Hv1. fold v1 in Hv1. rewrite Hv1.
      destruct static as [| serr static']; [| done].
      destruct rules as [| rule rules']; [done |].
      by destruct (validate c _ _ (rule :: rules')). }
    split_and!.
    + destruct (reqResFromSocket c socket) as [reqres | e] eqn:Hreqres.
      * rewrite (Hsome reqres eq_refl).
        destruct static; apply elem_of_cons; by left.
      * destruct static as [| serr static'] eqn:Hstatic.
        -- rewrite (Hnone e eq_refl eq_refl). by apply list_elem_of_singleton.
        -- subst v1. unfold onSubscribe. rewrite Hcontext, Hschema, Hparse.
           fold hookedArgs. fold static. rewrite Hstatic.
           by apply list_elem_of_singleton.
    + intros Hstatic.
      destruct (reqResFromSocket c socket) as [reqres | e] eqn:Hreqres.
      * rewrite (Hsome reqres eq_refl). by destruct static.
      * subst v1. unfold onSubscribe. rewrite Hcontext, Hschema, Hparse.
        fold hookedArgs. fold static. by destruct static.
    + exact Hnone.
    + intros reqres Hstatic Hreqres rules.
      rewrite (Hsome reqres Hreqres). fold rules. by rewrite Hstatic.
Qed.

(** ** The sockets of a server *)

Section ConnectionFacts.

Context `{Builtins}.

Lemma onConnect_counts (socketId : Z) (c : Connect) :
  (onConnect socketId c).2.1 = (socketId + 1)%Z
  ∧ postgraphileId (onConnect socketId c).2.2 = VNumber (socketId + 1).
Proof.
  destruct c as [[params |] socket [request |] | params socket request];
    try done; simpl.
  - unfold onConnect_v0. by destruct (copy_authorization _ _).
  - unfold onConnect_v1. by destruct (copy_authorization _ _).
Qed.

Lemma connections_length (cs : list Connect) (socketId : Z) :
  length (connections socketId cs) = length cs.
Proof.
  revert socketId. induction cs as [| c cs IH]; intros socketId; [done |].
  simpl. destruct (onConnect socketId c) as [r [n s]]. simpl. by rewrite IH.
Qed.

Lemma connections_lookup (cs : list Connect) (socketId : Z) (i : nat)
    (r : Result unit) (s : Socket) :
  connections socketId cs !! i = Some (r, s) →
  postgraphileId s = VNumber (socketId + 1 + Z.of_nat i).
Proof.
  revert socketId i. induction cs as [| c cs IH]; intros socketId i Hi; [done |].
  simpl in Hi. pose proof (onConnect_counts socketId c) as [Hn Hid].
  destruct (onConnect socketId c) as [r0 [n s0]]. simpl in Hn, Hid. subst n.
  destruct i as [| i].
  - simpl in Hi. simplify_eq. rewrite Hid. f_equal. lia.
  - simpl in Hi. rewrite (IH _ _ Hi). f_equal. lia.
Qed.

End ConnectionFacts.

(** X18. The sockets of a server are numbered in the order they
    connect, from 1 on and without gaps, by either protocol's
    [onConnect], and a socket gets its number also when [onConnect]
    refuses it (['No request!']); so the context keys of two connections
    never coincide, whatever their operation ids are. The counter is
    taken within the integers a JavaScript number counts exactly. *)
Theorem socket_ids_are_fresh `{Builtins}
    (cs : list Connect) (i j : nat) (ri rj : Result unit) (si sj : Socket)
    (opId1 opId2 : string) :
  (Z.of_nat (length cs) ≤ 2 ^ 53)%Z →
  server_connections cs !! i = Some (ri, si) →
  server_connections cs !! j = Some (rj, sj) →
  length (server_connections cs) = length cs
  ∧ postgraphileId si = VNumber (Z.of_nat i + 1)
  ∧ (contextKey si opId1 = contextKey sj opId2 → i = j ∧ opId1 = opId2).
Proof.
  intros _ Hi Hj. unfold server_connections in *.
  pose proof (connections_lookup _ _ _ _ _ Hi) as Hsi.
  pose proof (connections_lookup _ _ _ _ _ Hj) as Hsj.
  split_and!.
  - apply connections_length.
  - rewrite Hsi. f_equal. lia.
  - intros Hkey.
    destruct (contextKey_inj si sj _ _ opId1 opId2 Hsi Hsj Hkey) as [Hn ->].
    split; [lia | done].
Qed.

Lemma socket_ids_are_fresh_witness :
  let _ := ascii_builtins in
  ∃ s1 s2,
    server_connections
      [ConnectV0 (Some []) closed_socket None;
       ConnectV0 (Some []) closed_socket (Some (upgrade_request ∅))] !! 0%nat
    = Some (Throw (JsError "No request!"), s1)
    ∧ server_connections
        [ConnectV0 (Some []) closed_socket None;
         ConnectV0 (Some []) closed_socket (Some (upgrade_request ∅))] !! 1%nat
      = Some (Return tt, s2)
    ∧ postgraphileId s1 = VNumber 1
    ∧ postgraphileId s2 = VNumber 2.
Proof.
  intros builtins.
  eexists _, _. split; [reflexivity |]. split; [reflexivity |]. split.
  - refine (proj1 (proj2 (socket_ids_are_fresh
                            [ConnectV0 (Some []) closed_socket None;
                             ConnectV0 (Some []) closed_socket
                               (Some (upgrade_request ∅))]
                            0 1 _ _ _ _ "1" "1" _ eq_refl eq_refl))).
    vm_compute. discriminate.
  - reflexivity.
Defined.

(** ** The route of the subscriptions *)

Section RouteFacts.

Lemma append_empty (s t : string) : s +:+ t = "" → t = "".
Proof. by destruct s. Qed.

Lemma or_string_nonempty (a : option string) (b : string) :
  b ≠ "" → or_string a b ≠ "".
Proof.
  intros Hb. unfold or_string. destruct a as [s |]; [| done].
  by destruct (String.eqb_spec s "").
Qed.

Lemma graphqlRoute_nonempty (serverRoute externalUrlBase optionsRoute : option string) :
  graphqlRoute serverRoute externalUrlBase optionsRoute ≠ "".
Proof.
  unfold graphqlRoute. apply or_string_nonempty. intros H.
  apply append_empty in H. by apply or_string_nonempty in H.
Qed.

End RouteFacts.

(** X19. The route the [upgrade] listener answers on. It is never the
    empty string, so a request whose URL cannot be parsed, or has no
    path, is never upgraded; a request is upgraded exactly when its path
    is the route, character by character. A [graphqlRoute] of the
    subscription server options is taken as it is, without
    [externalUrlBase]; otherwise the route is [externalUrlBase] followed
    by the [graphqlRoute] of the options, ['/graphql'] by default. *)
Theorem subscription_route
    (serverRoute externalUrlBase optionsRoute : option string) :
  let route := graphqlRoute serverRoute externalUrlBase optionsRoute in
  route ≠ ""
  ∧ upgrade route None = false
  ∧ upgrade route (Some VUndefined) = false
  ∧ (∀ pathname, upgrade route (Some pathname) = true ↔ pathname = VString route)
  ∧ (∀ s, serverRoute = Some s → s ≠ "" → route = s)
  ∧ (serverRoute = None ∨ serverRoute = Some "" →
     route = default "" externalUrlBase
             +:+ (if bool_decide (optionsRoute = None ∨ optionsRoute = Some "")
                  then "/graphql" else default "" optionsRoute)).
Proof.
  intros route.
  pose proof (graphqlRoute_nonempty serverRoute externalUrlBase optionsRoute) as Hne.
  fold route in Hne.
  assert (String.eqb "" route = false) as Hempty.
  { apply String.eqb_neq. congruence. }
  split_and!; [done | by unfold upgrade; rewrite Hempty
               | by unfold upgrade; rewrite Hempty | | |].
  - intros pathname. unfold upgrade.
    destruct pathname as [| | | | | p | |]; try done.
    + by rewrite Hempty.
    + rewrite String.eqb_eq. split; [by intros -> | by intros [= ->]].
  - intros s -> Hs. subst route. unfold graphqlRoute. simpl.
    by rewrite (proj2 (String.eqb_neq _ _) Hs).
  - intros Hserver. subst route. unfold graphqlRoute.
    assert (∀ b, or_string serverRoute b = b) as ->.
    { intros b. by destruct Hserver as [-> | ->]. }
    f_equal.
    + destruct externalUrlBase as [s |]; [| done]. simpl.
      by destruct (String.eqb_spec s "").
    + destruct optionsRoute as [s |]; [| done]. unfold or_string.
      destruct (String.eqb_spec s "") as [-> | Hs]; [done |].
      rewrite bool_decide_eq_false_2; [done |]. intros [? | [= ?]]; done.
Qed.

(** ** The request and response of a socket *)

Section RequestFacts.

Import SocketRequest.

Variable middlewares : nat.

Implicit Types (st : State) (call res : nat).

Lemma invoked_by_app call (l1 l2 : list (nat * nat)) :
  invoked_by call (l1 ++ l2) = invoked_by call l1 ++ invoked_by call l2.
Proof. apply omap_app. Qed.

Lemma invoked_by_snoc_eq call (i : nat) (l : list (nat * nat)) :
  invoked_by call (l ++ [(call, i)]) = invoked_by call l ++ [i].
Proof.
  rewrite invoked_by_app. unfold invoked_by at 2. simpl. by rewrite Nat.eqb_refl.
Qed.

Lemma invoked_by_snoc_ne call call' (i : nat) (l : list (nat * nat)) :
  call' ≠ call → invoked_by call (l ++ [(call', i)]) = invoked_by call l.
Proof.
  intros Hne. rewrite invoked_by_app. unfold invoked_by at 2. simpl.
  rewrite (proj2 (Nat.eqb_neq _ _) Hne). apply app_nil_r.
Qed.

(** A step that leaves the fulfilled calls and what was called for them
    alone keeps a vetted response vetted. *)
Lemma vetted_stable st st' res :
  (∀ call r, calls st !! call = Some (Fulfilled r) →
             calls st' !! call = Some (Fulfilled r)
             ∧ invoked_by call (invoked st') = invoked_by call (invoked st)) →
  vetted middlewares st res → vetted middlewares st' res.
Proof.
  intros Hkeep (call & Hcall & Hinv). exists call.
  destruct (Hkeep _ _ Hcall) as [H1 H2]. split; [done | by rewrite H2].
Qed.

Lemma new_call_inv st st' (c : CallState) :
  request_inv middlewares st →
  match c with
  | Fulfilled res => vetted middlewares st res
  | Rejected (Thrown _) => True
  | _ => False
  end →
  calls st' = calls st ++ [c] → invoked st' = invoked st →
  postgraphileRes st' = postgraphileRes st →
  request_inv middlewares st'.
Proof.
  intros (Ha & Hb & Hc & Hd & He & He' & Hf & Hg) Hnew Hcalls Hinvoked Hres.
  assert (∀ res, vetted middlewares st res → vetted middlewares st' res) as Hvet.
  { intros res0. apply vetted_stable. intros call r Hcall. rewrite Hcalls, Hinvoked.
    split; [| done]. by apply lookup_app_l_Some. }
  assert (∀ call x, calls st' !! call = Some x →
                    calls st !! call = Some x
                    ∨ (call = length (calls st) ∧ x = c)) as Hlook.
  { intros call x Hx. rewrite Hcalls in Hx.
    apply lookup_app_Some in Hx as [Hx | [Hlen Hx]]; [by left |].
    right. apply list_lookup_singleton_Some in Hx as [Hz ->]. split; [lia | done]. }
  unfold request_inv. rewrite Hinvoked, Hres. split_and!.
  - intros call res i Hx. destruct (Hlook _ _ Hx) as [Hold | [-> <-]]; [by eapply Ha |].
    by destruct Hnew.
  - intros call res Hx. destruct (Hlook _ _ Hx) as [Hold | [-> <-]]; [by eapply Hb |].
    by destruct Hnew.
  - intros call res Hx. destruct (Hlook _ _ Hx) as [Hold | [-> <-]].
    + destruct (Hc _ _ Hold) as [Hv Hi]. split; [by apply Hvet | done].
    + split; [by apply Hvet |]. right. by apply Hg.
  - intros res Hres'. by apply Hvet, Hd.
  - intros call err Hx. destruct (Hlook _ _ Hx) as [Hold | [-> <-]]; [by eapply He |].
    done.
  - intros call reason Hx.
    destruct (Hlook _ _ Hx) as [Hold | [-> <-]]; [by eapply He' |]. done.
  - intros call e Hx. destruct (Hlook _ _ Hx) as [Hold | [-> <-]]; [by eapply Hf |].
    by apply Hg.
  - intros call Hlen. rewrite Hcalls, length_app in Hlen. simpl in Hlen. apply Hg. lia.
Qed.

Lemma reqResFromSocket_inv st :
  request_inv middlewares st → request_inv middlewares (reqResFromSocket middlewares st).
Proof.
  intros Hinv. unfold reqResFromSocket.
  destruct (has_req st); simpl;
    [| by apply (new_call_inv st _ (Rejected (Thrown req_missing)))].
  destruct (req_res st);
    [by apply (new_call_inv st _ (Rejected (Thrown req_res_present))) |].
  destruct (postgraphileRes st) as [res |] eqn:Hres.
  { apply (new_call_inv st _ (Fulfilled res)); [done | | done..].
    destruct Hinv as (_ & _ & _ & Hd & _). by apply Hd. }
  destruct Hinv as (Ha & Hb & Hc & Hd & He & He' & Hf & Hg).
  set (n := length (calls st)).
  assert (invoked_by n (invoked st) = []) as Hn by (by apply Hg).
  unfold applyMiddleware.
  assert (∀ call x c, (calls st ++ [c]) !! call = Some x →
                      calls st !! call = Some x ∧ (call < n)%nat
                      ∨ (call = n ∧ x = c)) as Hlook.
  { intros call x c Hx. apply lookup_app_Some in Hx as [Hx | [Hlen Hx]].
    - left. split; [done |]. by eapply lookup_lt_Some.
    - right. apply list_lookup_singleton_Some in Hx as [Hz ->].
      split; [subst n; lia | done]. }
  destruct (0 <? middlewares)%nat eqn:Hm; simpl.
  - apply Nat.ltb_lt in Hm.
    assert (∀ call, call ≠ n →
                    invoked_by call (invoked st ++ [(n, 0%nat)])
                    = invoked_by call (invoked st)) as Hother.
    { intros call Hne. by apply invoked_by_snoc_ne. }
    assert (∀ res, vetted middlewares st res →
                   vetted middlewares
                     {| has_req := true; req_res := false; postgraphileRes := None;
                        responses := S (responses st);
                        calls := calls st ++ [Pending (responses st) (AwaitMiddleware 0)];
                        invoked := invoked st ++ [(n, 0%nat)] |} res) as Hvet.
    { intros res0. apply vetted_stable. intros call r Hcall. simpl.
      split; [by apply lookup_app_l_Some |].
      apply Hother. apply lookup_lt_Some in Hcall. subst n. lia. }
    unfold request_inv. simpl. split_and!.
    + intros call res i Hx. destruct (Hlook _ _ _ Hx) as [[Hold Hlt] | [-> Heq]].
      * rewrite Hother by lia. by eapply Ha.
      * simplify_eq. split; [done |]. by rewrite invoked_by_snoc_eq, Hn.
    + intros call res Hx. destruct (Hlook _ _ _ Hx) as [[Hold Hlt] | [-> Heq]]; [| done].
      rewrite Hother by lia. by eapply Hb.
    + intros call res Hx. destruct (Hlook _ _ _ Hx) as [[Hold Hlt] | [-> Heq]]; [| done].
      rewrite Hother by lia. destruct (Hc _ _ Hold) as [Hv Hi].
      split; [by apply Hvet | done].
    + done.
    + intros call err Hx. destruct (Hlook _ _ _ Hx) as [[Hold Hlt] | [-> Heq]]; [| done].
      rewrite Hother by lia. by eapply He.
    + intros call reason Hx.
      destruct (Hlook _ _ _ Hx) as [[Hold Hlt] | [-> Heq]]; [| done].
      rewrite Hother by lia. by eapply He'.
    + intros call e Hx. destruct (Hlook _ _ _ Hx) as [[Hold Hlt] | [-> Heq]]; [| done].
      rewrite Hother by lia. by eapply Hf.
    + intros call Hlen. rewrite length_app in Hlen. simpl in Hlen. fold n in Hlen.
      rewrite Hother by lia. apply Hg. fold n. lia.
  - apply Nat.ltb_ge in Hm. assert (middlewares = 0%nat) as Hzero by lia.
    assert (∀ res, vetted middlewares st res →
                   vetted middlewares
                     {| has_req := true; req_res := false; postgraphileRes := None;
                        responses := S (responses st);
                        calls := calls st ++ [Pending (responses st) AwaitApplied];
                        invoked := invoked st |} res) as Hvet.
    { intros res0. apply vetted_stable. intros call r Hcall. simpl.
      split; [by apply lookup_app_l_Some | done]. }
    unfold request_inv. simpl. split_and!.
    + intros call res i Hx. destruct (Hlook _ _ _ Hx) as [[Hold Hlt] | [-> Heq]]; [| done].
      by eapply Ha.
    + intros call res Hx. destruct (Hlook _ _ _ Hx) as [[Hold Hlt] | [-> Heq]].
      * by eapply Hb.
      * by rewrite Hn, Hzero.
    + intros call res Hx. destruct (Hlook _ _ _ Hx) as [[Hold Hlt] | [-> Heq]]; [| done].
      destruct (Hc _ _ Hold) as [Hv Hi]. split; [by apply Hvet | done].
    + done.
    + intros call err Hx. destruct (Hlook _ _ _ Hx) as [[Hold Hlt] | [-> Heq]]; [| done].
      by eapply He.
    + intros call reason Hx.
      destruct (Hlook _ _ _ Hx) as [[Hold Hlt] | [-> Heq]]; [| done].
      by eapply He'.
    + intros call e Hx. destruct (Hlook _ _ _ Hx) as [[Hold Hlt] | [-> Heq]]; [| done].
      by eapply Hf.
    + intros call Hlen. rewrite length_app in Hlen. simpl in Hlen. apply Hg. lia.
Qed.

Lemma update_call_inv st st' call (old_res : nat) (old_waiting : Waiting)
    (new : CallState) (extra : list (nat * nat)) :
  request_inv middlewares st →
  calls st !! call = Some (Pending old_res old_waiting) →
  calls st' = <[call := new]> (calls st) →
  invoked st' = invoked st ++ extra →
  (∀ c, c ≠ call → invoked_by c extra = []) →
  (postgraphileRes st' = postgraphileRes st
   ∨ ∃ res, postgraphileRes st' = Some res ∧ new = Fulfilled res) →
  match new with
  | Pending _ (AwaitMiddleware i) =>
      (i < middlewares)%nat ∧ invoked_by call (invoked st') = seq 0 (S i)
  | Pending _ AwaitApplied | Fulfilled _ =>
      invoked_by call (invoked st') = seq 0 middlewares
  | Rejected (Passed err) =>
      truthy err = true
      ∧ ∃ i, (i < middlewares)%nat ∧ invoked_by call (invoked st') = seq 0 (S i)
  | Rejected (Raised _) =>
      ∃ i, (i < middlewares)%nat ∧ invoked_by call (invoked st') = seq 0 (S i)
  | Rejected (Thrown _) => False
  end →
  request_inv middlewares st'.
Proof.
  intros (Ha & Hb & Hc & Hd & He & He' & Hf & Hg) Hold Hcalls Hinvoked Hextra Hcache Hnew.
  assert ((call < length (calls st))%nat) as Hlt by (by eapply lookup_lt_Some).
  assert (∀ c, c ≠ call →
               invoked_by c (invoked st') = invoked_by c (invoked st)) as Hother.
  { intros c Hne. rewrite Hinvoked, invoked_by_app, (Hextra c Hne). apply app_nil_r. }
  assert (∀ c x, calls st' !! c = Some x →
                 (c ≠ call ∧ calls st !! c = Some x) ∨ (c = call ∧ x = new)) as Hlook.
  { intros c x Hx. rewrite Hcalls in Hx.
    destruct (decide (c = call)) as [-> | Hne].
    - right. rewrite list_lookup_insert_eq in Hx by done. by simplify_eq.
    - left. by rewrite list_lookup_insert_ne in Hx. }
  assert (∀ res, vetted middlewares st res → vetted middlewares st' res) as Hvet.
  { intros res0. apply vetted_stable. intros c r Hc0.
    assert (c ≠ call) as Hne by (intros ->; congruence).
    split; [| by apply Hother].
    by rewrite Hcalls, list_lookup_insert_ne. }
  assert (∀ res, new = Fulfilled res → vetted middlewares st' res) as Hself.
  { intros res ->. exists call. split; [| done].
    by rewrite Hcalls, list_lookup_insert_eq. }
  unfold request_inv. split_and!.
  - intros c res i Hx. destruct (Hlook _ _ Hx) as [[Hne Hc0] | [-> <-]].
    + rewrite Hother by done. by eapply Ha.
    + done.
  - intros c res Hx. destruct (Hlook _ _ Hx) as [[Hne Hc0] | [-> <-]].
    + rewrite Hother by done. by eapply Hb.
    + done.
  - intros c res Hx. destruct (Hlook _ _ Hx) as [[Hne Hc0] | [-> <-]].
    + rewrite Hother by done. destruct (Hc _ _ Hc0) as [Hv Hi].
      split; [by apply Hvet | done].
    + split; [by apply Hself | by left].
  - intros res Hres. destruct Hcache as [Hsame | (r & Hr & ->)].
    + apply Hvet, Hd. by rewrite <- Hsame.
    + apply Hself. congruence.
  - intros c err Hx. destruct (Hlook _ _ Hx) as [[Hne Hc0] | [-> <-]].
    + rewrite Hother by done. by eapply He.
    + done.
  - intros c reason Hx. destruct (Hlook _ _ Hx) as [[Hne Hc0] | [-> <-]].
    + rewrite Hother by done. by eapply He'.
    + done.
  - intros c e Hx. destruct (Hlook _ _ Hx) as [[Hne Hc0] | [-> <-]].
    + rewrite Hother by done. by eapply Hf.
    + done.
  - intros c Hlen. rewrite Hcalls, length_insert in Hlen.
    rewrite Hother by lia. by apply Hg.
Qed.

Lemma step_request_inv st (e : Event) :
  request_inv middlewares st → request_inv middlewares (step middlewares st e).
Proof.
  intros Hinv. destruct e as [| call i err | call i reason | call]; simpl.
  - by apply reqResFromSocket_inv.
  - destruct (calls st !! call) as [[res [j |] | |] |] eqn:Hcall; try done.
    destruct (Nat.eqb_spec i j) as [-> | Hne]; [| done]. simpl.
    pose proof Hinv as (Ha & _). destruct (Ha _ _ _ Hcall) as [Hlt Hby].
    destruct (truthy err) eqn:Herr.
    + eapply (update_call_inv st _ call res _ (Rejected (Passed err)) []);
        [done | done | done | by rewrite app_nil_r | done | by left |].
      simpl. split; [done |]. by exists j.
    + unfold applyMiddleware.
      destruct (S j <? middlewares)%nat eqn:Hnext; simpl.
      * apply Nat.ltb_lt in Hnext.
        eapply (update_call_inv st _ call res _
                  (Pending res (AwaitMiddleware (S j))) [(call, S j)]);
          [done | done | done | done | | by left |].
        -- intros c Hc. unfold invoked_by. simpl.
           by rewrite (proj2 (Nat.eqb_neq _ _) (not_eq_sym Hc)).
        -- simpl. split; [done |]. rewrite invoked_by_snoc_eq, Hby.
           by rewrite <- seq_S.
      * apply Nat.ltb_ge in Hnext.
        eapply (update_call_inv st _ call res _ (Pending res AwaitApplied) []);
          [done | done | done | by rewrite app_nil_r | done | by left |].
        simpl. rewrite Hby. f_equal. lia.
  - destruct (calls st !! call) as [[res [j |] | |] |] eqn:Hcall; try done.
    destruct (Nat.eqb_spec i j) as [-> | Hne]; [| done]. simpl.
    pose proof Hinv as (Ha & _). destruct (Ha _ _ _ Hcall) as [Hlt Hby].
    eapply (update_call_inv st _ call res _ (Rejected (Raised reason)) []);
      [done | done | done | by rewrite app_nil_r | done | by left |].
    simpl. by exists j.
  - destruct (calls st !! call) as [[res [j |] | |] |] eqn:Hcall; try done.
    pose proof Hinv as (_ & Hb & _).
    eapply (update_call_inv st _ call res _ (Fulfilled res) []);
      [done | done | done | by rewrite app_nil_r | done | right; by exists res |].
    simpl. by eapply Hb.
Qed.

Lemma run_request_inv (events : list Event) st :
  request_inv middlewares st → request_inv middlewares (run middlewares st events).
Proof.
  revert st. induction events as [| e events IH]; intros st Hinv; [done |].
  simpl. by apply IH, step_request_inv.
Qed.

Lemma fresh_request_inv st :
  calls st = [] → invoked st = [] → postgraphileRes st = None →
  request_inv middlewares st.
Proof.
  intros Hcalls Hinvoked Hres. unfold request_inv.
  rewrite Hcalls, Hinvoked, Hres. split_and!; try done.
Qed.

(** Without a request on the socket, or with a response on the request,
    nothing is made and nobody is called. *)
Lemma run_refused (events : list Event) st :
  has_req st = false ∨ req_res st = true →
  (∀ call c, calls st !! call = Some c → ∃ reason, c = Rejected reason) →
  invoked (run middlewares st events) = invoked st
  ∧ responses (run middlewares st events) = responses st
  ∧ postgraphileRes (run middlewares st events) = postgraphileRes st.
Proof.
  revert st. induction events as [| e events IH]; intros st Hreq Hcalls; [done |].
  simpl.
  assert (let st' := step middlewares st e in
          has_req st' = has_req st ∧ req_res st' = req_res st
          ∧ invoked st' = invoked st ∧ responses st' = responses st
          ∧ postgraphileRes st' = postgraphileRes st
          ∧ (∀ call c, calls st' !! call = Some c → ∃ reason, c = Rejected reason))
    as (H1 & H2 & H3 & H4 & H5 & H6).
  { destruct e as [| call i err | call i reason | call]; simpl.
    - unfold reqResFromSocket.
      destruct Hreq as [-> | Hres]; simpl.
      + split_and!; try done. intros call c Hc.
        apply lookup_app_Some in Hc as [Hc | [_ Hc]]; [by eapply Hcalls |].
        apply list_lookup_singleton_Some in Hc as [_ <-]. by eexists.
      + rewrite Hres. destruct (has_req st); simpl.
        * split_and!; try done. intros call c Hc.
          apply lookup_app_Some in Hc as [Hc | [_ Hc]]; [by eapply Hcalls |].
          apply list_lookup_singleton_Some in Hc as [_ <-]. by eexists.
        * split_and!; try done. intros call c Hc.
          apply lookup_app_Some in Hc as [Hc | [_ Hc]]; [by eapply Hcalls |].
          apply list_lookup_singleton_Some in Hc as [_ <-]. by eexists.
    - destruct (calls st !! call) as [c |] eqn:Hc; [| done].
      destruct (Hcalls _ _ Hc) as [why ->]. done.
    - destruct (calls st !! call) as [c |] eqn:Hc; [| done].
      destruct (Hcalls _ _ Hc) as [why ->]. done.
    - destruct (calls st !! call) as [c |] eqn:Hc; [| done].
      destruct (Hcalls _ _ Hc) as [why ->]. done. }
  destruct (IH (step middlewares st e)) as (I1 & I2 & I3).
  - by rewrite H1, H2.
  - done.
  - by rewrite I1, I2, I3, H3, H4, H5.
Qed.

Lemma run_cache_kept (events : list Event) st :
  is_Some (postgraphileRes st) →
  is_Some (postgraphileRes (run middlewares st events))
  ∧ responses (run middlewares st events) = responses st.
Proof.
  revert st. induction events as [| e events IH]; intros st Hsome; [done |].
  simpl.
  assert (is_Some (postgraphileRes (step middlewares st e))
          ∧ responses (step middlewares st e) = responses st) as [H1 H2].
  { destruct e as [| call i err | call i reason | call]; simpl.
    - unfold reqResFromSocket. destruct Hsome as [res Hres]. rewrite Hres.
      by destruct (has_req st), (req_res st).
    - destruct (calls st !! call) as [[res [j |] | |] |]; try done.
      destruct (negb (i =? j)%nat); [done |]. by destruct (truthy err).
    - destruct (calls st !! call) as [[res [j |] | |] |]; try done.
      by destruct (negb (i =? j)%nat).
    - destruct (calls st !! call) as [[res [j |] | |] |]; try done. }
  destruct (IH _ H1) as [I1 I2]. split; [done | congruence].
Qed.

Lemma overlapping_calls (n : nat) :
  let st := run middlewares connected (replicate n CallReqResFromSocket) in
  has_req st = true ∧ req_res st = false
  ∧ responses st = n ∧ postgraphileRes st = None
  ∧ calls st = map (started middlewares) (seq 0 n)
  ∧ invoked st
    = if (0 <? middlewares)%nat then map (λ call, (call, 0%nat)) (seq 0 n) else [].
Proof.
  induction n as [| n IH].
  - simpl. split_and!; try done. by destruct (0 <? middlewares)%nat.
  - rewrite replicate_S_end, !seq_S, !map_app.
    unfold run in *. rewrite foldl_app. simpl.
    destruct IH as (Hreq & Hres & Hn & Hcache & Hcalls & Hinvoked).
    set (st := foldl (step middlewares) connected (replicate n CallReqResFromSocket)) in *.
    unfold reqResFromSocket. rewrite Hreq, Hres, Hcache. simpl.
    rewrite Hcalls, Hn, Hinvoked, length_map, length_seq.
    unfold started, applyMiddleware.
    split_and!; try done.
    + by destruct (0 <? middlewares)%nat.
    + by destruct (0 <? middlewares)%nat.
Qed.

End RequestFacts.

Section RequestProperties.

Import SocketRequest.

(** X20. No response leaves [reqResFromSocket] unchecked. On a socket
    on which nothing has happened yet, whatever calls are made and in
    whatever order the middlewares answer and the calls go on: a
    response a call is fulfilled with, and the response kept on the
    socket, were made by a call for which every middleware of
    [websocketMiddlewares] was called, each once and in the order of the
    option, before the call was fulfilled; for every call the middlewares
    called are a first part of the option, in order; a call rejected by a
    middleware ends at that middleware, with the truthy value it passed
    to [next] or with what it threw; and on a socket without a request,
    or with a response on the request, no response is made and no
    middleware is called. *)
Theorem responses_pass_all_middlewares
    (middlewares : nat) (st0 : State) (events : list Event) :
  calls st0 = [] → invoked st0 = [] → postgraphileRes st0 = None →
  let st := run middlewares st0 events in
  (∀ call res, calls st !! call = Some (Fulfilled res) → vetted middlewares st res)
  ∧ (∀ res, postgraphileRes st = Some res → vetted middlewares st res)
  ∧ (∀ call, ∃ k, (k ≤ middlewares)%nat ∧ invoked_by call (invoked st) = seq 0 k)
  ∧ (∀ call err,
       calls st !! call = Some (Rejected (Passed err)) →
       truthy err = true
       ∧ ∃ i, (i < middlewares)%nat ∧ invoked_by call (invoked st) = seq 0 (S i))
  ∧ (∀ call reason,
       calls st !! call = Some (Rejected (Raised reason)) →
       ∃ i, (i < middlewares)%nat ∧ invoked_by call (invoked st) = seq 0 (S i))
  ∧ (has_req st0 = false ∨ req_res st0 = true →
     invoked st = [] ∧ responses st = responses st0 ∧ postgraphileRes st = None).
Proof.
  intros Hcalls Hinvoked Hcache st.
  pose proof (run_request_inv middlewares events st0
                (fresh_request_inv middlewares st0 Hcalls Hinvoked Hcache))
    as (Ha & Hb & Hc & Hd & He & He' & Hf & Hg).
  fold st in Ha, Hb, Hc, Hd, He, He', Hf, Hg.
  split_and!.
  - intros call res Hcall. by destruct (Hc _ _ Hcall).
  - done.
  - intros call.
    destruct (calls st !! call) as [[res [i |] | res | [e | err | reason]] |] eqn:Hcall.
    + destruct (Ha _ _ _ Hcall) as [Hlt Hby]. exists (S i). split; [lia | done].
    + exists middlewares. split; [done | by eapply Hb].
    + destruct (Hc _ _ Hcall) as [_ [Hby | Hby]].
      * by exists middlewares.
      * exists 0%nat. split; [lia | done].
    + exists 0%nat. split; [lia | by eapply Hf].
    + destruct (He _ _ Hcall) as (_ & i & Hlt & Hby). exists (S i). split; [lia | done].
    + destruct (He' _ _ Hcall) as (i & Hlt & Hby). exists (S i). split; [lia | done].
    + exists 0%nat. split; [lia |]. apply Hg. by apply lookup_ge_None.
  - done.
  - done.
  - intros Hreq.
    destruct (run_refused middlewares events st0 Hreq) as (H1 & H2 & H3).
    { intros call c Hc0. by rewrite Hcalls in Hc0. }
    subst st. by rewrite H1, H2, H3.
Qed.

Lemma responses_pass_all_middlewares_witness :
  let st := run 2 connected
              [CallReqResFromSocket; Next 0 0 VUndefined; Next 0 1 VNull; Applied 0] in
  postgraphileRes st = Some 0%nat ∧ vetted 2 st 0.
Proof.
  intros st. split; [reflexivity |].
  refine (proj1 (proj2 (responses_pass_all_middlewares 2 connected
                          [CallReqResFromSocket; Next 0 0 VUndefined;
                           Next 0 1 VNull; Applied 0] eq_refl eq_refl eq_refl))
            0%nat eq_refl).
Defined.

(** X21. Calls of [reqResFromSocket] that overlap each make a response
    and each start the middlewares: after [n] calls on a connected
    socket, none of which has been answered yet, [n] responses have been
    made, the first middleware (if there is one) has been called [n]
    times, and the socket keeps no response. Once the socket keeps a
    response it always keeps one, and no further response is made,
    whatever happens. *)
Theorem overlapping_calls_repeat_the_chain (middlewares : nat) :
  (∀ n,
     let st := run middlewares connected (replicate n CallReqResFromSocket) in
     responses st = n ∧ postgraphileRes st = None
     ∧ calls st = map (started middlewares) (seq 0 n)
     ∧ invoked st
       = if (0 <? middlewares)%nat then map (λ call, (call, 0%nat)) (seq 0 n)
         else [])
  ∧ (∀ st events,
       is_Some (postgraphileRes st) →
       is_Some (postgraphileRes (run middlewares st events))
       ∧ responses (run middlewares st events) = responses st).
Proof.
  split.
  - intros n. by destruct (overlapping_calls middlewares n) as (_ & _ & ? & ? & ? & ?).
  - intros st events. apply run_cache_kept.
Qed.

End RequestProperties.

(** ** Exporting the schema *)

Section ExportFacts.

Implicit Types (cfg : Config) (b : Builder).










End ExportFacts.



(** ** The earlier entry point *)

Section LegacyEntryFacts.

Import Legacy.

Variable Pool_super_ : Value.
Variable parsePgConnectionString : string → Result Value.
Variable new_Pool : Value → Result unit.

Lemma quacks_truthy (v : Value) :
  quacksLikePgPool Pool_super_ v = true → instanceof_Pool v = false →
  truthy v = true.
Proof.
  intros Hq Hi.
  destruct (quacks_inv Pool_super_ v Hq) as [H | [H | H]].
  - congruence.
  - unfold hasPoolConstructor in H. by apply andb_true_iff in H as [? _].
  - by destruct H.
Qed.

Lemma or_else_not_null (a : Value) : loosely_null (or_else a (literal [])) = false.
Proof. unfold or_else. destruct (truthy a) eqn:H; [by destruct a | done]. Qed.

(** A truthy argument that is no [Pool] and no string is the
    configuration [new Pool] is given. *)
Lemma pgPool_of_config (v : Value) :
  instanceof_Pool v = false → is_string v = false → truthy v = true →
  pgPool_of parsePgConnectionString new_Pool v
  = match new_Pool v with
    | Return _ => Return (NewPool v)
    | Throw e => Throw e
    end.
Proof.
  intros Hi Hs Ht. unfold pgPool_of. rewrite Hi. unfold or_else. rewrite Ht.
  by destruct v.
Qed.

(** A falsy argument that is no string gives [new Pool({})]. *)
Lemma pgPool_of_falsy (v : Value) :
  is_string v = false → truthy v = false →
  pgPool_of parsePgConnectionString new_Pool v
  = match new_Pool (literal []) with
    | Return _ => Return (NewPool (literal []))
    | Throw e => Throw e
    end.
Proof.
  intros Hs Ht. unfold pgPool_of.
  assert (instanceof_Pool v = false) as -> by (by destruct v).
  unfold or_else. rewrite Ht. by destruct v.
Qed.

(** When [_postgraphql] throws. *)
Lemma _postgraphql_throws (poolOrConfig second third : Value) :
  (∃ e, (_postgraphql parsePgConnectionString new_Pool poolOrConfig second third).1
        = Throw e)
  ↔ (∃ e, pgPool_of parsePgConnectionString new_Pool poolOrConfig = Throw e)
    ∨ second = VNull.
Proof.
  unfold _postgraphql, schema_and_options.
  destruct (pgPool_of parsePgConnectionString new_Pool poolOrConfig)
    as [pgPool | e0].
  - assert (∀ P : Prop, (P ↔ second = VNull) →
                        (P ↔ (∃ e : Error, Return pgPool = Throw e) ∨ second = VNull))
      as Hadd.
    { intros P [H1 H2]. split; [by right; apply H1 |].
      intros [[e ?] | ?]; [done | by apply H2]. }
    apply Hadd.
    destruct second as [| | flag | | n | s | f | o]; simpl;
      try (split; [by intros [e ?] | done]).
    + split; [done | intros _; by eexists].
    + rewrite or_else_not_null. simpl. split; [by intros [e ?] | done].
    + destruct (obj_isArray o); simpl.
      * rewrite or_else_not_null. simpl. split; [by intros [e ?] | done].
      * split; [by intros [e ?] | done].
  - split; [intros _; left; by eexists |]. intros _. exists e0.
    by repeat case_match.
Qed.

End LegacyEntryFacts.

Section LegacyEntry.

Import Legacy.

(** X23. The pool of the earlier entry point against [toPgPool],
    whatever [parse] and [new Pool] do with what they are given. An
    instance of [Pool] is used as it is by both. Where [toPgPool] makes
    a pool from a configuration that is no string (a falsy argument, a
    plain object), the earlier code gave [new Pool] the same
    configuration. The earlier code refuses no argument itself: what
    [toPgPool] rejects, and a pool of another copy of the library that
    [toPgPool] recognises by its shape, it passed to [new Pool] as the
    configuration, and a string to [parse], whose result [new Pool]
    gets; so it throws at the pool exactly when [parse] or [new Pool]
    does, with that error and before anything else has happened. For
    its other arguments: with [undefined] in the second place the third
    is ignored; besides the pool, [null] in the second place is the only
    thing that makes it throw, and then it throws after the pool was
    made and the first build has called [pgPool.connect()]. *)
Theorem legacy_pool_and_arguments
    (Pool_super_ : Value)
    (parsePgConnectionString : string → Result Value)
    (new_Pool : Value → Result unit)
    (poolOrConfig : Value) :
  let old := pgPool_of parsePgConnectionString new_Pool poolOrConfig in
  let new := toPgPool Pool_super_ poolOrConfig in
  let made config :=
    match new_Pool config with
    | Return _ => Return (NewPool config)
    | Throw e => Throw e
    end in
  let entry := _postgraphql parsePgConnectionString new_Pool poolOrConfig in
  (instanceof_Pool poolOrConfig = true →
   old = Return (Supplied poolOrConfig)
   ∧ new = Return (Supplied poolOrConfig, None))
  ∧ (∀ config release, is_string poolOrConfig = false →
       new = Return (NewPool config, release) → old = made config)
  ∧ (∀ e, new = Throw e → old = made poolOrConfig)
  ∧ (instanceof_Pool poolOrConfig = false → is_string poolOrConfig = false →
     quacksLikePgPool Pool_super_ poolOrConfig = true →
     old = made poolOrConfig ∧ new = Return (Supplied poolOrConfig, None))
  ∧ (∀ s, poolOrConfig = VString s →
       old = match parsePgConnectionString s with
             | Return config => made config
             | Throw e => Throw e
             end)
  ∧ (∀ p, old = Return p →
       p = Supplied poolOrConfig ∧ instanceof_Pool poolOrConfig = true
       ∨ ∃ config, p = NewPool config ∧ new_Pool config = Return tt
                   ∧ instanceof_Pool poolOrConfig = false)
  ∧ (∀ third, entry VUndefined third = entry VUndefined VUndefined)
  ∧ (∀ second third,
       (∃ e, (entry second third).1 = Throw e)
       ↔ (∃ e, old = Throw e) ∨ second = VNull)
  ∧ (∀ e second third, old = Throw e → entry second third = (Throw e, []))
  ∧ (∀ p third, old = Return p →
       entry VNull third = (Throw options_null, [CallConnect 0])).
Proof.
  intros old new made entry. subst old new entry. split_and!.
  - intros Hi. split.
    + unfold pgPool_of. by rewrite Hi.
    + unfold toPgPool. by rewrite (instanceof_quacks Pool_super_ _ Hi).
  - intros config release Hs. unfold toPgPool.
    destruct (quacksLikePgPool Pool_super_ poolOrConfig) eqn:Hq; [done |].
    assert (instanceof_Pool poolOrConfig = false) as Hi.
    { destruct (instanceof_Pool poolOrConfig) eqn:Hi; [| done].
      by rewrite (instanceof_quacks Pool_super_ _ Hi) in Hq. }
    rewrite Hs.
    destruct (truthy poolOrConfig) eqn:Ht; simpl.
    + destruct (isPlainObject poolOrConfig); [| done].
      intros [= <- _]. by apply pgPool_of_config.
    + intros [= <- _]. by apply pgPool_of_falsy.
  - intros e. unfold toPgPool.
    destruct (quacksLikePgPool Pool_super_ poolOrConfig) eqn:Hq; [done |].
    destruct (is_string poolOrConfig) eqn:Hs; [done |].
    destruct (truthy poolOrConfig) eqn:Ht; [| done]. simpl.
    destruct (isPlainObject poolOrConfig); [done |]. intros _.
    apply pgPool_of_config; try done.
    destruct (instanceof_Pool poolOrConfig) eqn:Hi; [| done].
    by rewrite (instanceof_quacks Pool_super_ _ Hi) in Hq.
  - intros Hi Hs Hq. split.
    + apply pgPool_of_config; try done. by eapply quacks_truthy.
    + unfold toPgPool. by rewrite Hq.
  - intros s ->. unfold pgPool_of. simpl.
    by destruct (parsePgConnectionString s).
  - intros p. unfold pgPool_of.
    destruct (instanceof_Pool poolOrConfig) eqn:Hi.
    + intros [= <-]. by left.
    + destruct (match poolOrConfig with
                | VString s => parsePgConnectionString s
                | _ => Return (or_else poolOrConfig (literal []))
                end) as [config | e]; [| done].
      destruct (new_Pool config) as [[] | e] eqn:Hnew; [| done].
      intros [= <-]. right. by exists config.
  - intros third. unfold _postgraphql, schema_and_options. simpl. done.
  - apply _postgraphql_throws.
  - intros e second third He. unfold _postgraphql. rewrite He.
    by destruct (schema_and_options second third).
  - intros p third Hp. unfold _postgraphql. by rewrite Hp.
Qed.

End LegacyEntry.

Section LegacyBuildFacts.

Import Legacy.

Implicit Types (st : State).

Lemma connects_app (l1 l2 : list Event) : connects (l1 ++ l2) = connects l1 ++ connects l2.
Proof. apply omap_app. Qed.

Lemma client_releases_app (l1 l2 : list Event) :
  client_releases (l1 ++ l2) = client_releases l1 ++ client_releases l2.
Proof. apply omap_app. Qed.

Lemma exits_app (l1 l2 : list Event) : exits (l1 ++ l2) = exits l1 ++ exits l2.
Proof. apply omap_app. Qed.

Lemma errors_logged_app (l1 l2 : list Event) :
  errors_logged (l1 ++ l2) = (errors_logged l1 + errors_logged l2)%nat.
Proof. unfold errors_logged. by rewrite omap_app, length_app. Qed.

Lemma restarts_app (l1 l2 : list Event) :
  restarts (l1 ++ l2) = (restarts l1 + restarts l2)%nat.
Proof. unfold restarts. by rewrite omap_app, length_app. Qed.

Local Ltac project_log :=
  rewrite ?connects_app, ?client_releases_app, ?exits_app, ?errors_logged_app,
    ?restarts_app; cbn [connects client_releases exits errors_logged restarts
                        omap list_omap option_bind length app mbind];
  rewrite ?app_nil_r, ?Nat.add_0_r, ?length_insert.

(** A build that is awaited has not released its client. *)
Lemma awaited_not_released (watch : bool) st (build : nat) (b : Build) :
  legacy_inv watch st → builds st !! build = Some b →
  (∀ s, b ≠ Resolved s) → build ∉ client_releases (log st).
Proof.
  intros (_ & _ & _ & _ & _ & Hres & _) Hb Hne Hin.
  destruct (Hres _ Hin) as [s Hs]. rewrite Hb in Hs. simplify_eq. by eapply Hne.
Qed.

Lemma resolved_kept st (build : nat) (b : Build) (n : nat) (s : Schema) (old : Build) :
  builds st !! build = Some old → (∀ s', old ≠ Resolved s') →
  builds st !! n = Some (Resolved s) →
  <[build := b]> (builds st) !! n = Some (Resolved s).
Proof.
  intros Hold Hne Hn.
  destruct (decide (build = n)) as [-> | Hbn].
  - rewrite Hold in Hn. simplify_eq. by destruct (Hne s).
  - by rewrite list_lookup_insert_ne.
Qed.

Lemma catch_error_legacy_inv (watch : bool) st (build : nat) (error : Error) (old : Build) :
  exited st = false → builds st !! build = Some old → (∀ s, old ≠ Resolved s) →
  legacy_inv watch st → legacy_inv watch (catch_error build error st).
Proof.
  intros Hex Hold Hne (Hcon & Hlen & Hexits & Herr & Hnd & Hres & Hwatch).
  rewrite Hex in Hexits.
  unfold legacy_inv, catch_error. simpl. project_log.
  rewrite Hexits in *. simpl in *. split_and!; try done.
  - lia.
  - intros n Hin. destruct (Hres n Hin) as [s Hs]. exists s.
    by eapply resolved_kept.
Qed.

Lemma step_legacy_inv (watch : bool) st (i : Input) st' :
  step st i = Some st' → legacy_inv watch st → legacy_inv watch st'.
Proof.
  unfold step. destruct (exited st) eqn:Hex; [done |].
  intros Hstep Hinv.
  destruct i as [build [pgClient | error] | build [newGqlSchema | error] | | error].
  - destruct (builds st !! build) as [[| | |] |] eqn:Hb; try done. simplify_eq.
    destruct Hinv as (Hcon & Hlen & Hexits & Herr & Hnd & Hres & Hwatch).
    unfold legacy_inv. simpl. project_log. rewrite Hex in *.
    split_and!; try done.
    intros n Hin. destruct (Hres n Hin) as [s Hs]. exists s.
    by eapply resolved_kept.
  - destruct (builds st !! build) as [[| | |] |] eqn:Hb; try done. simplify_eq.
    by eapply catch_error_legacy_inv.
  - destruct (builds st !! build) as [[| pgClient | |] |] eqn:Hb; try done.
    destruct (truthy pgClient && truthy (get_prop pgClient "release")).
    + destruct (is_function (get_prop pgClient "release")); simplify_eq.
      * pose proof (awaited_not_released watch st build _ Hinv Hb) as Hfresh.
        destruct Hinv as (Hcon & Hlen & Hexits & Herr & Hnd & Hres & Hwatch).
        unfold legacy_inv. simpl. project_log. rewrite Hex in *.
        split_and!; try done.
        -- apply NoDup_app. split_and!; [done | | apply NoDup_singleton].
           intros n Hn Hn'. apply list_elem_of_singleton in Hn' as ->.
           by apply Hfresh.
        -- intros n Hin. apply elem_of_app in Hin as [Hin | Hin].
           ++ destruct (Hres n Hin) as [s Hs]. exists s. by eapply resolved_kept.
           ++ apply list_elem_of_singleton in Hin as ->. exists newGqlSchema.
              apply list_lookup_insert_eq. by eapply lookup_lt_Some.
      * by eapply catch_error_legacy_inv.
    + simplify_eq.
      destruct Hinv as (Hcon & Hlen & Hexits & Herr & Hnd & Hres & Hwatch).
      unfold legacy_inv. simpl. project_log. rewrite Hex in *.
      split_and!; try done.
      intros n Hin. destruct (Hres n Hin) as [s Hs]. exists s.
      by eapply resolved_kept.
  - destruct (builds st !! build) as [[| pgClient | |] |] eqn:Hb; try done.
    simplify_eq. by eapply catch_error_legacy_inv.
  - destruct (watching st) eqn:Hw; [| done]. simplify_eq.
    destruct Hinv as (Hcon & Hlen & Hexits & Herr & Hnd & Hres & Hwatch).
    unfold legacy_inv, createGqlSchema. simpl. project_log. rewrite Hex in *.
    rewrite length_app. simpl. rewrite Nat.add_1_r, seq_S, Hcon. simpl.
    split_and!; try done.
    + lia.
    + intros n Hin. destruct (Hres n Hin) as [s Hs]. exists s.
      by apply lookup_app_l_Some.
    + intros ->. destruct (Hwatch eq_refl) as [Hw' _]. congruence.
  - destruct (watching st) eqn:Hw; [| done]. simplify_eq.
    destruct Hinv as (Hcon & Hlen & Hexits & Herr & Hnd & Hres & Hwatch).
    unfold legacy_inv. simpl. project_log. rewrite Hex in *.
    rewrite Hexits in *. simpl in *.
    split_and!; try done.
    + lia.
    + intros ->. destruct (Hwatch eq_refl) as [Hw' _]. congruence.
Qed.

Lemma run_legacy_inv (watch : bool) (inputs : list Input) st st' :
  run st inputs = Some st' → legacy_inv watch st → legacy_inv watch st'.
Proof.
  revert st. induction inputs as [| i inputs IH]; intros st Hrun Hinv.
  - simpl in Hrun. by simplify_eq.
  - simpl in Hrun. destruct (step st i) as [st1 |] eqn:Hstep; [| done].
    eapply IH; [done |]. by eapply step_legacy_inv.
Qed.

End LegacyBuildFacts.

Section LegacyBuilds.

Import Legacy.

(** X24. The builds of the earlier entry point. From the state
    [_postgraphql] returns, whatever settles and in whatever order:
    every build has called [pgPool.connect()] once, in the order the
    builds were started; there is the first build and one more for every
    change the watcher reported, and [getGqlSchema] hands out the promise
    of the build started last; without [watchPg] there is the one build
    only. Every error that was caught was logged and ended the process
    with [process.exit(1)], at most once, and after that nothing runs. A
    client is released at most once, and only by a build that resolved:
    the client of a build that failed is never released. *)
Theorem legacy_builds
    (parsePgConnectionString : string → Result Value)
    (new_Pool : Value → Result unit)
    (poolOrConfig schemaOrOptions maybeOptions : Value)
    (started : Started) (l0 : list Event) (inputs : list Input) (st : State) :
  _postgraphql parsePgConnectionString new_Pool poolOrConfig schemaOrOptions
    maybeOptions
  = (Return started, l0) →
  run (started_state started) inputs = Some st →
  connects (log st) = seq 0 (length (builds st))
  ∧ length (builds st) = S (restarts (log st))
  ∧ getGqlSchema st = restarts (log st)
  ∧ (truthy (get_prop (started_options started) "watchPg") = false →
     length (builds st) = 1%nat)
  ∧ exits (log st) = (if exited st then [1%Z] else [])
  ∧ errors_logged (log st) = length (exits (log st))
  ∧ (exited st = true → ∀ i, step st i = None)
  ∧ NoDup (client_releases (log st))
  ∧ (∀ build, build ∈ client_releases (log st) →
              ∃ s, builds st !! build = Some (Resolved s)).
Proof.
  intros Hstart Hrun.
  set (watch := truthy (get_prop (started_options started) "watchPg")).
  assert (legacy_inv watch (started_state started)) as Hinit.
  { unfold _postgraphql in Hstart.
    destruct (schema_and_options schemaOrOptions maybeOptions) as [schema options].
    destruct (pgPool_of _ _ poolOrConfig) as [pgPool | e]; [| done].
    destruct (loosely_null options); [done |].
    injection Hstart as <- _. subst watch. simpl.
    destruct (truthy (get_prop options "watchPg")); unfold legacy_inv; simpl;
      split_and!; try done; try apply NoDup_nil_2;
      by intros n Hn%elem_of_nil. }
  destruct (run_legacy_inv watch inputs _ st Hrun Hinit)
    as (Hcon & Hlen & Hexits & Herr & Hnd & Hres & Hwatch).
  split_and!; try done.
  - unfold getGqlSchema. by rewrite Hlen.
  - intros Hw. destruct (Hwatch Hw) as [_ H0]. by rewrite Hlen, H0.
  - intros Hex i. unfold step. by rewrite Hex.
Qed.

Lemma legacy_builds_witness :
  ∃ started l0 st,
    _postgraphql (λ s, Return (literal [])) (λ config, Return tt) VUndefined
      (literal [("watchPg", VBool true)]) VUndefined
    = (Return started, l0)
    ∧ run (started_state started)
        [ConnectSettled 0 (Return (literal [("release", VFunction Object_fn)]));
         Change;
         SchemaSettled 0 (Return 7%nat);
         ConnectSettled 1 (Throw (External 1))]
      = Some st
    ∧ client_releases (log st) = [0%nat]
    ∧ exits (log st) = [1%Z]
    ∧ getGqlSchema st = 1%nat.
Proof.
  eexists _, _, _. split; [reflexivity |]. split; [reflexivity |].
  split; [reflexivity |]. split; [reflexivity |].
  refine (proj1 (proj2 (proj2
            (legacy_builds (λ s, Return (literal [])) (λ config, Return tt)
               VUndefined
               (literal [("watchPg", VBool true)]) VUndefined _ _
               [ConnectSettled 0 (Return (literal [("release", VFunction Object_fn)]));
                Change;
                SchemaSettled 0 (Return 7%nat);
                ConnectSettled 1 (Throw (External 1))]
               _ eq_refl eq_refl)))).
Defined.

End LegacyBuilds.

(** ** How a build ends *)

Section EndFacts.

Implicit Types (cfg : Config) (b : Builder).

Lemma catch_error_end_inv cfg (e : Error) b :
  process_exits (log b) = [] → end_inv cfg (catch_error cfg e b).
Proof.
  intros Hexits. unfold end_inv, catch_error.
  destruct (retryOnInitFail cfg) eqn:Hp; simpl;
    rewrite !process_exits_app, Hexits; simpl;
    (split_and!; [done | by intros ? [= <-] | by intros ? ? [= <- <-] |]);
    first [by left | by right].
Qed.

Lemma try_build_end_inv cfg b :
  process_exits (log b) = [] → end_inv cfg (try_build cfg b).
Proof.
  intros Hexits. unfold try_build. destruct (watchPg cfg).
  - destruct (releaseWatchFn b); [by apply catch_error_end_inv |].
    unfold end_inv. simpl. rewrite process_exits_app, Hexits.
    split_and!; try done. by left.
  - unfold end_inv. simpl. rewrite process_exits_app, Hexits.
    split_and!; try done. by left.
Qed.

Lemma releaseOnce_exits cfg b :
  process_exits (log (releaseOnce cfg b).2) = process_exits (log b).
Proof.
  destruct b as [g w r a p ph l], cfg as [watch policy rel].
  unfold releaseOnce, releaseWatch, bind, read, modify, throw, ret. simpl.
  destruct r; [done |]. simpl.
  destruct w as [fn |]; simpl.
  - destruct (release_outcome fn); simpl;
      [| by rewrite process_exits_app, app_nil_r].
    destruct rel as [[pg] |]; simpl;
      [| by rewrite process_exits_app, app_nil_r].
    unfold call, Pool_end, bind, read, modify. simpl.
    destruct (ended p); simpl; [destruct (on_second_end p) |];
      by rewrite !process_exits_app, !app_nil_r.
  - destruct rel as [[pg] |]; simpl; [| done].
    unfold call, Pool_end, bind, read, modify. simpl.
    destruct (ended p); simpl; [destruct (on_second_end p) |];
      by rewrite !process_exits_app, !app_nil_r.
Qed.

Lemma end_inv_same cfg b b' :
  phase b' = phase b → process_exits (log b') = process_exits (log b) →
  end_inv cfg b → end_inv cfg b'.
Proof. intros Hphase Hexits. unfold end_inv. by rewrite Hphase, Hexits. Qed.

Lemma step_end_inv cfg b (i : Input) b' :
  step cfg b i = Some b' → end_inv cfg b → end_inv cfg b'.
Proof.
  intros Hstep Hinv. pose proof Hinv as (Hrej & Hexit & Hhook & Hexits).
  assert (process_exits (log b) = [] ∧ ∀ code, phase b ≠ Exited code) as [Hnone Hlive].
  { destruct Hexits as [? | [_ Hphase]]; [done |].
    unfold step in Hstep. rewrite Hphase in Hstep.
    by destruct i as [[] | | [] | [] ? |]. }
  unfold step in Hstep.
  destruct i as [[s | e] | s | [fn | e] | [retry | e] diff |],
    (phase b) as [| | e' d' | | s' | e' | code] eqn:Hphase;
    try done; simplify_eq.
  all: try by apply catch_error_end_inv.
  all: try by apply try_build_end_inv.
  all: try (destruct (watchPg cfg); simplify_eq;
            apply (end_inv_same cfg b); [done | | done];
            unfold watch_callback; simpl;
            rewrite !process_exits_app; simpl; by rewrite !app_nil_r).
  - unfold end_inv, return_gqlSchema.
    destruct (0 <? attempts _)%Z; simpl;
      rewrite !process_exits_app, Hnone; simpl;
      (split_and!; [done | done | done | by left]).
  - simpl in Hstep. destruct (gqlSchema b) as [cur |]; simplify_eq.
    + unfold end_inv, return_gqlSchema.
      destruct (0 <? attempts _)%Z; simpl;
        rewrite ?process_exits_app, Hnone; simpl;
        (split_and!; [done | done | done | by left]).
    + by apply catch_error_end_inv.
  - pose proof (Hhook _ _ eq_refl) as Hpolicy.
    destruct (negb (truthy retry)).
    + pose proof (releaseOnce_exits cfg b) as Hsame.
      assert (∃ e0, b' = set_phase (SchemaBuilder.Rejected (wrap e0))
                           (releaseOnce cfg b).2) as [e0 ->].
      { destruct (releaseOnce cfg b) as [[[] | e0] b1]; simplify_eq; by eexists. }
      unfold end_inv. simpl. rewrite Hsame, Hnone.
      split_and!; [| done | done | by left].
      intros e1 [= <-]. split; [done | by eexists].
    + destruct (dur_lt_50 diff); simplify_eq; [| by apply try_build_end_inv].
      unfold end_inv. simpl. rewrite !process_exits_app, Hnone. simpl.
      split_and!; [done | done | done | by left].
  - pose proof (Hhook _ _ eq_refl) as Hpolicy.
    unfold end_inv. simpl. rewrite Hnone.
    split_and!; [| done | done | by left].
    intros e1 [= <-]. split; [done | by eexists].
Qed.

Lemma run_end_inv cfg b (inputs : list Input) b' :
  run cfg b inputs = Some b' → end_inv cfg b → end_inv cfg b'.
Proof.
  revert b. induction inputs as [| i inputs IH]; intros b Hrun Hinv.
  - simpl in Hrun. by simplify_eq.
  - simpl in Hrun. destruct (step cfg b i) as [b1 |] eqn:Hstep; [| done].
    eapply IH; [done |]. by eapply step_end_inv.
Qed.

End EndFacts.

(** X25. How the promise of [createGqlSchema] can end. It is rejected
    only under a [retryOnInitFail] function, and then with the 503
    [GraphQLError] ('Failed to initialize GraphQL schema.') around the
    cause; the process exits only without a retry policy, with
    [process.exit(34)] and once; and with [retryOnInitFail] truthy but
    not a function neither happens: the promise stays pending, the
    builder unreleased, until a build succeeds. *)
Theorem how_a_build_ends
    (cfg : Config) (p : Pool) (inputs : list Input) (b : Builder) :
  run cfg (new_builder cfg p []) inputs = Some b →
  (∀ e, phase b = SchemaBuilder.Rejected e →
        retryOnInitFail cfg = RetryHook ∧ ∃ e0, e = wrap e0)
  ∧ (∀ code, phase b = Exited code →
             retryOnInitFail cfg = RetryFalsy ∧ code = 34%Z
             ∧ process_exits (log b) = [34%Z])
  ∧ (process_exits (log b) ≠ [] →
     retryOnInitFail cfg = RetryFalsy ∧ phase b = Exited 34)
  ∧ (released b = true → retryOnInitFail cfg = RetryHook)
  ∧ (retryOnInitFail cfg = RetryTruthy →
     released b = false
     ∧ (in_flight b = true ∨ ∃ s, phase b = Resolved s)).
Proof.
  intros Hrun.
  assert (end_inv cfg (new_builder cfg p [])) as Hinit
    by (by apply try_build_end_inv).
  destruct (run_end_inv cfg _ inputs b Hrun Hinit)
    as (Hrej & Hexit & Hhook & Hexits).
  destruct (run_release_inv cfg p _ inputs b Hrun (new_builder_release_inv cfg p))
    as (_ & Hreleased & _).
  assert (released b = true → retryOnInitFail cfg = RetryHook) as Hrel.
  { intros Hr. destruct (Hreleased Hr) as [e He]. by destruct (Hrej e He). }
  split_and!.
  - done.
  - intros code Hcode. destruct (Hexit code Hcode) as [Hp ->].
    split_and!; [done | done |].
    destruct Hexits as [[_ Hlive] | [? _]]; [by destruct (Hlive 34%Z) | done].
  - intros Hne. destruct Hexits as [[Hnil _] | [_ Hphase]]; [done |].
    by destruct (Hexit _ Hphase).
  - done.
  - intros Hp. split.
    + destruct (released b) eqn:Hr; [| done]. specialize (Hrel eq_refl). congruence.
    + unfold in_flight.
      destruct (phase b) as [| | e d | | s | e | code] eqn:Hphase; eauto.
      * destruct (Hrej e eq_refl). congruence.
      * destruct (Hexit code eq_refl). congruence.
Qed.

Lemma how_a_build_ends_witness :
  ∃ b e0,
    run {| watchPg := false; retryOnInitFail := RetryHook; releasePgPool := None |}
      (new_builder
         {| watchPg := false; retryOnInitFail := RetryHook; releasePgPool := None |}
         {| ended := false; on_second_end := Return tt |} [])
      [CreateSettled (Throw (External 1));
       RetryOnInitFailSettled (Throw (External 2)) (0, 0)%Z]
    = Some b
    ∧ phase b = SchemaBuilder.Rejected (wrap (External 2))
    ∧ wrap (External 2) = wrap e0.
Proof.
  eexists _, _. split; [reflexivity |]. split; [reflexivity |].
  match goal with
  | |- ?e = wrap ?x =>
      destruct (proj1 (how_a_build_ends
                         {| watchPg := false; retryOnInitFail := RetryHook;
                            releasePgPool := None |}
                         {| ended := false; on_second_end := Return tt |}
                         [CreateSettled (Throw (External 1));
                          RetryOnInitFailSettled (Throw (External 2)) (0, 0)%Z]
                         _ eq_refl) e eq_refl) as [_ [e1 He1]]
  end.
  reflexivity.
Defined.

(** ** The request kept on the socket *)

(** X26. The request [onConnect] keeps on the socket, which the
    middlewares and the context of every operation are given. Both
    protocols keep the same request, with the connection parameters as
    they came and their lower-cased copy. Its headers are the headers of
    the upgrade request except possibly [authorization]: no other header
    is added, changed or removed by a connection parameter, and
    [authorization] is written only when the request has no truthy one
    and the parameter is truthy, with the string [String(parameter)]
    returns; when that call throws, [onConnect] throws the same error
    and the request is kept with its headers as they came. In [v1]
    absent parameters are the empty object; in [v0] a connection without
    request, or without parameters, is refused and leaves what was on
    the socket. *)
Theorem stored_request_gains_authorization_only `{Builtins}
    (socketId : Z) (params : list (string * Value))
    (socket : Socket) (request : Request) :
  let normalized := lowerCaseKeys params in
  let param := read_dict normalized "authorization" in
  let copied := negb (truthy (authorization (headers request))) && truthy param in
  let v0 := onConnect_v0 socketId (Some params) socket (Some request) in
  let v1 := onConnect_v1 socketId (Some params) socket request in
  let refused := onConnect_v0 socketId (Some params) socket None in
  let keyless := onConnect_v0 socketId None socket (Some request) in
  (∃ req,
     postgraphileReq v0.2.2 = Some req
     ∧ postgraphileReq v1.2.2 = Some req
     ∧ connectionParams req = Some params
     ∧ normalizedConnectionParams req = Some normalized
     ∧ (∀ k, k ≠ "authorization" → headers req !! k = headers request !! k)
     ∧ (truthy (authorization (headers request)) = true →
        headers req = headers request)
     ∧ (copied = false → headers req = headers request)
     ∧ (∀ s, copied = true → ToString param = Return s →
             headers req = <["authorization" := VString s]> (headers request))
     ∧ (∀ e, copied = true → ToString param = Throw e →
             headers req = headers request ∧ v0.1 = Throw e ∧ v1.1 = Throw e)
     ∧ (headers req ≠ headers request →
        copied = true
        ∧ ∃ s, ToString param = Return s
               ∧ headers req = <["authorization" := VString s]> (headers request)))
  ∧ onConnect_v1 socketId None socket request
    = onConnect_v1 socketId (Some []) socket request
  ∧ refused.1 = Throw (JsError "No request!")
  ∧ postgraphileReq refused.2.2 = postgraphileReq socket
  ∧ postgraphileHeaders refused.2.2 = postgraphileHeaders socket
  ∧ keyless.1 = Throw (TypeError "Cannot convert undefined or null to object")
  ∧ postgraphileReq keyless.2.2 = postgraphileReq socket
  ∧ postgraphileHeaders keyless.2.2 = postgraphileHeaders socket.
Proof.
  intros normalized param copied v0 v1 refused keyless.
  split_and!; try done.
  assert (truthy (authorization (headers request)) = true → copied = false)
    as Hsent.
  { intros Hh. subst copied. by rewrite Hh. }
  destruct copied eqn:Hc.
  - destruct (ToString param) as [s | e] eqn:Hs.
    + pose proof (copy_authorization_copies normalized (headers request) s Hc Hs)
        as Hcopy.
      subst v0 v1.
      rewrite (onConnect_v0_returns _ _ _ _ _ Hcopy),
        (onConnect_v1_returns _ (Some params) _ _ _ Hcopy).
      eexists. split; [reflexivity |]. split; [reflexivity |]. simpl.
      split_and!; try done.
      * intros k Hk. by rewrite lookup_insert_ne.
      * intros Hh. by specialize (Hsent Hh).
      * intros s' _ Hs'. by simplify_eq.
      * intros _. split; [done |]. by exists s.
    + pose proof (copy_authorization_throws normalized (headers request) e Hc Hs)
        as Hcopy.
      subst v0 v1.
      rewrite (onConnect_v0_throws _ _ _ _ _ Hcopy),
        (onConnect_v1_throws _ (Some params) _ _ _ Hcopy).
      eexists. split; [reflexivity |]. split; [reflexivity |]. simpl.
      split_and!; try done.
      intros e' _ He'. by simplify_eq.
  - pose proof (copy_authorization_skips normalized (headers request) Hc) as Hcopy.
    subst v0 v1.
    rewrite (onConnect_v0_returns _ _ _ _ _ Hcopy),
      (onConnect_v1_returns _ (Some params) _ _ _ Hcopy).
    eexists. split; [reflexivity |]. split; [reflexivity |]. simpl.
    split_and!; done.
Qed.

(** ** A pool without [on] *)

(** X27. [quacksLikePgPool] does not ask for [on], [postgraphile] calls
    it: for a first argument that [toPgPool] takes as the pool itself but
    whose [on] is no function, [postgraphile] throws the [TypeError] of
    that call, after the arguments were accepted and before the options
    reach the plugin hook or a build is started; the result does not
    depend on the options. With [on] a function the result is the one of
    [getPostgraphileSchemaBuilder] on that pool, without
    [releasePgPool]. *)
Theorem recognised_pool_must_listen
    (env : Env) (first second : Value) (rest : list Value) :
  is_string second || isArray second || bool_decide (typeof second = TyObject) = true →
  quacksLikePgPool (Pool_super_ env) first = true →
  (is_function (get_prop first "on") = false →
   postgraphile env (first :: second :: rest)
   = Throw (TypeError "pgPool.on is not a function")
   ∧ postgraphile env [first] = Throw (TypeError "pgPool.on is not a function"))
  ∧ (is_function (get_prop first "on") = true →
     ∀ h, postgraphile env [first] = Return h →
          pgPool h = Supplied first
          ∧ getPostgraphileSchemaBuilder env (Supplied first) (VString "public")
              (literal []) None
            = Return (options h, config h, builder h)).
Proof.
  intros Hsecond Hquack.
  assert (typeof first ≠ TyUndefined) as Hdefined.
  { intros Hty. destruct first; try done. }
  unfold postgraphile. simpl.
  rewrite (bool_decide_eq_false_2 _ Hdefined). simpl.
  unfold toPgPool. rewrite Hquack. split.
  - intros Hon. rewrite Hon. simpl. split; [| done].
    apply orb_true_iff in Hsecond as [-> | ->]; [done |].
    by destruct (is_string second || isArray second).
  - intros Hon h. rewrite Hon. simpl.
    destruct (getPostgraphileSchemaBuilder env (Supplied first) (VString "public")
                (literal []) None) as [[[opts cfg] b] | e]; [| done].
    by intros [= <-].
Qed.

Lemma recognised_pool_must_listen_witness :
  postgraphile plain_env
    [set_prop duck_pool "on" VUndefined; literal [("watchPg", VBool true)]]
  = Throw (TypeError "pgPool.on is not a function").
Proof.
  refine (proj1 (proj1 (recognised_pool_must_listen plain_env
                          (set_prop duck_pool "on" VUndefined)
                          (literal [("watchPg", VBool true)]) [] eq_refl eq_refl)
                   eq_refl)).
Defined.
